(** * Character-level Huffman coder: shallow embedding of [huffman_commands.c]

    The development follows the C file function by function.  Conventions:

    - [unsigned long] is the 64-bit type of an LP64 target: a value is a [Z]
      in [0, 2^64) and every addition or shift is reduced modulo
      [ULONG_MODULUS] where the C code computes it.
    - [int] values that index arrays or count loop rounds ([c], [i], [sp],
      [heap_size]) are [nat]; [int] values that are stored or returned
      ([len], [bits], [bytes]) are [Z].  Signed overflow has no defined
      result in C: [encode_command] returns [None] when its accumulator would
      leave the [int] range.
    - a [Node *] is the tree it points to.  The code only ever allocates two
      shapes: a leaf ([symbol >= 0], both children [NULL]) and an internal
      node ([symbol == -1], both children present), so the [NULL] tests of
      the traversal always succeed on an internal node.
    - the global [heap] array together with [heap_size] is the list of its
      first [heap_size] cells; [char_codes] is the list of its 256 entries.
    - an array access outside its bounds has no defined result: the traversal
      stack of [MAX_CODE_LEN * 2] frames and a pop from an empty heap yield
      [None].
    - a C string is a Rocq [string]; a loop over it stops at the first NUL
      character or at the end of the Rocq string, whichever comes first.
    - every loop is a [Fixpoint] on a round counter.  The counter is the
      number of rounds the loop can take at most, and lemmas below show that
      it never cuts a loop short.

    The file has three parts: the embedding of the C code, the definitions
    used to state its properties, and the proofs. *)

From Stdlib Require Import ZArith Lia ZifyNat String Ascii.
From stdpp Require Import base option list.

Local Open Scope nat_scope.

(** [lia] is used on index arithmetic with [/ 2] and on [mod 2^64]. *)
Ltac Zify.zify_post_hook ::= Z.div_mod_to_equations.

(** ** Constants and data *)

Definition NUM_CHARS : nat := 256.
Definition MAX_CODE_LEN : nat := 64.
Definition MAX_HEAP : nat := NUM_CHARS * 2.
Definition TARGET_BITS : Z := 32.

Definition ULONG_MODULUS : Z := 2 ^ 64.
Definition INT_MAX : Z := 2 ^ 31 - 1.
Definition INT_MIN : Z := - 2 ^ 31.

(** [typedef struct Node]: [symbol] is the character for a leaf; an internal
    node (symbol [-1] in C) carries none. *)
Inductive Node : Type :=
| Leaf (symbol : nat) (f : Z)
| Internal (f : Z) (l r : Node).

(** [n->freq] *)
Definition freq (n : Node) : Z :=
  match n with
  | Leaf _ f => f
  | Internal f _ _ => f
  end.

(** [typedef struct CodeEntry] *)
Record CodeEntry : Type := mkCodeEntry { code : Z; len : Z }.

#[global] Instance CodeEntry_inhabited : Inhabited CodeEntry :=
  populate (mkCodeEntry 0 0).

#[global] Instance Node_inhabited : Inhabited Node := populate (Leaf 0 0).

(** The code indexes its tables with [0 <= c < NUM_CHARS] only.  The total
    lookup [l !!! c] needs a value outside the list all the same: it is 0 for
    frequencies and the zero entry for codes. *)
#[global] Instance freq_inhabited : Inhabited Z := populate 0%Z.

(** ** The array-backed min-heap *)

(** [heap_swap(i, j)] *)
Definition heap_swap (i j : nat) (heap : list Node) : list Node :=
  match heap !! i, heap !! j with
  | Some a, Some b => <[j := a]> (<[i := b]> heap)
  | _, _ => heap
  end.

(** [heap[a]->freq <= heap[b]->freq] and the strict variant; both cells are
    live whenever the code evaluates them. *)
Definition freq_le_at (heap : list Node) (a b : nat) : bool :=
  match heap !! a, heap !! b with
  | Some x, Some y => (freq x <=? freq y)%Z
  | _, _ => true
  end.

Definition freq_lt_at (heap : list Node) (a b : nat) : bool :=
  match heap !! a, heap !! b with
  | Some x, Some y => (freq x <? freq y)%Z
  | _, _ => false
  end.

(** [heap_up(i)]: the [while (i > 0)] loop.  The index strictly decreases, so
    [i] rounds are enough; [fuel] counts them down. *)
Fixpoint heap_up_loop (fuel i : nat) (heap : list Node) : list Node :=
  match fuel with
  | O => heap
  | S fuel' =>
      if 0 <? i then
        let p := (i - 1) / 2 in
        if freq_le_at heap p i then heap
        else heap_up_loop fuel' p (heap_swap p i heap)
      else heap
  end.

Definition heap_up (i : nat) (heap : list Node) : list Node :=
  heap_up_loop i i heap.

(** [heap_down(i)]: the [for (;;)] loop.  The index strictly increases and the
    loop stops once it has no child below [heap_size]. *)
Fixpoint heap_down_loop (fuel i : nat) (heap : list Node) : list Node :=
  match fuel with
  | O => heap
  | S fuel' =>
      let l := 2 * i + 1 in
      let r := 2 * i + 2 in
      let smallest := i in
      let smallest :=
        if (l <? length heap) && freq_lt_at heap l smallest then l
        else smallest in
      let smallest :=
        if (r <? length heap) && freq_lt_at heap r smallest then r
        else smallest in
      if smallest =? i then heap
      else heap_down_loop fuel' smallest (heap_swap i smallest heap)
  end.

Definition heap_down (i : nat) (heap : list Node) : list Node :=
  heap_down_loop (length heap) i heap.

(** [heap_push(n)], for a heap of fewer than [MAX_HEAP] cells, the size of the
    array [heap]; [build_char_codes] never holds more than [NUM_CHARS]
    trees. *)
Definition heap_push (n : Node) (heap : list Node) : list Node :=
  heap_up (length heap) (heap ++ [n]).

(** [heap_pop()]: returns the top and the remaining heap.  On an empty heap
    the C code reads [heap[0]] of no live cell. *)
Definition heap_pop (heap : list Node) : option (Node * list Node) :=
  match heap !! 0, last heap with
  | Some top, Some bottom =>
      let heap' := <[0 := bottom]> (take (length heap - 1) heap) in
      Some (top, if 0 <? length heap' then heap_down 0 heap' else heap')
  | _, _ => None
  end.

(** ** Frequency counting *)

(** One command string: [for (p = COMMANDS[i]; *p; p++) freq[(unsigned char)*p]++]. *)
Fixpoint count_string (p : string) (char_freq : list Z) : list Z :=
  match p with
  | EmptyString => char_freq
  | String ch p' =>
      if Ascii.eqb ch zero then char_freq
      else
        let c := nat_of_ascii ch in
        count_string p' (<[c := ((char_freq !!! c) + 1) mod ULONG_MODULUS]> char_freq)
  end%Z.

(** [count_char_freq(freq)], with the command array as an argument. *)
Definition count_char_freq (commands : list string) : list Z :=
  foldl (fun char_freq cmd => count_string cmd char_freq)
        (replicate NUM_CHARS 0%Z) commands.

(** ** Tree construction *)

(** Body of the first [for] loop of [build_char_codes], for one [c]. *)
Definition init_step (char_freq : list Z)
    (st : list CodeEntry * list Node * nat) (c : nat)
  : list CodeEntry * list Node * nat :=
  let '(char_codes, heap, n_used) := st in
  let char_codes := <[c := mkCodeEntry 0 0]> char_codes in
  if (char_freq !!! c =? 0)%Z then (char_codes, heap, n_used)
  else (char_codes, heap_push (Leaf c (char_freq !!! c)) heap, S n_used).

Definition init_loop (char_freq : list Z)
  : list CodeEntry * list Node * nat :=
  foldl (init_step char_freq)
        (replicate NUM_CHARS (mkCodeEntry 0 0), [], 0)
        (seq 0 NUM_CHARS).

(** One round of [while (heap_size > 1)]. *)
Definition merge_step (heap : list Node) : option (list Node) :=
  '(a, heap1) ← heap_pop heap;
  '(b, heap2) ← heap_pop heap1;
  let p := Internal ((freq a + freq b) mod ULONG_MODULUS) a b in
  Some (heap_push p heap2).

(** [while (heap_size > 1)]: every round removes one cell, so [heap_size]
    rounds are enough. *)
Fixpoint merge_loop (fuel : nat) (heap : list Node) : option (list Node) :=
  match fuel with
  | O => Some heap
  | S fuel' =>
      if 1 <? length heap then
        heap' ← merge_step heap;
        merge_loop fuel' heap'
      else Some heap
  end.

(** The tree built by [build_char_codes]: [None] when [n_used == 0]. *)
Definition build_tree (char_freq : list Z) : option Node :=
  let '(_, heap, n_used) := init_loop char_freq in
  if n_used =? 0 then None
  else
    heap' ← merge_loop (length heap) heap;
    '(root, _) ← heap_pop heap';
    Some root.

(** ** Code assignment *)

(** [StackFrame] *)
Record StackFrame : Type := mkFrame { f_n : Node; f_code : Z; f_len : Z }.

(** [stack[sp] = ...; sp++] on the array [StackFrame stack[MAX_CODE_LEN * 2]]. *)
Definition stack_push (fr : StackFrame) (stack : list StackFrame)
  : option (list StackFrame) :=
  if length stack <? MAX_CODE_LEN * 2 then Some (fr :: stack) else None.

(** [f.code << 1] on [unsigned long] *)
Definition shl1 (c : Z) : Z := (Z.shiftl c 1) mod ULONG_MODULUS.

(** Number of nodes of a tree: the traversal pops each node once. *)
Fixpoint node_count (t : Node) : nat :=
  match t with
  | Leaf _ _ => 1
  | Internal _ l r => S (node_count l + node_count r)
  end.

(** [while (sp > 0)]: the head of [stack] is [stack[sp - 1]]. *)
Fixpoint assign_loop (fuel : nat) (stack : list StackFrame)
    (char_codes : list CodeEntry) : option (list CodeEntry) :=
  match stack with
  | [] => Some char_codes
  | fr :: stack' =>
      match fuel with
      | O => None
      | S fuel' =>
          match f_n fr with
          | Leaf symbol _ =>
              assign_loop fuel' stack'
                (<[symbol := mkCodeEntry (f_code fr) (f_len fr)]> char_codes)
          | Internal _ l r =>
              stack1 ← stack_push
                  (mkFrame r (Z.lor (shl1 (f_code fr)) 1) (f_len fr + 1))
                  stack';
              stack2 ← stack_push
                  (mkFrame l (shl1 (f_code fr)) (f_len fr + 1)) stack1;
              assign_loop fuel' stack2 char_codes
          end
      end
  end.

(** [build_char_codes(freq)]: the resulting content of [char_codes].  The
    last loop of the function frees the tree and leaves [char_codes] alone. *)
Definition build_char_codes (char_freq : list Z) : option (list CodeEntry) :=
  let '(char_codes, heap, n_used) := init_loop char_freq in
  if n_used =? 0 then Some char_codes
  else
    heap' ← merge_loop (length heap) heap;
    '(root, _) ← heap_pop heap';
    assign_loop (node_count root) [mkFrame root 0 0] char_codes.

(** ** Encoding *)

Definition in_int_range (z : Z) : bool := ((INT_MIN <=? z) && (z <=? INT_MAX))%Z.

(** The loop of [encode_command]: [bits += char_codes[c].len]. *)
Fixpoint encode_loop (char_codes : list CodeEntry) (p : string) (bits : Z)
  : option Z :=
  match p with
  | EmptyString => Some bits
  | String ch p' =>
      if Ascii.eqb ch zero then Some bits
      else
        let c := nat_of_ascii ch in
        let bits' := (bits + len (char_codes !!! c))%Z in
        if in_int_range bits' then encode_loop char_codes p' bits' else None
  end.

(** [encode_command(cmd, &bits, &bytes)]: the pair [( *out_bits, *out_bytes )];
    the returned [int] equals the first component. *)
Definition encode_command (char_codes : list CodeEntry) (cmd : string)
  : option (Z * Z) :=
  bits ← encode_loop char_codes cmd 0%Z;
  if in_int_range (bits + 7) then Some (bits, Z.quot (bits + 7) 8) else None.

(** [print_char_code(c)]: the characters written, [true] for ['1'], from bit
    [len - 1] down to bit 0 of [code].  Bits at positions 64 and above, which
    a 64-bit [code] does not have, read as 0; the shift [code >> i] of C is
    defined for [i < 64], so for [len <= 64] these are the characters every
    build of the program writes. *)
Definition print_char_code (char_codes : list CodeEntry) (c : nat) : list bool :=
  let e := char_codes !!! c in
  map (fun i => Z.testbit (code e) (Z.of_nat i)) (rev (seq 0 (Z.to_nat (len e)))).


(** [print_command_bits(cmd)]: the concatenated codes of the characters. *)
Fixpoint print_command_bits (char_codes : list CodeEntry) (p : string)
  : list bool :=
  match p with
  | EmptyString => []
  | String ch p' =>
      if Ascii.eqb ch zero then []
      else print_char_code char_codes (nat_of_ascii ch)
             ++ print_command_bits char_codes p'
  end.

(** * Specification-level definitions *)

(** ** Heap order *)

(** [(i - 1) / 2] *)
Definition parent (i : nat) : nat := (i - 1) / 2.

(** Every live cell is at least as frequent as its parent cell. *)
Definition is_heap (h : list Node) : Prop :=
  ∀ j x y, 0 < j → h !! j = Some x → h !! parent j = Some y →
           (freq y ≤ freq x)%Z.

(** Loop invariant of [heap_up]: heap order holds except between cell [i]
    and its parent, and the children of [i] respect the parent of [i]. *)
Definition up_inv (h : list Node) (i : nat) : Prop :=
  (∀ j x y, 0 < j → j ≠ i → h !! j = Some x → h !! parent j = Some y →
            (freq y ≤ freq x)%Z) ∧
  (∀ j x y, 0 < i → 0 < j → parent j = i → h !! j = Some x →
            h !! parent i = Some y → (freq y ≤ freq x)%Z).

(** Loop invariant of [heap_down]: heap order holds except between cell [i]
    and its children, which respect the parent of [i]. *)
Definition down_inv (h : list Node) (i : nat) : Prop :=
  (∀ j x y, 0 < j → parent j ≠ i → h !! j = Some x → h !! parent j = Some y →
            (freq y ≤ freq x)%Z) ∧
  (∀ j x y, 0 < i → 0 < j → parent j = i → h !! j = Some x →
            h !! parent i = Some y → (freq y ≤ freq x)%Z).

(** ** Trees *)

(** The leaves of a tree, left to right, as (symbol, frequency). *)
Fixpoint leaves (t : Node) : list (nat * Z) :=
  match t with
  | Leaf s f => [(s, f)]
  | Internal _ l r => leaves l ++ leaves r
  end.

Fixpoint height (t : Node) : nat :=
  match t with
  | Leaf _ _ => 0
  | Internal _ l r => S (Nat.max (height l) (height r))
  end.

(** Sum of the leaf frequencies, without wrap-around. *)
Fixpoint weight (t : Node) : Z :=
  match t with
  | Leaf _ f => f
  | Internal _ l r => (weight l + weight r)%Z
  end.

(** Sum of [frequency * (d + depth)] over the leaves of [t]. *)
Fixpoint wpl (d : nat) (t : Node) : Z :=
  match t with
  | Leaf _ f => (f * Z.of_nat d)%Z
  | Internal _ l r => (wpl (S d) l + wpl (S d) r)%Z
  end.

(** The all-zero code table written by the first loop. *)
Definition zero_codes : list CodeEntry := replicate NUM_CHARS (mkCodeEntry 0 0).

(** The leaves pushed by the first loop of [build_char_codes], in push order. *)
Definition used_leaves (char_freq : list Z) : list Node :=
  (λ c, Leaf c (char_freq !!! c)) <$>
  filter (λ c, char_freq !!! c ≠ 0%Z) (seq 0 NUM_CHARS).

(** One round of the merge loop, up to the order of the heap cells: two
    least frequent trees are replaced by their parent. *)
Definition huff_step (F F' : list Node) : Prop :=
  ∃ a b R, F ≡ₚ a :: b :: R ∧
           (freq a ≤ freq b)%Z ∧ (∀ x, x ∈ R → (freq b ≤ freq x)%Z) ∧
           F' ≡ₚ Internal ((freq a + freq b) mod ULONG_MODULUS) a b :: R.

(** ** Code assignment *)

(** The traversal read recursively: the left child is pushed last, hence
    visited first. *)
Fixpoint assign_rec (t : Node) (c n : Z) (char_codes : list CodeEntry)
  : list CodeEntry :=
  match t with
  | Leaf s _ => <[s := mkCodeEntry c n]> char_codes
  | Internal _ l r =>
      assign_rec r (Z.lor (shl1 c) 1) (n + 1)
        (assign_rec l (shl1 c) (n + 1) char_codes)
  end.

(** The traversal of [t] stays inside [stack] when [k] frames lie below the
    frame of [t]. *)
Fixpoint stack_ok (k : nat) (t : Node) : Prop :=
  match t with
  | Leaf _ _ => True
  | Internal _ l r =>
      k + 2 ≤ MAX_CODE_LEN * 2 ∧ stack_ok (k + 1) l ∧ stack_ok k r
  end.

(** Root-to-leaf paths: [false] is a left edge, [true] a right edge. *)
Fixpoint leaf_paths (t : Node) : list (nat * list bool) :=
  match t with
  | Leaf s _ => [(s, [])]
  | Internal _ l r =>
      ((λ sp, (sp.1, false :: sp.2)) <$> leaf_paths l) ++
      ((λ sp, (sp.1, true :: sp.2)) <$> leaf_paths r)
  end.

(** The code value after one more edge, as the traversal computes it. *)
Definition code_step (c : Z) (b : bool) : Z :=
  if b then Z.lor (shl1 c) 1 else shl1 c.

Definition path_code (c : Z) (p : list bool) : Z := foldl code_step c p.

(** The number a bit string denotes, most significant bit first. *)
Definition bits_val_from (v : Z) (p : list bool) : Z :=
  foldl (λ v b, 2 * v + Z.b2z b)%Z v p.

Definition bits_val (p : list bool) : Z := bits_val_from 0 p.

(** Writing a list of (symbol, entry) pairs into the table, in order. *)
Definition write_codes (kvs : list (nat * CodeEntry))
    (char_codes : list CodeEntry) : list CodeEntry :=
  foldl (λ tb kv, <[kv.1 := kv.2]> tb) char_codes kvs.

(** The entry the traversal records for a leaf reached by path [p]. *)
Definition path_entry (p : list bool) : CodeEntry :=
  mkCodeEntry (bits_val p mod ULONG_MODULUS) (Z.of_nat (length p)).

(** ** Properties of code tables *)

(** No assigned code, read as the bit string [print_char_code] writes, is a
    prefix of the code of another symbol. *)
Definition prefix_free (char_codes : list CodeEntry) : Prop :=
  ∀ c1 c2, c1 < NUM_CHARS → c2 < NUM_CHARS → c1 ≠ c2 →
    (0 < len (char_codes !!! c1))%Z → (0 < len (char_codes !!! c2))%Z →
    ¬ print_char_code char_codes c1 `prefix_of` print_char_code char_codes c2.

(** Every code fits the 64-bit [code] field: the tree, if any, is no deeper
    than [MAX_CODE_LEN]. *)
Definition code_width_ok (char_freq : list Z) : Prop :=
  ∀ root, build_tree char_freq = Some root → height root ≤ MAX_CODE_LEN.

(** ** Strings *)

(** The characters of a C string: the bytes before the first NUL. *)
Fixpoint cmd_chars (p : string) : list nat :=
  match p with
  | EmptyString => []
  | String ch p' =>
      if Ascii.eqb ch zero then [] else nat_of_ascii ch :: cmd_chars p'
  end.

(** Sum of the code lengths of a list of characters. *)
Definition sum_lens (char_codes : list CodeEntry) (cs : list nat) : Z :=
  foldr (λ c acc, len (char_codes !!! c) + acc)%Z 0%Z cs.

(** ** Concrete frequency tables *)

(** [n] numbers of a Fibonacci-like sequence. *)
Fixpoint fibs (n : nat) (a b : Z) : list Z :=
  match n with
  | O => []
  | S n' => a :: fibs n' b (a + b)%Z
  end.

(** Symbols 0..65 with frequencies 1, 1, 2, 3, 5, ...; all other symbols
    absent.  The frequencies sum to 72723460248140. *)
Definition fib_freq : list Z := fibs 66 1 1 ++ replicate (NUM_CHARS - 66) 0%Z.

(** The counts of ["aab"; "abc"]. *)
Definition abc_freq : list Z :=
  <[97 := 3%Z]> (<[98 := 2%Z]> (<[99 := 1%Z]> (replicate NUM_CHARS 0%Z))).

(** A single symbol ['a'] seen three times. *)
Definition single_freq : list Z := <[97 := 3%Z]> (replicate NUM_CHARS 0%Z).

(** Four symbols, each seen [2^63] times. *)
Definition wrap_freq : list Z :=
  replicate 4 (2 ^ 63)%Z ++ replicate (NUM_CHARS - 4) 0%Z.

(** The textbook example a:5 b:9 c:12 d:13 e:16 f:45. *)
Definition textbook_freq : list Z :=
  <[97 := 5%Z]> (<[98 := 9%Z]> (<[99 := 12%Z]> (<[100 := 13%Z]>
    (<[101 := 16%Z]> (<[102 := 45%Z]> (replicate NUM_CHARS 0%Z)))))).

(** The tree [build_char_codes] builds for [fib_freq]: a chain in which
    every internal node has a leaf as left child. *)
Definition fib_tree : Node :=
  foldl (λ t cf, Internal (cf.2 + freq t) (Leaf cf.1 cf.2) t)
        (Internal 2 (Leaf 0 1) (Leaf 1 1))
        (zip (seq 2 64) (drop 2 (fibs 66 1 1))).

(** ** Kraft sums and costs *)

Definition pow2 (n : nat) : Z := (2 ^ Z.of_nat n)%Z.

(** [2^M] times the Kraft sum of the lengths [ls] (all at most [M]). *)
Definition ksum (M : nat) (ls : list nat) : Z :=
  foldr (λ l acc, pow2 (M - l) + acc)%Z 0%Z ls.

(** Kraft's inequality: the sum of [2^-l] over the lengths is at most 1. *)
Definition kraft (ls : list nat) : Prop :=
  (ksum (max_list ls) ls ≤ pow2 (max_list ls))%Z.

(** Total of weight times length over a list of (weight, length) pairs. *)
Definition cost (P : list (Z * nat)) : Z :=
  foldr (λ wl acc, wl.1 * Z.of_nat wl.2 + acc)%Z 0%Z P.

(** No word is a prefix of a later or earlier word of the list. *)
Fixpoint prefix_code (ws : list (list bool)) : Prop :=
  match ws with
  | [] => True
  | w :: ws' =>
      (∀ v, v ∈ ws' → ¬ w `prefix_of` v ∧ ¬ v `prefix_of` w) ∧ prefix_code ws'
  end.

(** The tails of the words that start with bit [b]. *)
Definition tails_of (b : bool) (ws : list (list bool)) : list (list bool) :=
  omap (λ w, match w with
             | b' :: t => if bool_decide (b' = b) then Some t else None
             | [] => None
             end) ws.

(** ** Forests of the merge loop *)

(** Leaf frequencies are positive and every stored internal frequency is the
    exact sum of the frequencies of the two children. *)
Fixpoint tree_ok (t : Node) : Prop :=
  match t with
  | Leaf _ f => (0 < f)%Z
  | Internal f l r => f = (freq l + freq r)%Z ∧ tree_ok l ∧ tree_ok r
  end.

(** Sum of [f x] over a list. *)
Definition lsum {A} (f : A → Z) (l : list A) : Z :=
  foldr (λ x acc, f x + acc)%Z 0%Z l.

Definition forest_ok (W : Z) (F : list Node) : Prop :=
  Forall tree_ok F ∧ lsum weight F = W.

(** Cost of hanging each tree [t] of a forest at depth [l]. *)
Definition forest_cost (P : list (Node * nat)) : Z :=
  lsum (λ tl, wpl tl.2 tl.1) P.

(** Some Kraft-valid choice of depths for the trees of [F] costs at most
    [K]. *)
Definition opt_inv (K : Z) (F : list Node) : Prop :=
  ∃ P : list (Node * nat),
    P.*1 ≡ₚ F ∧ kraft P.*2 ∧ (forest_cost P ≤ K)%Z.

(** The larger child frequency of an internal node. *)
Definition kid_max (t : Node) : Z :=
  match t with
  | Leaf _ _ => 0%Z
  | Internal _ l r => Z.max (freq l) (freq r)
  end.

(** No child of a node is more frequent than the sibling of the node. *)
Fixpoint sibling_ok (t : Node) : Prop :=
  match t with
  | Leaf _ _ => True
  | Internal _ l r =>
      sibling_ok l ∧ sibling_ok r ∧
      (kid_max l ≤ freq r)%Z ∧ (kid_max r ≤ freq l)%Z
  end.

Definition fib_inv (F : list Node) : Prop :=
  ∃ m, ∀ t, t ∈ F → (m ≤ freq t)%Z ∧ (kid_max t ≤ m)%Z ∧ sibling_ok t.

(** Least frequency of a tree of height [h]: 1, 2, 3, 5, 8, ...; computed
    as a pair of consecutive values. *)
Definition fib_lb (h : nat) : Z :=
  (Nat.iter h (λ p : Z * Z, (p.2, (p.1 + p.2)%Z)) (1%Z, 2%Z)).1.

(** ** Optimality *)

(** Total encoded size of the counted input: frequency times code length,
    summed over all symbols. *)
Definition total_bits (char_freq : list Z) (lens : nat → Z) : Z :=
  lsum (λ c, char_freq !!! c * lens c)%Z (seq 0 NUM_CHARS).

(** [g] assigns prefix-free code words to the symbols of nonzero
    frequency. *)
Definition prefix_free_assignment (char_freq : list Z) (g : nat → list bool)
  : Prop :=
  ∀ c1 c2, c1 < NUM_CHARS → c2 < NUM_CHARS → c1 ≠ c2 →
    char_freq !!! c1 ≠ 0%Z → char_freq !!! c2 ≠ 0%Z →
    ¬ g c1 `prefix_of` g c2.

(** A table of 256 non-negative counts whose total is below [2^64]: no
    frequency sum of the merge loop wraps around. *)
Definition no_wrap (char_freq : list Z) : Prop :=
  length char_freq = NUM_CHARS ∧
  Forall (λ f, (0 ≤ f)%Z) char_freq ∧
  (lsum id char_freq < ULONG_MODULUS)%Z.

(** At least two symbols have a nonzero frequency. *)
Definition two_used (char_freq : list Z) : Prop :=
  ∃ c1 c2, c1 < NUM_CHARS ∧ c2 < NUM_CHARS ∧ c1 ≠ c2 ∧
           char_freq !!! c1 ≠ 0%Z ∧ char_freq !!! c2 ≠ 0%Z.

(** The path to symbol [c] in a tree ([[]] when [c] is not a leaf). *)
Definition path_of (t : Node) (c : nat) : list bool :=
  match list_find (λ sp, sp.1 = c) (leaf_paths t) with
  | Some (_, (_, p)) => p
  | None => []
  end.

(** The balanced code on symbols 0..3. *)
Definition balanced4 (c : nat) : list bool :=
  match c with
  | 0 => [false; false]
  | 1 => [false; true]
  | 2 => [true; false]
  | 3 => [true; true]
  | _ => []
  end.

(** ** The command table of the program *)

(** [COMMANDS[]] *)
Definition COMMANDS : list string :=
  ["Pltog"; "Plstat"; "Plmode"; "Pltarg"; "Plkwlm"; "Plinit"; "Pltqcm";
   "Plclmp"; "LcKp"; "lcKi"; "lcKd"; "lcpid"; "lcSRT"; "lcLcTog";
   "lcCSR"; "lcCVD"; "lcTVD"; "lcLTq"; "lcITq"; "lck"; "lcMTq";
   "lcPTq"; "lcUF"; "lcmode"; "lcSt"; "lcPh"; "efTog"; "efEBk";
   "efLpCt"; "efCOk"; "efTS_s"; "efTC_s"; "efESk"; "efESs"; "efLEk";
   "efTLk"; "efFLp"; "rgRgTog"; "rgMd"; "rgApTq"; "rgBTN"; "rgRTq";
   "rgTLD"; "rgTZPD"; "rgPBM"; "rgPAC"; "rgPdMu"; "rgTk"]%string.

Definition NUM_COMMANDS : nat := length COMMANDS.

(** The pipeline of [main]: count, build, then encode every command. *)
Definition main_results : option (list (Z * Z)) :=
  char_codes ← build_char_codes (count_char_freq COMMANDS);
  mapM (encode_command char_codes) COMMANDS.

(** * Further parts of the program *)

(** ** Freeing the tree *)

(** [stk[stksp++] = t] on the array [Node *stk[MAX_HEAP]]. *)
Definition stk_push (t : Node) (stk : list Node) : option (list Node) :=
  if length stk <? MAX_HEAP then Some (t :: stk) else None.

(** The last loop of [build_char_codes], [while (stksp > 0)]: the head of
    [stk] is [stk[stksp - 1]]; the result lists the nodes passed to [free],
    the latest first.  A leaf has no child to push. *)
Fixpoint free_loop (fuel : nat) (stk freed : list Node)
  : option (list Node) :=
  match stk with
  | [] => Some freed
  | t :: stk' =>
      match fuel with
      | O => None
      | S fuel' =>
          match t with
          | Leaf _ _ => free_loop fuel' stk' (t :: freed)
          | Internal _ l r =>
              stk1 ← stk_push l stk';
              stk2 ← stk_push r stk1;
              free_loop fuel' stk2 (t :: freed)
          end
      end
  end.

(** ** The reporting loop of [main] *)

(** The accumulators of [main]: [total_bits], [max_bits], [min_bits], and the
    OK/OVER verdict printed for each command ([true] for OK). *)
Record MainStats : Type :=
  mkStats { st_total : Z; st_max : Z; st_min : Z; st_ok : list bool }.

(** [total_bits = 0, max_bits = 0, min_bits = 999999] *)
Definition stats0 : MainStats := mkStats 0 0 999999 [].

(** One round of the last [for] loop of [main]. *)
Definition main_step (char_codes : list CodeEntry) (st : MainStats)
    (cmd : string) : option MainStats :=
  '(bits, _) ← encode_command char_codes cmd;
  let total := (st_total st + bits)%Z in
  if in_int_range total then
    Some (mkStats total
            (if (st_max st <? bits)%Z then bits else st_max st)
            (if (bits <? st_min st)%Z then bits else st_min st)
            (st_ok st ++ [(bits <=? TARGET_BITS)%Z]))
  else None.

Fixpoint main_loop (char_codes : list CodeEntry) (commands : list string)
    (st : MainStats) : option MainStats :=
  match commands with
  | [] => Some st
  | cmd :: commands' =>
      st' ← main_step char_codes st cmd;
      main_loop char_codes commands' st'
  end.

(** [main], with the command array as an argument: the final accumulators. *)
Definition main (commands : list string) : option MainStats :=
  char_codes ← build_char_codes (count_char_freq commands);
  main_loop char_codes commands stats0.

(** The rows of the character table printed by [main]: one for every index
    whose [len] is not 0, with the bits [print_char_code] writes. *)
Definition code_table_rows (char_codes : list CodeEntry)
  : list (nat * list bool * Z) :=
  (λ i, (i, print_char_code char_codes i, len (char_codes !!! i))) <$>
  filter (λ i, len (char_codes !!! i) ≠ 0%Z) (seq 0 NUM_CHARS).

(** * Definitions for further properties *)

(** How often the character [c] occurs in a list of characters. *)
Definition occurrences (c : nat) (cs : list nat) : nat :=
  length (filter (λ x, x = c) cs).

(** The characters of all commands, in order. *)
Definition all_chars (commands : list string) : list nat :=
  commands ≫= cmd_chars.

(** All nodes of a tree. *)
Fixpoint nodes (t : Node) : list Node :=
  match t with
  | Leaf _ _ => [t]
  | Internal _ l r => t :: nodes l ++ nodes r
  end.

(** [in_use char_freq c]: the character has a nonzero frequency. *)
Definition in_use (char_freq : list Z) (c : nat) : Prop :=
  c < NUM_CHARS ∧ char_freq !!! c ≠ 0%Z.

(** The largest number of characters whose codes of at most 255 bits, plus
    7, still fit in an [int]. *)
Definition MAX_CMD_CHARS : Z := 8421504%Z.

(** A heap built by three pushes. *)
Definition heap3 : list Node :=
  heap_push (Leaf 99 2) (heap_push (Leaf 97 5) (heap_push (Leaf 98 7) [])).

(** The tree built for [textbook_freq]. *)
Definition textbook_tree : Node :=
  default (Leaf 0 0) (build_tree textbook_freq).

(** [2^255] times the Kraft sum of a code table: the sum of
    [2^(255 - len)] over the characters in use. *)
Definition kraft_total (char_freq : list Z) (char_codes : list CodeEntry) : Z :=
  lsum (λ c, 2 ^ (255 - len (char_codes !!! c)))%Z
       (filter (λ c, char_freq !!! c ≠ 0%Z) (seq 0 NUM_CHARS)).

(** The table built for [abc_freq] and for [textbook_freq]. *)
Definition abc_codes : list CodeEntry :=
  default [] (build_char_codes abc_freq).

Definition textbook_codes : list CodeEntry :=
  default [] (build_char_codes textbook_freq).

(** The order in which the last loop of [build_char_codes] frees the nodes:
    a node, then its right subtree, then its left subtree. *)
Fixpoint free_order (t : Node) : list Node :=
  match t with
  | Leaf _ _ => [t]
  | Internal _ l r => t :: free_order r ++ free_order l
  end.

(** The accumulators of the reporting loop run on two commands with the
    table of [abc_freq]. *)
Definition abc_stats : MainStats :=
  default stats0 (main_loop abc_codes ["aab"; "abc"]%string stats0).

(** The fixed-length code: the eight bits of the character. *)
Definition fixed8 (c : nat) : list bool :=
  (λ i, Nat.testbit c i) <$> seq 0 8.

(** The accumulators [main] ends with for two commands. *)
Definition aab_abc_stats : MainStats :=
  default stats0 (main ["aab"; "abc"]%string).

(** Two tables outside the range of [build_char_codes]: a negative length,
    and a length of [INT_MAX], for the character ['a']. *)
Definition neg_codes : list CodeEntry :=
  <[97 := mkCodeEntry 0 (-9)]> zero_codes.

Definition big_codes : list CodeEntry :=
  <[97 := mkCodeEntry 0 INT_MAX]> zero_codes.

(** * The heap *)

Section heap_index.

Lemma parent_lt j : 0 < j → parent j < j.
Proof. unfold parent. lia. Qed.

Lemma parent_children j i :
  0 < j → (parent j = i ↔ j = 2 * i + 1 ∨ j = 2 * i + 2).
Proof. unfold parent. lia. Qed.

End heap_index.

Section heap_swap_facts.

Lemma heap_swap_lookup h i j a b k :
  h !! i = Some a → h !! j = Some b →
  heap_swap i j h !! k =
    if decide (k = j) then Some a else if decide (k = i) then Some b else h !! k.
Proof.
  intros Hi Hj. unfold heap_swap. rewrite Hi, Hj.
  pose proof (lookup_lt_Some _ _ _ Hi). pose proof (lookup_lt_Some _ _ _ Hj).
  destruct (decide (k = j)) as [->|Hkj].
  - rewrite list_lookup_insert_eq; [done|]. by rewrite length_insert.
  - rewrite list_lookup_insert_ne by done.
    destruct (decide (k = i)) as [->|Hki].
    + by rewrite list_lookup_insert_eq.
    + by rewrite list_lookup_insert_ne.
Qed.

Lemma heap_swap_length h i j : length (heap_swap i j h) = length h.
Proof.
  unfold heap_swap. destruct (h !! i), (h !! j); try done.
  by rewrite !length_insert.
Qed.

Lemma heap_swap_perm h i j : heap_swap i j h ≡ₚ h.
Proof.
  unfold heap_swap.
  destruct (h !! i) eqn:Hi, (h !! j) eqn:Hj; try done.
  by apply Permutation_insert_swap.
Qed.

End heap_swap_facts.

Section heap_up_facts.

Lemma heap_up_loop_perm fuel : ∀ i h, heap_up_loop fuel i h ≡ₚ h.
Proof.
  induction fuel as [|fuel IH]; intros i h; cbn [heap_up_loop]; [done|].
  destruct (0 <? i); [|done].
  destruct (freq_le_at h ((i - 1) / 2) i); [done|].
  etrans; [apply IH|apply heap_swap_perm].
Qed.

Lemma is_heap_of_up_inv_0 h : up_inv h 0 → is_heap h.
Proof. intros [H1 _] j x y Hj. apply H1; [done|lia]. Qed.

Lemma up_inv_swap h i a b :
  0 < i → h !! parent i = Some a → h !! i = Some b →
  (freq b < freq a)%Z →
  up_inv h i → up_inv (heap_swap (parent i) i h) (parent i).
Proof.
  intros Hi Ha Hb Hlt [H1 H2].
  pose proof (parent_lt i Hi) as Hpi.
  split.
  - intros j x y Hj Hne.
    rewrite !(heap_swap_lookup h (parent i) i a b) by done.
    pose proof (parent_lt j Hj) as Hpj.
    destruct (decide (j = i)) as [->|Hji].
    + rewrite decide_False, decide_True by lia. intros; simplify_eq. lia.
    + rewrite (decide_False (P := j = parent i)) by done.
      intros Hx.
      destruct (decide (parent j = i)) as [Hpji|Hpji].
      * intros Hy; simplify_eq. eapply (H2 j); eauto.
      * destruct (decide (parent j = parent i)) as [Hpjp|Hpjp].
        -- intros Hy; simplify_eq.
           assert (freq a ≤ freq x)%Z; [|lia].
           eapply (H1 j); eauto. by rewrite Hpjp.
        -- intros Hy. eapply (H1 j); eauto.
  - intros j x y Hp Hj Hpj.
    rewrite !(heap_swap_lookup h (parent i) i a b) by done.
    pose proof (parent_lt _ Hp) as Hpp.
    rewrite (decide_False (P := parent (parent i) = i)) by lia.
    rewrite (decide_False (P := parent (parent i) = parent i)) by lia.
    destruct (decide (j = i)) as [->|Hji].
    + intros; simplify_eq. eapply (H1 (parent i)); eauto; lia.
    + rewrite decide_False by (pose proof (parent_lt j Hj); lia).
      intros Hx Hy.
      assert (freq a ≤ freq x)%Z.
      { eapply (H1 j); eauto. by rewrite Hpj. }
      assert (freq y ≤ freq a)%Z; [|lia].
      eapply (H1 (parent i)); eauto; lia.
Qed.

Lemma heap_up_loop_heap fuel :
  ∀ i h, i ≤ fuel → up_inv h i → is_heap (heap_up_loop fuel i h).
Proof.
  induction fuel as [|fuel IH]; intros i h Hle Hinv; cbn [heap_up_loop].
  { assert (i = 0) as -> by lia. by apply is_heap_of_up_inv_0. }
  destruct (0 <? i) eqn:Hi0; [|apply Nat.ltb_ge in Hi0;
    assert (i = 0) as -> by lia; by apply is_heap_of_up_inv_0].
  apply Nat.ltb_lt in Hi0.
  change ((i - 1) / 2) with (parent i). unfold freq_le_at.
  destruct (h !! parent i) as [a|] eqn:Ha, (h !! i) as [b|] eqn:Hb.
  - destruct (freq a <=? freq b)%Z eqn:Hcmp.
    + apply Z.leb_le in Hcmp. intros j x y Hj Hx Hy.
      destruct (decide (j = i)) as [->|Hji]; [by simplify_eq|].
      by apply (proj1 Hinv j).
    + apply Z.leb_gt in Hcmp. apply IH.
      * pose proof (parent_lt i Hi0). lia.
      * by eapply up_inv_swap.
  - intros j x y Hj Hx Hy.
    destruct (decide (j = i)) as [->|Hji]; [by simplify_eq|].
    by apply (proj1 Hinv j).
  - intros j x y Hj Hx Hy.
    destruct (decide (j = i)) as [->|Hji]; [by simplify_eq|].
    by apply (proj1 Hinv j).
  - intros j x y Hj Hx Hy.
    destruct (decide (j = i)) as [->|Hji]; [by simplify_eq|].
    by apply (proj1 Hinv j).
Qed.

Lemma heap_push_perm n h : heap_push n h ≡ₚ n :: h.
Proof.
  unfold heap_push, heap_up. rewrite heap_up_loop_perm.
  by rewrite Permutation_app_comm.
Qed.

Lemma heap_push_length n h : length (heap_push n h) = S (length h).
Proof. by rewrite heap_push_perm. Qed.

Lemma heap_push_heap n h : is_heap h → is_heap (heap_push n h).
Proof.
  intros Hh. unfold heap_push, heap_up. apply heap_up_loop_heap; [done|].
  split.
  - intros j x y Hj Hne Hx Hy.
    assert (j < length h).
    { apply lookup_lt_Some in Hx. rewrite length_app in Hx. simpl in Hx. lia. }
    pose proof (parent_lt j Hj).
    rewrite lookup_app_l in Hx, Hy by lia. by apply (Hh j).
  - intros j x y Hi Hj Hpj Hx.
    apply lookup_lt_Some in Hx. rewrite length_app in Hx. simpl in Hx.
    apply parent_children in Hpj; lia.
Qed.

(** More fuel than the index never changes [heap_up]. *)
Lemma heap_up_loop_fuel2 f1 : ∀ f2 i h,
  i ≤ f1 → i ≤ f2 → heap_up_loop f1 i h = heap_up_loop f2 i h.
Proof.
  induction f1 as [|f1 IH]; intros f2 i h H1 H2.
  { assert (i = 0) as -> by lia. by destruct f2. }
  destruct f2 as [|f2].
  { by assert (i = 0) as -> by lia. }
  cbn [heap_up_loop]. destruct (0 <? i) eqn:Hi; [|done].
  apply Nat.ltb_lt in Hi.
  destruct (freq_le_at h ((i - 1) / 2) i); [done|].
  pose proof (parent_lt i Hi). unfold parent in *. apply IH; lia.
Qed.

Lemma heap_up_loop_fuel fuel i h :
  i ≤ fuel → heap_up_loop fuel i h = heap_up i h.
Proof. intros. by apply heap_up_loop_fuel2. Qed.

End heap_up_facts.

Section heap_down_facts.

Lemma heap_down_loop_perm fuel : ∀ i h, heap_down_loop fuel i h ≡ₚ h.
Proof.
  induction fuel as [|fuel IH]; intros i h; cbn [heap_down_loop]; [done|].
  cbv zeta. destruct (_ =? i); [done|].
  etrans; [apply IH|apply heap_swap_perm].
Qed.

(** What the two comparisons of one [heap_down] round establish. *)
Lemma smallest_spec h i :
  let l := 2 * i + 1 in
  let r := 2 * i + 2 in
  let s1 := if (l <? length h) && freq_lt_at h l i then l else i in
  let s2 := if (r <? length h) && freq_lt_at h r s1 then r else s1 in
  (s2 = i ∧
   ∀ j x y, 0 < j → parent j = i → h !! j = Some x → h !! i = Some y →
            (freq y ≤ freq x)%Z) ∨
  (0 < s2 ∧ parent s2 = i ∧
   ∃ a b, h !! i = Some a ∧ h !! s2 = Some b ∧ (freq b < freq a)%Z ∧
          ∀ j x, 0 < j → parent j = i → h !! j = Some x →
                 (freq b ≤ freq x)%Z).
Proof.
  intros l r s1 s2. subst s1 s2. unfold freq_lt_at.
  assert (Hkids : ∀ j, 0 < j → parent j = i → j = l ∨ j = r).
  { intros j Hj Hp. apply parent_children in Hp; [|done]. subst l r. lia. }
  assert (Hpl : parent l = i) by (apply parent_children; subst l; lia).
  assert (Hpr : parent r = i) by (apply parent_children; subst r; lia).
  destruct (h !! i) as [a|] eqn:Ha; cycle 1.
  { (* cell [i] is not live: no child is live either *)
    left. destruct (h !! l); rewrite andb_false_r; rewrite Ha;
      destruct (h !! r); rewrite andb_false_r;
      (split; [done|intros; simplify_eq]). }
  destruct (h !! l) as [xl|] eqn:Hl; cycle 1.
  { rewrite andb_false_r.
    destruct (h !! r) as [xr|] eqn:Hr.
    - apply lookup_lt_Some in Hr. apply lookup_ge_None in Hl. subst l r. lia.
    - rewrite andb_false_r. left. split; [done|].
      intros j x y Hj Hp Hx Hy.
      destruct (Hkids j Hj Hp); simplify_eq. }
  pose proof (lookup_lt_Some _ _ _ Hl) as Hll.
  apply Nat.ltb_lt in Hll as Hllb. rewrite Hllb. simpl.
  destruct (freq xl <? freq a)%Z eqn:Hcl.
  - apply Z.ltb_lt in Hcl. rewrite Hl.
    destruct (h !! r) as [xr|] eqn:Hr.
    + pose proof (lookup_lt_Some _ _ _ Hr) as Hrl.
      apply Nat.ltb_lt in Hrl as Hrlb. rewrite Hrlb. simpl.
      destruct (freq xr <? freq xl)%Z eqn:Hcr.
      * apply Z.ltb_lt in Hcr. right.
        split; [subst r; lia|]. split; [done|].
        exists a, xr. split_and!; [done|done|lia|].
        intros j x Hj Hp Hx. destruct (Hkids j Hj Hp); simplify_eq; lia.
      * apply Z.ltb_ge in Hcr. right.
        split; [subst l; lia|]. split; [done|].
        exists a, xl. split_and!; [done|done|lia|].
        intros j x Hj Hp Hx. destruct (Hkids j Hj Hp); simplify_eq; lia.
    + rewrite andb_false_r. right.
      split; [subst l; lia|]. split; [done|].
      exists a, xl. split_and!; [done|done|lia|].
      intros j x Hj Hp Hx. destruct (Hkids j Hj Hp); simplify_eq; lia.
  - apply Z.ltb_ge in Hcl. rewrite Ha.
    destruct (h !! r) as [xr|] eqn:Hr.
    + pose proof (lookup_lt_Some _ _ _ Hr) as Hrl.
      apply Nat.ltb_lt in Hrl as Hrlb. rewrite Hrlb. simpl.
      destruct (freq xr <? freq a)%Z eqn:Hcr.
      * apply Z.ltb_lt in Hcr. right.
        split; [subst r; lia|]. split; [done|].
        exists a, xr. split_and!; [done|done|lia|].
        intros j x Hj Hp Hx. destruct (Hkids j Hj Hp); simplify_eq; lia.
      * apply Z.ltb_ge in Hcr. left. split; [done|].
        intros j x y Hj Hp Hx Hy.
        destruct (Hkids j Hj Hp); simplify_eq; lia.
    + rewrite andb_false_r. left. split; [done|].
      intros j x y Hj Hp Hx Hy.
      destruct (Hkids j Hj Hp); simplify_eq; lia.
Qed.

Lemma down_inv_swap h i s a b :
  0 < s → parent s = i → h !! i = Some a → h !! s = Some b →
  (freq b < freq a)%Z →
  (∀ j x, 0 < j → parent j = i → h !! j = Some x → (freq b ≤ freq x)%Z) →
  down_inv h i → down_inv (heap_swap i s h) s.
Proof.
  intros Hs Hps Ha Hb Hlt Hmin [H1 H2].
  pose proof (parent_lt s Hs) as Hlts.
  split.
  - intros j x y Hj Hne.
    rewrite !(heap_swap_lookup h i s a b) by done.
    pose proof (parent_lt j Hj) as Hpj.
    rewrite (decide_False (P := parent j = s)) by done.
    destruct (decide (j = s)) as [->|Hjs].
    + rewrite decide_True by done. intros; simplify_eq. lia.
    + destruct (decide (j = i)) as [->|Hji].
      * rewrite decide_False by lia.
        intros ? Hy; simplify_eq. eapply (H2 s); eauto; lia.
      * intros Hx. destruct (decide (parent j = i)) as [Hpji|Hpji].
        -- intros; simplify_eq. by eapply Hmin.
        -- intros Hy. by eapply (H1 j).
  - intros j x y _ Hj Hpj.
    rewrite !(heap_swap_lookup h i s a b) by done.
    pose proof (parent_lt j Hj) as Hltj.
    rewrite (decide_False (P := j = s)), (decide_False (P := j = i)) by lia.
    rewrite (decide_False (P := parent s = s)), decide_True by lia.
    intros Hx ?; simplify_eq. eapply (H1 j); eauto; lia.
Qed.

Lemma heap_down_loop_heap fuel :
  ∀ i h, length h ≤ fuel + i → down_inv h i →
         is_heap (heap_down_loop fuel i h).
Proof.
  induction fuel as [|fuel IH]; intros i h Hlen Hinv; cbn [heap_down_loop].
  { intros j x y Hj Hx Hy.
    destruct (decide (parent j = i)) as [Hp|Hp]; [|by apply (proj1 Hinv j)].
    apply lookup_lt_Some in Hx. pose proof (parent_lt j Hj). lia. }
  destruct (smallest_spec h i) as [[Hs Hle]|(Hs & Hp & a & b & Ha & Hb & Hlt & Hmin)];
    cbv zeta in *.
  - rewrite Hs, Nat.eqb_refl.
    intros j x y Hj Hx Hy.
    destruct (decide (parent j = i)) as [Hpj|Hpj]; [|by apply (proj1 Hinv j)].
    subst i. by eapply Hle.
  - pose proof (parent_lt _ Hs) as Hlts.
    destruct (_ =? i) eqn:Heq; [apply Nat.eqb_eq in Heq; lia|].
    apply IH; [rewrite heap_swap_length; lia|].
    by eapply down_inv_swap.
Qed.

Lemma root_min h t :
  is_heap h → h !! 0 = Some t →
  ∀ j x, h !! j = Some x → (freq t ≤ freq x)%Z.
Proof.
  intros Hh Ht j. induction (lt_wf j) as [j _ IH]. intros x Hx.
  destruct (decide (j = 0)) as [->|Hj]; [simplify_eq; lia|].
  pose proof (parent_lt j ltac:(lia)) as Hp.
  destruct (lookup_lt_is_Some_2 h (parent j)) as [y Hy].
  { apply lookup_lt_Some in Hx. lia. }
  pose proof (IH _ Hp _ Hy). pose proof (Hh j x y ltac:(lia) Hx Hy). lia.
Qed.

Lemma heap_pop_Some h :
  0 < length h → is_Some (heap_pop h).
Proof.
  intros Hl. unfold heap_pop.
  destruct h as [|t h]; [simpl in Hl; lia|]. simpl.
  destruct (last (t :: h)) eqn:E; [done|].
  by apply last_None in E.
Qed.

(** The two shapes of a successful pop. *)
Lemma heap_pop_shape h top h' :
  heap_pop h = Some (top, h') →
  (h = [top] ∧ h' = []) ∨
  (∃ rest bottom, h = top :: rest ++ [bottom] ∧
                  h' = heap_down 0 (bottom :: rest)).
Proof.
  unfold heap_pop. intros Hpop.
  destruct h as [|t rest]; [done|]. simpl in Hpop.
  destruct (last (t :: rest)) as [bottom|] eqn:Hlast; [|done].
  apply last_Some in Hlast as [pre Hpre].
  destruct pre as [|t' pre]; simpl in Hpre; simplify_eq.
  - by left.
  - right. exists pre, bottom.
    rewrite length_app, Nat.add_1_r, Nat.sub_0_r.
    rewrite firstn_cons, take_app_length. done.
Qed.

Lemma heap_pop_spec h top h' :
  heap_pop h = Some (top, h') →
  h ≡ₚ top :: h' ∧
  (is_heap h → is_heap h' ∧ ∀ x, x ∈ h' → (freq top ≤ freq x)%Z).
Proof.
  intros Hpop.
  assert (Hperm : h ≡ₚ top :: h').
  { apply heap_pop_shape in Hpop as [[-> ->]|(rest & bottom & -> & ->)];
      [done|].
    constructor. unfold heap_down. rewrite heap_down_loop_perm.
    by rewrite Permutation_app_comm. }
  split; [done|]. intros Hh. split.
  - apply heap_pop_shape in Hpop as [[-> ->]|(rest & bottom & -> & ->)].
    { intros j x y ?. by rewrite lookup_nil. }
    unfold heap_down. apply heap_down_loop_heap; [lia|].
    split; [|intros; lia].
    intros j x y Hj Hpj Hx Hy.
    pose proof (parent_lt j Hj).
    assert (j < S (length rest)).
    { by apply lookup_lt_Some in Hx. }
    apply (Hh j); [done| |].
    + destruct j as [|j]; [lia|]. simpl in *.
      rewrite lookup_app_l; [done|lia].
    + destruct (parent j) as [|pj] eqn:Epj; [lia|]. simpl in *.
      rewrite lookup_app_l; [done|lia].
  - intros x Hx.
    assert (x ∈ h) as [k Hk]%list_elem_of_lookup.
    { rewrite Hperm. by right. }
    eapply (root_min h top); [done| |done].
    apply heap_pop_shape in Hpop as [[-> ->]|(rest & bottom & -> & ->)]; done.
Qed.

Lemma heap_pop_length h top h' :
  heap_pop h = Some (top, h') → length h = S (length h').
Proof. intros [Hp _]%heap_pop_spec. by rewrite Hp. Qed.

(** Fuel beyond [heap_size - i] never changes [heap_down]. *)
Lemma heap_down_loop_fuel2 f1 : ∀ f2 i h,
  length h ≤ f1 + i → length h ≤ f2 + i →
  heap_down_loop f1 i h = heap_down_loop f2 i h.
Proof.
  induction f1 as [|f1 IH]; intros f2 i h H1 H2.
  - destruct f2 as [|f2]; [done|]. cbn [heap_down_loop]. cbv zeta.
    destruct (smallest_spec h i) as [[-> _]|(Hs & Hp & a & b & Ha & Hb & _)];
      cbv zeta in *; [by rewrite Nat.eqb_refl|].
    apply lookup_lt_Some in Hb. pose proof (parent_lt _ Hs).
    apply lookup_lt_Some in Ha. lia.
  - destruct f2 as [|f2].
    + cbn [heap_down_loop]. cbv zeta.
      destruct (smallest_spec h i) as [[-> _]|(Hs & Hp & a & b & Ha & Hb & _)];
        cbv zeta in *; [by rewrite Nat.eqb_refl|].
      apply lookup_lt_Some in Hb. pose proof (parent_lt _ Hs).
      apply lookup_lt_Some in Ha. lia.
    + cbn [heap_down_loop]. cbv zeta.
      destruct (smallest_spec h i) as [[-> _]|(Hs & Hp & a & b & Ha & Hb & _)];
        cbv zeta in *; [by rewrite Nat.eqb_refl|].
      pose proof (parent_lt _ Hs).
      destruct (_ =? i); [done|].
      apply IH; rewrite heap_swap_length; lia.
Qed.

End heap_down_facts.

(** * Tree construction *)

Section init_loop_facts.
Context (char_freq : list Z).

Lemma zero_codes_insert c : <[c := mkCodeEntry 0 0]> zero_codes = zero_codes.
Proof.
  destruct (decide (c < NUM_CHARS)) as [Hc|Hc].
  - apply list_insert_id. unfold zero_codes. by apply lookup_replicate_2.
  - apply list_insert_ge. unfold zero_codes. rewrite length_replicate. lia.
Qed.

Lemma init_fold cs : ∀ heap n,
  is_heap heap →
  ∃ heap',
    foldl (init_step char_freq) (zero_codes, heap, n) cs
      = (zero_codes, heap',
         n + length (filter (λ c, char_freq !!! c ≠ 0%Z) cs)) ∧
    is_heap heap' ∧
    heap' ≡ₚ heap ++
      ((λ c, Leaf c (char_freq !!! c)) <$>
         filter (λ c, char_freq !!! c ≠ 0%Z) cs).
Proof.
  induction cs as [|c cs IH]; intros heap n Hh; simpl.
  { exists heap. rewrite Nat.add_0_r, app_nil_r. done. }
  rewrite zero_codes_insert. rewrite filter_cons.
  destruct (Z.eqb_spec (char_freq !!! c) 0) as [E|E].
  - rewrite decide_False by (intros ?; done). apply IH, Hh.
  - rewrite decide_True by done.
    destruct (IH (heap_push (Leaf c (char_freq !!! c)) heap) (S n))
      as (heap' & -> & Hh' & Hp); [by apply heap_push_heap|].
    exists heap'. split; [f_equal; simpl; lia|]. split; [done|].
    rewrite Hp, heap_push_perm. simpl.
    by rewrite <-Permutation_middle.
Qed.

Lemma init_loop_spec :
  ∃ heap, init_loop char_freq
            = (zero_codes, heap, length (used_leaves char_freq)) ∧
          is_heap heap ∧ heap ≡ₚ used_leaves char_freq.
Proof.
  destruct (init_fold (seq 0 NUM_CHARS) [] 0) as (heap & E & Hh & Hp).
  { intros j x y _. by rewrite lookup_nil. }
  exists heap. unfold init_loop, used_leaves.
  fold zero_codes. rewrite E, length_fmap. done.
Qed.

End init_loop_facts.

Section merge_loop_facts.

Lemma merge_step_spec h :
  is_heap h → 2 ≤ length h →
  ∃ h', merge_step h = Some h' ∧ is_heap h' ∧ huff_step h h' ∧
        S (length h') = length h.
Proof.
  intros Hh Hlen. unfold merge_step.
  destruct (heap_pop_Some h) as [[a h1] Ha]; [lia|]. rewrite Ha. simpl.
  pose proof (heap_pop_length _ _ _ Ha) as Hl1.
  destruct (heap_pop_spec _ _ _ Ha) as [Hp1 Hs1].
  destruct (Hs1 Hh) as [Hh1 Hmin1].
  destruct (heap_pop_Some h1) as [[b h2] Hb]; [lia|]. rewrite Hb. simpl.
  pose proof (heap_pop_length _ _ _ Hb) as Hl2.
  destruct (heap_pop_spec _ _ _ Hb) as [Hp2 Hs2].
  destruct (Hs2 Hh1) as [Hh2 Hmin2].
  eexists. split; [done|]. split; [by apply heap_push_heap|].
  split; [|rewrite heap_push_length; lia].
  exists a, b, h2. split_and!.
  - by rewrite Hp1, Hp2.
  - apply Hmin1. rewrite Hp2. by left.
  - done.
  - apply heap_push_perm.
Qed.

(** Any property kept by [huff_step] holds of the single tree the merge
    loop leaves on the heap. *)
Lemma merge_loop_inv (Inv : list Node → Prop) :
  (∀ F F', Inv F → huff_step F F' → Inv F') →
  ∀ fuel h, is_heap h → 1 ≤ length h ≤ fuel → Inv h →
            ∃ root, merge_loop fuel h = Some [root] ∧ Inv [root].
Proof.
  intros Hstep. induction fuel as [|fuel IH]; intros h Hh Hlen Hinv; [lia|].
  cbn [merge_loop].
  destruct (1 <? length h) eqn:E.
  - apply Nat.ltb_lt in E.
    destruct (merge_step_spec h Hh) as (h' & -> & Hh' & Hs & Hl); [lia|].
    simpl. apply IH; [done|lia|by eapply Hstep].
  - apply Nat.ltb_ge in E.
    destruct h as [|root [|??]]; simpl in *; try lia. by exists root.
Qed.

Lemma heap_pop_singleton root : heap_pop [root] = Some (root, []).
Proof. done. Qed.

Lemma merge_step_length h h' :
  merge_step h = Some h' → S (length h') = length h.
Proof.
  unfold merge_step. intros E.
  destruct (heap_pop h) as [[a h1]|] eqn:Ha; [|done]. simpl in E.
  destruct (heap_pop h1) as [[b h2]|] eqn:Hb; [|done]. simpl in E.
  injection E as <-. rewrite heap_push_length.
  apply heap_pop_length in Ha, Hb. lia.
Qed.

(** Fuel beyond [heap_size] never changes the merge loop. *)
Lemma merge_loop_fuel f1 : ∀ f2 h,
  length h ≤ f1 → length h ≤ f2 → merge_loop f1 h = merge_loop f2 h.
Proof.
  induction f1 as [|f1 IH]; intros f2 h H1 H2.
  - destruct f2 as [|f2]; [done|]. cbn [merge_loop].
    destruct (1 <? length h) eqn:E; [apply Nat.ltb_lt in E; lia|done].
  - destruct f2 as [|f2]; cbn [merge_loop].
    + destruct (1 <? length h) eqn:E; [apply Nat.ltb_lt in E; lia|done].
    + destruct (1 <? length h); [|done].
      destruct (merge_step h) as [h'|] eqn:Hs; [|done]. simpl.
      apply merge_step_length in Hs. apply IH; lia.
Qed.

End merge_loop_facts.

Section build_tree_facts.
Context (char_freq : list Z).

Lemma build_tree_inv (Inv : list Node → Prop) :
  (∀ F F', F ≡ₚ F' → Inv F → Inv F') →
  (∀ F F', Inv F → huff_step F F' → Inv F') →
  used_leaves char_freq ≠ [] → Inv (used_leaves char_freq) →
  ∃ root, build_tree char_freq = Some root ∧ Inv [root].
Proof.
  intros Hperm Hstep Hne Hinv. unfold build_tree.
  destruct (init_loop_spec char_freq) as (heap & -> & Hh & Hp).
  destruct (length (used_leaves char_freq) =? 0) eqn:E.
  { apply Nat.eqb_eq in E. by destruct (used_leaves char_freq). }
  apply Nat.eqb_neq in E.
  destruct (merge_loop_inv Inv Hstep (length heap) heap)
    as (root & -> & Hroot); [done|rewrite Hp; lia| |].
  { eapply Hperm; [|done]. done. }
  simpl. by exists root.
Qed.

Lemma build_tree_None :
  build_tree char_freq = None ↔ used_leaves char_freq = [].
Proof.
  split.
  - intros Hb. destruct (decide (used_leaves char_freq = [])); [done|].
    destruct (build_tree_inv (λ _, True)) as (root & ? & _); try done.
    congruence.
  - intros E. unfold build_tree.
    destruct (init_loop_spec char_freq) as (heap & -> & _). by rewrite E.
Qed.

Lemma build_char_codes_tree :
  build_char_codes char_freq =
    match build_tree char_freq with
    | Some root =>
        assign_loop (node_count root) [mkFrame root 0 0] zero_codes
    | None => Some zero_codes
    end.
Proof.
  destruct (build_tree char_freq) as [root|] eqn:Hb.
  - revert Hb. unfold build_tree, build_char_codes.
    destruct (init_loop_spec char_freq) as (heap & -> & _).
    destruct (_ =? 0); [done|].
    destruct (merge_loop _ _) as [heap'|]; [|done]. simpl.
    destruct (heap_pop heap') as [[r ?]|]; [|done]. simpl. by intros [= ->].
  - apply build_tree_None in Hb. unfold build_char_codes.
    destruct (init_loop_spec char_freq) as (heap & -> & _). by rewrite Hb.
Qed.

End build_tree_facts.

(** * Code assignment *)

Section traversal.

Lemma stack_ok_height t : ∀ k,
  k + height t < MAX_CODE_LEN * 2 → stack_ok k t.
Proof.
  unfold MAX_CODE_LEN.
  induction t as [s f|f l IHl r IHr]; intros k Hk; simpl in *; [done|].
  split_and!; [lia|apply IHl; lia|apply IHr; lia].
Qed.

(** The explicit stack computes the recursive traversal. *)
Lemma assign_loop_frame t : ∀ fuel c n stack char_codes,
  stack_ok (length stack) t → node_count t ≤ fuel →
  assign_loop fuel (mkFrame t c n :: stack) char_codes =
  assign_loop (fuel - node_count t) stack (assign_rec t c n char_codes).
Proof.
  induction t as [s f|f l IHl r IHr];
    intros fuel c n stack char_codes Hok Hfuel; simpl in Hok, Hfuel.
  - destruct fuel as [|fuel]; [lia|]. simpl. by rewrite Nat.sub_0_r.
  - destruct fuel as [|fuel]; [lia|].
    destruct Hok as (Hk & Hl & Hr).
    cbn [assign_loop f_n f_code f_len]. unfold stack_push.
    cbn [length].
    unfold MAX_CODE_LEN in *.
    assert ((length stack <? 64 * 2) = true) as ->
      by (apply Nat.ltb_lt; lia).
    cbn [mbind option_bind length].
    assert ((S (length stack) <? 64 * 2) = true) as ->
      by (apply Nat.ltb_lt; lia).
    cbn [mbind option_bind].
    rewrite IHl; [|by rewrite Nat.add_1_r in Hl|lia].
    rewrite IHr; [|done|lia].
    cbn [assign_rec node_count]. f_equal. lia.
Qed.

Lemma assign_loop_root root char_codes :
  stack_ok 0 root →
  assign_loop (node_count root) [mkFrame root 0 0] char_codes =
  Some (assign_rec root 0 0 char_codes).
Proof.
  intros Hok. rewrite assign_loop_frame by done.
  by rewrite Nat.sub_diag.
Qed.

End traversal.

Section path_codes.

Lemma assign_rec_paths t : ∀ c n char_codes,
  assign_rec t c n char_codes =
  write_codes
    ((λ sp, (sp.1, mkCodeEntry (path_code c sp.2)
                               (n + Z.of_nat (length sp.2)))) <$>
       leaf_paths t)
    char_codes.
Proof.
  unfold write_codes.
  induction t as [s f|f l IHl r IHr]; intros c n char_codes; simpl.
  - by rewrite Z.add_0_r.
  - rewrite fmap_app, foldl_app, <-!list_fmap_compose.
    rewrite IHl, IHr.
    assert (Hext : ∀ (b : bool) (t' : Node) (c' : Z), code_step c b = c' →
      ((λ sp : nat * list bool,
          (sp.1, mkCodeEntry (path_code c' sp.2)
                             (n + 1 + Z.of_nat (length sp.2)))) <$>
         leaf_paths t') =
      ((λ sp : nat * list bool,
          (sp.1, mkCodeEntry (path_code c sp.2)
                             (n + Z.of_nat (length sp.2))))
         ∘ (λ sp, (sp.1, b :: sp.2)) <$> leaf_paths t')).
    { intros b t' c' <-. apply list_fmap_ext. intros _ [s p] _. simpl.
      do 2 f_equal. lia. }
    by rewrite (Hext false l), (Hext true r).
Qed.

Lemma write_codes_length kvs : ∀ tb, length (write_codes kvs tb) = length tb.
Proof.
  unfold write_codes. induction kvs as [|kv kvs IH]; intros tb; simpl; [done|].
  by rewrite IH, length_insert.
Qed.

Lemma write_codes_other kvs s : ∀ tb,
  s ∉ kvs.*1 → write_codes kvs tb !! s = tb !! s.
Proof.
  unfold write_codes.
  induction kvs as [|[k v] kvs IH]; intros tb Hs; simpl; [done|].
  rewrite fmap_cons, not_elem_of_cons in Hs. destruct Hs as [Hne Hs].
  rewrite IH by done. by rewrite list_lookup_insert_ne.
Qed.

Lemma write_codes_lookup kvs s v : ∀ tb,
  NoDup kvs.*1 → (s, v) ∈ kvs → s < length tb →
  write_codes kvs tb !! s = Some v.
Proof.
  induction kvs as [|[k w] kvs IH]; intros tb Hnd Hin Hlen.
  { by apply elem_of_nil in Hin. }
  rewrite fmap_cons, NoDup_cons in Hnd. destruct Hnd as [Hk Hnd].
  apply elem_of_cons in Hin as [[= <- <-]|Hin].
  - change (write_codes ((s, v) :: kvs) tb)
      with (write_codes kvs (<[s := v]> tb)).
    rewrite write_codes_other by done. by rewrite list_lookup_insert_eq.
  - change (write_codes ((k, w) :: kvs) tb)
      with (write_codes kvs (<[k := w]> tb)).
    apply IH; [done|done|by rewrite length_insert].
Qed.

Lemma leaf_paths_symbols t : (leaf_paths t).*1 = (leaves t).*1.
Proof.
  induction t as [s f|f l IHl r IHr]; simpl; [done|].
  rewrite !fmap_app, <-!list_fmap_compose, <-IHl, <-IHr. done.
Qed.

Lemma shl1_mod v : shl1 (v mod ULONG_MODULUS) = ((2 * v) mod ULONG_MODULUS)%Z.
Proof.
  unfold shl1, ULONG_MODULUS. rewrite Z.shiftl_mul_pow2 by lia.
  change (2 ^ 1)%Z with 2%Z. change (2 ^ 64)%Z with 18446744073709551616%Z.
  lia.
Qed.

Lemma lor_1_even v : Z.lor (2 * v) 1 = (2 * v + 1)%Z.
Proof.
  rewrite <-Z.lxor_lor, <-Z.add_nocarry_lxor; try done.
  all: change 1%Z with (Z.ones 1); rewrite Z.land_ones by lia;
    change (2 ^ 1)%Z with 2%Z; lia.
Qed.

Lemma code_step_mod v b :
  code_step (v mod ULONG_MODULUS) b
    = ((2 * v + Z.b2z b) mod ULONG_MODULUS)%Z.
Proof.
  unfold code_step. rewrite shl1_mod. destruct b; simpl; [|by rewrite Z.add_0_r].
  unfold ULONG_MODULUS. change (2 ^ 64)%Z with (2 * 9223372036854775808)%Z.
  rewrite Z.mul_mod_distr_l by lia. rewrite lor_1_even. lia.
Qed.

Lemma path_code_mod p : ∀ v,
  path_code (v mod ULONG_MODULUS) p = (bits_val_from v p mod ULONG_MODULUS)%Z.
Proof.
  unfold path_code, bits_val_from.
  induction p as [|b p IH]; intros v; simpl; [done|].
  by rewrite code_step_mod, IH.
Qed.

Lemma path_code_0 p : path_code 0 p = (bits_val p mod ULONG_MODULUS)%Z.
Proof. apply (path_code_mod p 0). Qed.

Lemma bits_val_snoc p b : bits_val (p ++ [b]) = (2 * bits_val p + Z.b2z b)%Z.
Proof. unfold bits_val, bits_val_from. by rewrite foldl_snoc. Qed.

Lemma bits_val_bound p : (0 ≤ bits_val p < 2 ^ Z.of_nat (length p))%Z.
Proof.
  induction p as [|b p IH] using rev_ind; [done|].
  rewrite bits_val_snoc, length_app, Nat.add_1_r, Nat2Z.inj_succ,
    Z.pow_succ_r by lia.
  destruct b; simpl; lia.
Qed.

(** Reading [length p] bits of [bits_val p], most significant first, gives
    [p] back. *)
Lemma bits_val_testbits p :
  map (λ i, Z.testbit (bits_val p) (Z.of_nat i)) (rev (seq 0 (length p))) = p.
Proof.
  induction p as [|b p IH] using rev_ind; [done|].
  rewrite length_app, Nat.add_1_r. cbn [seq].
  rewrite <-seq_shift. cbn [rev]. rewrite <-map_rev, map_app, map_map.
  rewrite bits_val_snoc. cbn [map]. f_equal.
  - etrans; [|exact IH]. apply map_ext. intros i.
    rewrite Nat2Z.inj_succ. apply Z.testbit_succ_r. lia.
  - f_equal. apply Z.testbit_0_r.
Qed.

End path_codes.

(** * From the tree to the code table *)

Section tree_leaves.
Context (char_freq : list Z).

Lemma used_leaves_leaves :
  used_leaves char_freq ≫= leaves =
  (λ c, (c, char_freq !!! c)) <$>
    filter (λ c, char_freq !!! c ≠ 0%Z) (seq 0 NUM_CHARS).
Proof.
  unfold used_leaves.
  induction (filter _ _) as [|c cs IH]; [done|].
  rewrite !fmap_cons, bind_cons, IH. done.
Qed.

Lemma huff_step_leaves F F' :
  huff_step F F' → F' ≫= leaves ≡ₚ F ≫= leaves.
Proof.
  intros (a & b & R & -> & _ & _ & ->).
  rewrite !bind_cons. simpl. by rewrite <-app_assoc.
Qed.

Lemma build_tree_leaves root :
  build_tree char_freq = Some root →
  leaves root ≡ₚ
    (λ c, (c, char_freq !!! c)) <$>
      filter (λ c, char_freq !!! c ≠ 0%Z) (seq 0 NUM_CHARS).
Proof.
  intros Hb.
  destruct (build_tree_inv char_freq
              (λ F, F ≫= leaves ≡ₚ used_leaves char_freq ≫= leaves))
    as (root' & Hb' & Hinv).
  - intros F F' HF HI. by rewrite <-HF.
  - intros F F' HI Hs. by rewrite (huff_step_leaves F F').
  - intros E. apply build_tree_None in E. congruence.
  - done.
  - assert (root' = root) as -> by congruence.
    rewrite bind_cons, app_nil_r in Hinv. simpl in Hinv.
    by rewrite Hinv, used_leaves_leaves.
Qed.

Lemma build_tree_symbols root :
  build_tree char_freq = Some root →
  (leaf_paths root).*1 ≡ₚ
    filter (λ c, char_freq !!! c ≠ 0%Z) (seq 0 NUM_CHARS).
Proof.
  intros Hb. rewrite leaf_paths_symbols, (build_tree_leaves root Hb).
  rewrite <-list_fmap_compose. by rewrite list_fmap_id.
Qed.

Lemma build_tree_symbols_NoDup root :
  build_tree char_freq = Some root → NoDup (leaf_paths root).*1.
Proof.
  intros Hb. rewrite (build_tree_symbols root Hb).
  apply NoDup_filter, NoDup_seq.
Qed.

Lemma build_tree_symbol_iff root s :
  build_tree char_freq = Some root →
  s ∈ (leaf_paths root).*1 ↔ s < NUM_CHARS ∧ char_freq !!! s ≠ 0%Z.
Proof.
  intros Hb. rewrite (build_tree_symbols root Hb).
  rewrite list_elem_of_filter, elem_of_seq. lia.
Qed.

End tree_leaves.

Section code_table.
Context (char_freq : list Z).

(** The table written by [build_char_codes], entry by entry. *)
Lemma build_char_codes_table root :
  build_tree char_freq = Some root → stack_ok 0 root →
  ∃ char_codes,
    build_char_codes char_freq = Some char_codes ∧
    length char_codes = NUM_CHARS ∧
    (∀ s p, (s, p) ∈ leaf_paths root →
            char_codes !! s = Some (path_entry p)) ∧
    (∀ s, s < NUM_CHARS → s ∉ (leaf_paths root).*1 →
          char_codes !! s = Some (mkCodeEntry 0 0)).
Proof.
  intros Hb Hok. rewrite build_char_codes_tree, Hb.
  rewrite assign_loop_root by done. eexists. split; [done|].
  rewrite assign_rec_paths.
  split_and!.
  - by rewrite write_codes_length.
  - intros s p Hin.
    apply write_codes_lookup.
    + rewrite <-list_fmap_compose.
      by apply (build_tree_symbols_NoDup char_freq).
    + apply list_elem_of_fmap. exists (s, p). split; [|done]. simpl.
      unfold path_entry. by rewrite path_code_0.
    + assert (s ∈ (leaf_paths root).*1) as Hs.
      { apply list_elem_of_fmap. by exists (s, p). }
      apply (build_tree_symbol_iff char_freq) in Hs; [|done].
      unfold zero_codes. rewrite length_replicate. lia.
  - intros s Hs Hnot. rewrite write_codes_other.
    + unfold zero_codes. by apply lookup_replicate_2.
    + by rewrite <-list_fmap_compose.
Qed.

Lemma build_char_codes_empty :
  build_tree char_freq = None →
  build_char_codes char_freq = Some zero_codes.
Proof. intros Hb. by rewrite build_char_codes_tree, Hb. Qed.

End code_table.

Section prefixes.

Lemma leaf_paths_prefix t : ∀ s1 p1 s2 p2,
  NoDup (leaf_paths t).*1 →
  (s1, p1) ∈ leaf_paths t → (s2, p2) ∈ leaf_paths t →
  p1 `prefix_of` p2 → s1 = s2.
Proof.
  induction t as [s f|f l IHl r IHr]; intros s1 p1 s2 p2 Hnd H1 H2 Hp.
  { apply list_elem_of_singleton in H1, H2. congruence. }
  simpl in *. rewrite fmap_app, <-!list_fmap_compose in Hnd.
  apply NoDup_app in Hnd as (Hl & Hlr & Hr).
  apply elem_of_app in H1, H2.
  destruct H1 as [H1|H1], H2 as [H2|H2];
    apply list_elem_of_fmap in H1 as ([s1' q1] & [= -> ->] & H1);
    apply list_elem_of_fmap in H2 as ([s2' q2] & [= -> ->] & H2); simpl in *.
  - apply prefix_cons_inv_2 in Hp. by eapply IHl.
  - by apply prefix_cons_inv_1 in Hp.
  - by apply prefix_cons_inv_1 in Hp.
  - apply prefix_cons_inv_2 in Hp. by eapply IHr.
Qed.

Lemma leaf_paths_length t s p :
  (s, p) ∈ leaf_paths t → length p ≤ height t.
Proof.
  revert s p. induction t as [s' f|f l IHl r IHr]; intros s p Hin; simpl in *.
  { apply list_elem_of_singleton in Hin. by simplify_eq. }
  apply elem_of_app in Hin as [Hin|Hin];
    apply list_elem_of_fmap in Hin as ([s0 q] & [= -> ->] & Hin); simpl.
  - apply IHl in Hin. lia.
  - apply IHr in Hin. lia.
Qed.

Lemma print_path_entry char_codes s p :
  char_codes !! s = Some (path_entry p) → length p ≤ MAX_CODE_LEN →
  print_char_code char_codes s = p.
Proof.
  intros Hs Hlen. unfold print_char_code.
  rewrite (list_lookup_total_correct _ _ _ Hs). unfold path_entry. simpl.
  rewrite Nat2Z.id.
  rewrite Z.mod_small; [apply bits_val_testbits|].
  pose proof (bits_val_bound p) as [? Hlt]. split; [done|].
  eapply Z.lt_le_trans; [done|]. unfold ULONG_MODULUS.
  apply Z.pow_le_mono_r; unfold MAX_CODE_LEN in *; lia.
Qed.

Lemma path_entry_bound p :
  (0 ≤ code (path_entry p) < 2 ^ len (path_entry p))%Z.
Proof.
  unfold path_entry. simpl.
  pose proof (bits_val_bound p) as [H0 Hlt].
  destruct (decide (length p ≤ 64)) as [Hle|Hgt].
  - rewrite Z.mod_small; [done|]. split; [done|].
    eapply Z.lt_le_trans; [done|]. unfold ULONG_MODULUS.
    apply Z.pow_le_mono_r; lia.
  - assert (0 ≤ bits_val p mod ULONG_MODULUS < ULONG_MODULUS)%Z as [? ?]
      by (apply Z.mod_pos_bound; done).
    split; [done|]. eapply Z.lt_le_trans; [done|]. unfold ULONG_MODULUS.
    apply Z.pow_le_mono_r; lia.
Qed.

End prefixes.

(** * The code table: prefix-freeness and code width *)

Section table_properties.
Context (char_freq : list Z).

Lemma table_entry_cases root (char_codes : list CodeEntry) s :
  build_tree char_freq = Some root →
  (∀ s p, (s, p) ∈ leaf_paths root →
          char_codes !! s = Some (path_entry p)) →
  (∀ s, s < NUM_CHARS → s ∉ (leaf_paths root).*1 →
        char_codes !! s = Some (mkCodeEntry 0 0)) →
  s < NUM_CHARS →
  (∃ p, (s, p) ∈ leaf_paths root ∧ char_codes !! s = Some (path_entry p)) ∨
  char_codes !! s = Some (mkCodeEntry 0 0).
Proof.
  intros Hb Hin Hout Hs.
  destruct (decide (s ∈ (leaf_paths root).*1)) as [Hmem|Hmem].
  - apply list_elem_of_fmap in Hmem as ([s' p] & -> & Hmem). left.
    exists p. split; [done|]. by apply Hin.
  - right. by apply Hout.
Qed.

Lemma prefix_free_of_table root (char_codes : list CodeEntry) :
  build_tree char_freq = Some root → height root ≤ MAX_CODE_LEN →
  (∀ s p, (s, p) ∈ leaf_paths root →
          char_codes !! s = Some (path_entry p)) →
  (∀ s, s < NUM_CHARS → s ∉ (leaf_paths root).*1 →
        char_codes !! s = Some (mkCodeEntry 0 0)) →
  prefix_free char_codes.
Proof.
  intros Hb Hh Hin Hout c1 c2 Hc1 Hc2 Hne Hl1 Hl2 Hpre.
  destruct (table_entry_cases root char_codes c1 Hb Hin Hout Hc1)
    as [(p1 & Hp1 & E1)|E1]; cycle 1.
  { rewrite (list_lookup_total_correct _ _ _ E1) in Hl1. simpl in Hl1. lia. }
  destruct (table_entry_cases root char_codes c2 Hb Hin Hout Hc2)
    as [(p2 & Hp2 & E2)|E2]; cycle 1.
  { rewrite (list_lookup_total_correct _ _ _ E2) in Hl2. simpl in Hl2. lia. }
  rewrite (print_path_entry _ _ p1), (print_path_entry _ _ p2) in Hpre;
    try done.
  - apply Hne. eapply leaf_paths_prefix; [|done..].
    by apply (build_tree_symbols_NoDup char_freq).
  - etrans; [by eapply leaf_paths_length|done].
  - etrans; [by eapply leaf_paths_length|done].
Qed.

Lemma code_width_ok_stack root :
  build_tree char_freq = Some root → height root ≤ MAX_CODE_LEN →
  stack_ok 0 root.
Proof.
  intros _ Hh. apply stack_ok_height. unfold MAX_CODE_LEN in *. lia.
Qed.

End table_properties.

Lemma small_code_high_bits c n i :
  (0 ≤ c < 2 ^ n)%Z → (n ≤ i)%Z → Z.testbit c i = false.
Proof.
  intros [H0 Hlt] Hi.
  destruct (decide (c = 0%Z)) as [->|Hc]; [apply Z.testbit_0_l|].
  assert (0 ≤ n)%Z.
  { destruct (decide (0 ≤ n)%Z); [done|].
    rewrite Z.pow_neg_r in Hlt by lia. lia. }
  apply Z.bits_above_log2; [done|].
  apply Z.log2_lt_pow2; [lia|].
  eapply Z.lt_le_trans; [done|]. apply Z.pow_le_mono_r; lia.
Qed.

Lemma abc_freq_width : code_width_ok abc_freq.
Proof.
  intros root Hb. vm_compute in Hb. injection Hb as <-. vm_compute. lia.
Qed.

(** C1, as amended.  For every frequency table whose Huffman tree is no deeper
    than [MAX_CODE_LEN] = 64, [build_char_codes] returns a code table that is
    prefix-free on the assigned codes: for distinct symbols with code length
    > 0, the bit string of one is never a prefix of the other's. *)
Theorem prefix_free_within_code_width (char_freq : list Z) :
  code_width_ok char_freq →
  ∃ char_codes,
    build_char_codes char_freq = Some char_codes ∧ prefix_free char_codes.
Proof.
  intros Hw. destruct (build_tree char_freq) as [root|] eqn:Hb.
  - specialize (Hw root Hb).
    destruct (build_char_codes_table char_freq root Hb)
      as (char_codes & E & _ & Hin & Hout).
    { by eapply code_width_ok_stack. }
    exists char_codes. split; [done|]. by eapply prefix_free_of_table.
  - exists zero_codes. split; [by apply build_char_codes_empty|].
    intros c1 c2 Hc1 _ _ Hl1. exfalso.
    unfold zero_codes in Hl1.
    rewrite (list_lookup_total_correct _ _ _ (lookup_replicate_2 _ _ _ Hc1))
      in Hl1.
    simpl in Hl1. lia.
Qed.

Lemma prefix_free_within_code_width_witness :
  ∃ char_codes,
    build_char_codes abc_freq = Some char_codes ∧ prefix_free char_codes.
Proof. apply (prefix_free_within_code_width abc_freq), abc_freq_width. Defined.

(** C1, as stated, fails on [fib_freq]: the tree is 65 deep, the code of
    symbol 0 loses its leading 1 bit, and the one-bit code of symbol 65 is a
    prefix of what remains. *)
Lemma prefix_free_fails_beyond_code_width :
  ∃ char_codes,
    build_char_codes fib_freq = Some char_codes ∧
    (0 < len (char_codes !!! 65%nat))%Z ∧ (0 < len (char_codes !!! 0%nat))%Z ∧
    print_char_code char_codes 65 `prefix_of` print_char_code char_codes 0 ∧
    ¬ prefix_free char_codes.
Proof.
  eexists. split; [vm_compute; reflexivity|].
  assert (Hpre : print_char_code
            (default [] (build_char_codes fib_freq)) 65
          `prefix_of`
          print_char_code (default [] (build_char_codes fib_freq)) 0).
  { apply (bool_decide_unpack _). vm_compute. exact I. }
  split_and!; [done|done|exact Hpre|].
  intros Hpf. eapply (Hpf 65 0); [unfold NUM_CHARS; lia..|done|done|done|].
  exact Hpre.
Qed.

(** C10.  For every frequency table whose tree depth stays within the 64-bit
    code width, every entry of the table written by [build_char_codes] has
    [0 <= code < 2^len]: all bits from position [len] upwards are zero, and an
    entry of length 0 has code 0. *)
Theorem code_below_two_pow_len (char_freq : list Z) :
  code_width_ok char_freq →
  ∃ char_codes,
    build_char_codes char_freq = Some char_codes ∧
    length char_codes = NUM_CHARS ∧
    ∀ c e, char_codes !! c = Some e →
      (0 ≤ len e)%Z ∧ (0 ≤ code e < 2 ^ len e)%Z ∧
      (∀ i, (len e ≤ i)%Z → Z.testbit (code e) i = false) ∧
      (len e = 0%Z → code e = 0%Z).
Proof.
  intros Hw.
  assert (Hentry : ∀ e, (0 ≤ len e)%Z → (0 ≤ code e < 2 ^ len e)%Z →
    (0 ≤ len e)%Z ∧ (0 ≤ code e < 2 ^ len e)%Z ∧
    (∀ i, (len e ≤ i)%Z → Z.testbit (code e) i = false) ∧
    (len e = 0%Z → code e = 0%Z)).
  { intros e Hl Hc. split; [done|]. split; [done|]. split.
    - intros i Hi. by eapply small_code_high_bits.
    - intros E. rewrite E in Hc. simpl in Hc. lia. }
  destruct (build_tree char_freq) as [root|] eqn:Hb.
  - specialize (Hw root Hb).
    destruct (build_char_codes_table char_freq root Hb)
      as (char_codes & E & Hlen & Hin & Hout).
    { by eapply code_width_ok_stack. }
    exists char_codes. split_and!; [done|done|].
    intros c e Hc.
    assert (c < NUM_CHARS) as Hlt by (rewrite <-Hlen; by eapply lookup_lt_Some).
    destruct (table_entry_cases char_freq root char_codes c Hb Hin Hout Hlt)
      as [(p & _ & Hp)|Hz].
    + assert (e = path_entry p) as -> by congruence.
      apply Hentry; [simpl; lia|apply path_entry_bound].
    + assert (e = mkCodeEntry 0 0) as -> by congruence.
      apply Hentry; simpl; lia.
  - exists zero_codes. split; [by apply build_char_codes_empty|].
    split; [apply length_replicate|].
    intros c e Hc. apply lookup_replicate in Hc as [-> _].
    apply Hentry; simpl; lia.
Qed.

Lemma code_below_two_pow_len_witness :
  ∃ char_codes,
    build_char_codes abc_freq = Some char_codes ∧
    length char_codes = NUM_CHARS ∧
    ∀ c e, char_codes !! c = Some e →
      (0 ≤ len e)%Z ∧ (0 ≤ code e < 2 ^ len e)%Z ∧
      (∀ i, (len e ≤ i)%Z → Z.testbit (code e) i = false) ∧
      (len e = 0%Z → code e = 0%Z).
Proof. apply (code_below_two_pow_len abc_freq), abc_freq_width. Defined.

(** * Code overflow *)

Lemma fib_freq_tree : build_tree fib_freq = Some fib_tree.
Proof. vm_compute. reflexivity. Qed.

(** C5, as amended.  [build_char_codes] has no overflow check.  Whenever the
    tree is shallower than the traversal stack ([MAX_CODE_LEN * 2] frames) it
    returns a table in which the entry of each leaf holds the full depth of
    the leaf as [len], also beyond 64, and the path bits modulo [2^64] as
    [code]. *)
Theorem code_overflow_wraps (char_freq : list Z) (root : Node) :
  build_tree char_freq = Some root → height root < MAX_CODE_LEN * 2 →
  ∃ char_codes,
    build_char_codes char_freq = Some char_codes ∧
    ∀ s p, (s, p) ∈ leaf_paths root →
           char_codes !! s =
             Some (mkCodeEntry (bits_val p mod ULONG_MODULUS)
                               (Z.of_nat (length p))).
Proof.
  intros Hb Hh.
  destruct (build_char_codes_table char_freq root Hb)
    as (char_codes & E & _ & Hin & _).
  { by apply stack_ok_height. }
  by exists char_codes.
Qed.

Lemma code_overflow_wraps_witness :
  ∃ char_codes,
    build_char_codes fib_freq = Some char_codes ∧
    ∀ s p, (s, p) ∈ leaf_paths fib_tree →
           char_codes !! s =
             Some (mkCodeEntry (bits_val p mod ULONG_MODULUS)
                               (Z.of_nat (length p))).
Proof.
  apply (code_overflow_wraps fib_freq fib_tree).
  - vm_compute. reflexivity.
  - vm_compute. lia.
Defined.

(** C5, as stated, fails on [fib_freq]: the path to symbol 0 has 65 edges and
    denotes [2^65 - 2], yet [build_char_codes] returns normally and records
    length 65 with the truncated code [2^64 - 2]. *)
Lemma code_overflow_undetected :
  ∃ root p char_codes,
    build_tree fib_freq = Some root ∧ height root = 65 ∧
    (0, p) ∈ leaf_paths root ∧ length p = 65 ∧
    bits_val p = (2 ^ 65 - 2)%Z ∧
    build_char_codes fib_freq = Some char_codes ∧
    char_codes !! 0 = Some (mkCodeEntry (2 ^ 64 - 2) 65).
Proof.
  exists fib_tree, (replicate 64 true ++ [false]).
  eexists. split_and!.
  - vm_compute. reflexivity.
  - vm_compute. reflexivity.
  - apply (bool_decide_unpack _). vm_compute. exact I.
  - reflexivity.
  - vm_compute. reflexivity.
  - vm_compute. reflexivity.
  - vm_compute. reflexivity.
Qed.

(** * Degenerate alphabets *)

Lemma filter_none {A} (P : A → Prop) `{∀ x, Decision (P x)} (l : list A) :
  (∀ x, x ∈ l → ¬ P x) → filter P l = [].
Proof.
  induction l as [|x l IH]; intros Hall; [done|].
  rewrite filter_cons_False; [|apply Hall; by left].
  apply IH. intros y Hy. apply Hall. by right.
Qed.

(** C8.  When no symbol has a nonzero frequency, [build_char_codes] builds no
    tree and returns with all 256 entries having code length 0 and code
    value 0. *)
Theorem empty_alphabet_all_zero (char_freq : list Z) :
  (∀ c, c < NUM_CHARS → char_freq !!! c = 0%Z) →
  build_tree char_freq = None ∧
  ∃ char_codes,
    build_char_codes char_freq = Some char_codes ∧
    length char_codes = NUM_CHARS ∧
    ∀ c, c < NUM_CHARS → char_codes !! c = Some (mkCodeEntry 0 0).
Proof.
  intros Hzero.
  assert (Hb : build_tree char_freq = None).
  { apply build_tree_None. unfold used_leaves.
    rewrite filter_none; [done|].
    intros c Hc%elem_of_seq Hne. apply Hne, Hzero. lia. }
  split; [done|]. exists zero_codes.
  split; [by apply build_char_codes_empty|].
  split; [apply length_replicate|].
  intros c Hc. by apply lookup_replicate_2.
Qed.

Lemma empty_alphabet_all_zero_witness :
  build_tree (replicate NUM_CHARS 0%Z) = None ∧
  ∃ char_codes,
    build_char_codes (replicate NUM_CHARS 0%Z) = Some char_codes ∧
    length char_codes = NUM_CHARS ∧
    ∀ c, c < NUM_CHARS → char_codes !! c = Some (mkCodeEntry 0 0).
Proof.
  apply (empty_alphabet_all_zero (replicate NUM_CHARS 0%Z)).
  intros c Hc. by rewrite lookup_total_replicate_2.
Defined.

Lemma leaves_length t : 1 ≤ length (leaves t).
Proof.
  induction t as [s f|f l IHl r IHr]; simpl; [done|].
  rewrite length_app. lia.
Qed.

Lemma leaves_singleton t s f : leaves t = [(s, f)] → t = Leaf s f.
Proof.
  destruct t as [s' f'|f' l r]; simpl; [by intros [= -> ->]|].
  intros E. apply (f_equal length) in E. rewrite length_app in E. simpl in E.
  pose proof (leaves_length l). pose proof (leaves_length r). lia.
Qed.

(** C4, on the code.  When exactly one symbol has a nonzero frequency, the
    tree is that single leaf and [build_char_codes] records for it the state
    of the root frame: code length 0 and code value 0.  There is no special
    case that would assign length 1. *)
Theorem single_symbol_gets_length_zero (char_freq : list Z) (c : nat) :
  c < NUM_CHARS → char_freq !!! c ≠ 0%Z →
  (∀ c', c' < NUM_CHARS → c' ≠ c → char_freq !!! c' = 0%Z) →
  build_tree char_freq = Some (Leaf c (char_freq !!! c)) ∧
  ∃ char_codes,
    build_char_codes char_freq = Some char_codes ∧
    char_codes !! c = Some (mkCodeEntry 0 0).
Proof.
  intros Hc Hne Hothers.
  assert (Hf : filter (λ c, char_freq !!! c ≠ 0%Z) (seq 0 NUM_CHARS) = [c]).
  { apply Permutation_singleton_r, NoDup_Permutation.
    - apply NoDup_filter, NoDup_seq.
    - apply NoDup_singleton.
    - intros x. rewrite list_elem_of_filter, elem_of_seq, list_elem_of_singleton.
      split; [|intros ->; split; [done|lia]].
      intros [Hx ?]. destruct (decide (x = c)); [done|].
      exfalso. apply Hx, Hothers; [lia|done]. }
  destruct (build_tree char_freq) as [root|] eqn:Hb; cycle 1.
  { apply build_tree_None in Hb. unfold used_leaves in Hb. by rewrite Hf in Hb. }
  pose proof (build_tree_leaves char_freq root Hb) as Hl.
  rewrite Hf in Hl. simpl in Hl.
  apply Permutation_singleton_r, leaves_singleton in Hl. subst root.
  split; [done|].
  destruct (build_char_codes_table char_freq _ Hb)
    as (char_codes & E & _ & Hin & _); [done|].
  exists char_codes. split; [done|].
  rewrite (Hin c []); [done|]. simpl. by apply list_elem_of_singleton.
Qed.

Lemma single_symbol_gets_length_zero_witness :
  build_tree single_freq = Some (Leaf 97 (single_freq !!! 97)) ∧
  ∃ char_codes,
    build_char_codes single_freq = Some char_codes ∧
    char_codes !! 97 = Some (mkCodeEntry 0 0).
Proof.
  apply (single_symbol_gets_length_zero single_freq 97).
  - unfold NUM_CHARS. lia.
  - vm_compute. discriminate.
  - intros c' Hc' Hne. unfold single_freq.
    rewrite list_lookup_total_insert_ne by done.
    by rewrite lookup_total_replicate_2.
Defined.

(** C7, on the code.  For the input [["aa"]] the byte ['a'] appears (count 2),
    yet after frequency counting and code assignment its code length is 0. *)
Theorem single_byte_input_gets_length_zero :
  count_char_freq ["aa"%string] !!! 97 = 2%Z ∧
  ∃ char_codes,
    build_char_codes (count_char_freq ["aa"%string]) = Some char_codes ∧
    len (char_codes !!! 97) = 0%Z.
Proof.
  split; [vm_compute; reflexivity|].
  exists (default [] (build_char_codes (count_char_freq ["aa"%string]))).
  split; vm_compute; reflexivity.
Qed.

(** * The worked example *)

(** C9.  For the input strings ["aab"] and ["abc"]: the counts are a:3, b:2,
    c:1; the first round of the merge loop combines c and b into a node of
    frequency 3, the second combines a with that node into the root of
    frequency 6; the code lengths are 1 for 'a' and 2 for 'b' and 'c';
    encoding "aab" gives 4 bits and "abc" gives 5 bits. *)
Theorem aab_abc_scenario :
  let char_freq := count_char_freq ["aab"%string; "abc"%string] in
  char_freq = abc_freq ∧
  init_loop char_freq = (zero_codes, [Leaf 99 1; Leaf 97 3; Leaf 98 2], 3) ∧
  merge_step [Leaf 99 1; Leaf 97 3; Leaf 98 2] =
    Some [Leaf 97 3; Internal 3 (Leaf 99 1) (Leaf 98 2)] ∧
  merge_step [Leaf 97 3; Internal 3 (Leaf 99 1) (Leaf 98 2)] =
    Some [Internal 6 (Leaf 97 3) (Internal 3 (Leaf 99 1) (Leaf 98 2))] ∧
  build_tree char_freq =
    Some (Internal 6 (Leaf 97 3) (Internal 3 (Leaf 99 1) (Leaf 98 2))) ∧
  ∃ char_codes,
    build_char_codes char_freq = Some char_codes ∧
    len (char_codes !!! 97) = 1%Z ∧
    len (char_codes !!! 98) = 2%Z ∧
    len (char_codes !!! 99) = 2%Z ∧
    encode_command char_codes "aab" = Some (4%Z, 1%Z) ∧
    encode_command char_codes "abc" = Some (5%Z, 1%Z).
Proof.
  cbv zeta.
  do 5 (split; [vm_compute; reflexivity|]).
  exists (default [] (build_char_codes abc_freq)).
  repeat (lazymatch goal with |- _ ∧ _ => split end); vm_compute; reflexivity.
Qed.

(** * Encoding *)

Section encode_facts.
Context (char_codes : list CodeEntry).

Lemma in_int_range_spec z :
  in_int_range z = true ↔ (INT_MIN ≤ z ≤ INT_MAX)%Z.
Proof. unfold in_int_range. rewrite andb_true_iff, !Z.leb_le. done. Qed.

Lemma sum_lens_nonneg cs :
  (∀ c, c ∈ cs → (0 ≤ len (char_codes !!! c))%Z) →
  (0 ≤ sum_lens char_codes cs)%Z.
Proof.
  induction cs as [|c cs IH]; intros Hpos; simpl; [done|].
  assert (0 ≤ len (char_codes !!! c))%Z by (apply Hpos; by left).
  assert (0 ≤ sum_lens char_codes cs)%Z; [|lia].
  apply IH. intros c' Hc'. apply Hpos. by right.
Qed.

Lemma encode_loop_sum cmd : ∀ bits,
  (∀ c, c ∈ cmd_chars cmd → (0 ≤ len (char_codes !!! c))%Z) →
  (INT_MIN ≤ bits)%Z →
  (bits + sum_lens char_codes (cmd_chars cmd) ≤ INT_MAX)%Z →
  encode_loop char_codes cmd bits
    = Some (bits + sum_lens char_codes (cmd_chars cmd))%Z.
Proof.
  induction cmd as [|ch cmd IH]; intros bits Hpos Hlo Hhi; simpl in *.
  { by rewrite Z.add_0_r. }
  destruct (Ascii.eqb ch zero); simpl in *; [by rewrite Z.add_0_r|].
  assert (0 ≤ len (char_codes !!! nat_of_ascii ch))%Z
    by (apply Hpos; by left).
  assert (0 ≤ sum_lens char_codes (cmd_chars cmd))%Z.
  { apply sum_lens_nonneg. intros c Hc. apply Hpos. by right. }
  destruct (in_int_range _) eqn:Hr; cycle 1.
  { apply not_true_iff_false in Hr. rewrite in_int_range_spec in Hr. lia. }
  rewrite IH; [f_equal; lia| |lia|lia].
  intros c Hc. apply Hpos. by right.
Qed.

(** A character of code length 0 leaves the accumulator unchanged. *)
Lemma encode_loop_skip ch (s1 s2 : string) : ∀ bits,
  ch ≠ zero → len (char_codes !!! nat_of_ascii ch) = 0%Z →
  in_int_range bits = true →
  encode_loop char_codes (s1 ++ String ch s2) bits
    = encode_loop char_codes (s1 ++ s2) bits.
Proof.
  intros bits Hch Hlen. revert bits.
  induction s1 as [|c1 s1 IH]; intros bits Hr; simpl.
  - destruct (Ascii.eqb_spec ch zero) as [->|_]; [done|].
    by rewrite Hlen, Z.add_0_r, Hr.
  - destruct (Ascii.eqb c1 zero); [done|].
    destruct (in_int_range (bits + _)) eqn:Hr'; [|done]. by apply IH.
Qed.

End encode_facts.

(** C3, as amended.  [encode_command] has no [UnknownSymbol] failure: a
    character whose code length in the table is 0 contributes zero bits, so
    the result for a string is the result for the string without that
    character. *)
Theorem encode_skips_zero_length
    (char_codes : list CodeEntry) (s1 s2 : string) (ch : ascii) :
  ch ≠ zero → len (char_codes !!! nat_of_ascii ch) = 0%Z →
  encode_command char_codes (s1 ++ String ch s2)
    = encode_command char_codes (s1 ++ s2).
Proof.
  intros Hch Hlen. unfold encode_command.
  by rewrite encode_loop_skip.
Qed.

Lemma encode_skips_zero_length_witness :
  encode_command zero_codes ("" ++ String "a" "b")
    = encode_command zero_codes ("" ++ "b").
Proof.
  apply (encode_skips_zero_length zero_codes "" "b" "a").
  - discriminate.
  - reflexivity.
Defined.

(** C3, as stated, fails: in the all-zero table the byte ['a'] has code length
    0, and encoding ["a"] returns normally with 0 bits and 0 bytes. *)
Lemma encode_unknown_symbol_returns :
  len (zero_codes !!! nat_of_ascii "a") = 0%Z ∧
  cmd_chars "a" = [nat_of_ascii "a"] ∧
  encode_command zero_codes "a" = Some (0%Z, 0%Z).
Proof. split_and!; reflexivity. Qed.

(** C6, as amended.  For a string and a code table whose lengths for the
    characters of the string are non-negative, and whose total (plus 7) fits
    in [int], [encode_command] returns as bit length the sum of the code
    lengths of the characters of the string, in order, and as byte length
    the ceiling of bit length / 8, i.e. the least [bytes] with
    [8 * bytes >= bits]. *)
Theorem encode_command_bits_bytes (char_codes : list CodeEntry) (cmd : string) :
  (∀ c, c ∈ cmd_chars cmd → (0 ≤ len (char_codes !!! c))%Z) →
  (sum_lens char_codes (cmd_chars cmd) + 7 ≤ INT_MAX)%Z →
  ∃ bytes,
    encode_command char_codes cmd
      = Some (sum_lens char_codes (cmd_chars cmd), bytes) ∧
    (8 * (bytes - 1) < sum_lens char_codes (cmd_chars cmd) ≤ 8 * bytes)%Z.
Proof.
  intros Hpos Hmax.
  pose proof (sum_lens_nonneg char_codes _ Hpos) as H0.
  unfold encode_command.
  rewrite encode_loop_sum; [|done|unfold INT_MIN; lia|lia].
  rewrite Z.add_0_l. simpl.
  destruct (in_int_range _) eqn:Hr; cycle 1.
  { apply not_true_iff_false in Hr. rewrite in_int_range_spec in Hr.
    unfold INT_MIN in *. lia. }
  eexists. split; [done|].
  rewrite Z.quot_div_nonneg by lia. lia.
Qed.

Lemma encode_command_bits_bytes_witness :
  ∃ bytes,
    encode_command (default [] (build_char_codes abc_freq)) "abc"
      = Some (sum_lens (default [] (build_char_codes abc_freq))
                (cmd_chars "abc"), bytes) ∧
    (8 * (bytes - 1) <
       sum_lens (default [] (build_char_codes abc_freq)) (cmd_chars "abc")
       ≤ 8 * bytes)%Z.
Proof.
  apply (encode_command_bits_bytes
           (default [] (build_char_codes abc_freq)) "abc").
  - intros c Hc. vm_compute in Hc.
    repeat (apply elem_of_cons in Hc as [->|Hc]; [vm_compute; discriminate|]).
    inversion Hc.
  - vm_compute. discriminate.
Defined.

(** C6, as stated for every code table, fails: with a code length of -9 for
    ['a'] the command ["aa"] gets -18 bits and -1 bytes, and -1 is not the
    ceiling of -18 / 8; with a code length of [INT_MAX] the sum of the
    lengths is above [INT_MAX] and the addition overflows. *)
Lemma encode_ceiling_fails_out_of_range :
  (encode_command neg_codes "aa" = Some (-18, -1)%Z ∧
   sum_lens neg_codes (cmd_chars "aa") = (-18)%Z ∧
   ¬ (8 * (-1 - 1) < -18 ≤ 8 * -1)%Z) ∧
  ((INT_MAX < sum_lens big_codes (cmd_chars "aa"))%Z ∧
   encode_command big_codes "aa" = None).
Proof.
  split.
  - split; [vm_compute; reflexivity|].
    split; [vm_compute; reflexivity|lia].
  - split; vm_compute; reflexivity.
Qed.

(** * Kraft's inequality *)

Section kraft_sums.

Lemma pow2_pos n : (0 < pow2 n)%Z.
Proof. unfold pow2. apply Z.pow_pos_nonneg; lia. Qed.

Lemma pow2_S n : pow2 (S n) = (2 * pow2 n)%Z.
Proof. unfold pow2. rewrite Nat2Z.inj_succ, Z.pow_succ_r; lia. Qed.

Lemma pow2_add n m : pow2 (n + m) = (pow2 n * pow2 m)%Z.
Proof. unfold pow2. rewrite Nat2Z.inj_add, Z.pow_add_r; lia. Qed.

Lemma ksum_cons M l ls : ksum M (l :: ls) = (pow2 (M - l) + ksum M ls)%Z.
Proof. done. Qed.

Lemma ksum_nonneg M ls : (0 ≤ ksum M ls)%Z.
Proof.
  induction ls as [|l ls IH]; simpl; [done|].
  pose proof (pow2_pos (M - l)). lia.
Qed.

Lemma ksum_perm M ls ls' : ls ≡ₚ ls' → ksum M ls = ksum M ls'.
Proof. induction 1; simpl; lia. Qed.

Lemma ksum_shift d M ls :
  (∀ l, l ∈ ls → l ≤ M) → ksum (M + d) ls = (pow2 d * ksum M ls)%Z.
Proof.
  induction ls as [|l ls IH]; intros Hle; simpl; [lia|].
  rewrite IH by (intros; apply Hle; by right).
  assert (l ≤ M) by (apply Hle; by left).
  replace (M + d - l) with (d + (M - l)) by lia.
  rewrite pow2_add. lia.
Qed.

Lemma kraft_bound M ls :
  (∀ l, l ∈ ls → l ≤ M) → kraft ls ↔ (ksum M ls ≤ pow2 M)%Z.
Proof.
  intros Hle. unfold kraft.
  assert (max_list ls ≤ M) as Hmax.
  { destruct (decide (ls = [])) as [->|Hne]; [simpl; lia|].
    by apply Hle, max_list_elem_of. }
  replace M with (max_list ls + (M - max_list ls)) at 1 2 by lia.
  rewrite ksum_shift by (intros; by apply max_list_elem_of_le).
  rewrite Nat.add_comm, pow2_add.
  pose proof (pow2_pos (M - max_list ls)). nia.
Qed.

Lemma kraft_perm ls ls' : ls ≡ₚ ls' → kraft ls → kraft ls'.
Proof.
  intros Hp Hk.
  apply (kraft_bound (max_list ls)) in Hk;
    [|intros; by apply max_list_elem_of_le].
  apply (kraft_bound (max_list ls)).
  - intros l Hl. rewrite <-Hp in Hl. by apply max_list_elem_of_le.
  - by rewrite <-(ksum_perm _ _ _ Hp).
Qed.

(** A single longest length can be shortened by one. *)
Lemma kraft_reduce la lb L :
  kraft (la :: lb :: L) → lb < la → (∀ l, l ∈ L → l ≤ lb) →
  kraft ((la - 1) :: lb :: L).
Proof.
  intros Hk Hlt Hle.
  assert (Hrest : ∀ l, l ∈ lb :: L → l ≤ la - 1).
  { intros l [->|Hl]%elem_of_cons; [lia|]. apply Hle in Hl. lia. }
  assert (Hall : ∀ x, ∀ l, l ∈ x :: lb :: L → x ≤ la → l ≤ la).
  { intros x l [->|Hl]%elem_of_cons ?; [done|]. apply Hrest in Hl. lia. }
  apply (kraft_bound la) in Hk; [|intros; by eapply Hall].
  apply (kraft_bound la); [intros; eapply Hall; [done|lia]|].
  assert (E1 : ksum la (lb :: L) = (2 * ksum (la - 1) (lb :: L))%Z).
  { replace la with ((la - 1) + 1) at 1 by lia. by rewrite ksum_shift. }
  assert (E2 : pow2 la = (2 * pow2 (la - 1))%Z).
  { replace la with (S (la - 1)) at 1 by lia. apply pow2_S. }
  change (ksum la (la :: lb :: L))
    with (pow2 (la - la) + ksum la (lb :: L))%Z in Hk.
  change (ksum la ((la - 1) :: lb :: L))
    with (pow2 (la - (la - 1)) + ksum la (lb :: L))%Z.
  rewrite Nat.sub_diag in Hk. replace (la - (la - 1)) with 1 by lia.
  change (pow2 1) with 2%Z. change (pow2 0) with 1%Z in Hk.
  lia.
Qed.

Lemma kraft_equalize L lb : ∀ d la,
  la = lb + d → kraft (la :: lb :: L) → (∀ l, l ∈ L → l ≤ lb) →
  kraft (lb :: lb :: L).
Proof.
  induction d as [|d IH]; intros la -> Hk Hle.
  { by rewrite Nat.add_0_r in Hk. }
  apply (IH (lb + d)); [done| |done].
  replace (lb + d) with (lb + S d - 1) by lia.
  apply kraft_reduce; [done|lia|done].
Qed.

(** Two equal longest lengths merge into one that is shorter by one. *)
Lemma kraft_merge l R :
  kraft (l :: l :: R) → (∀ x, x ∈ R → x ≤ l) →
  1 ≤ l ∧ kraft ((l - 1) :: R).
Proof.
  intros Hk Hle.
  assert (Hall : ∀ y x, x ∈ y :: R → y ≤ l → x ≤ l).
  { intros y x [->|Hx]%elem_of_cons ?; [done|by apply Hle]. }
  apply (kraft_bound l) in Hk; cycle 1.
  { intros x [->|Hx]%elem_of_cons; [done|]. by eapply Hall. }
  change (ksum l (l :: l :: R))
    with (pow2 (l - l) + (pow2 (l - l) + ksum l R))%Z in Hk.
  rewrite Nat.sub_diag in Hk. change (pow2 0) with 1%Z in Hk.
  pose proof (ksum_nonneg l R).
  assert (1 ≤ l).
  { destruct l; [|lia]. change (pow2 0) with 1%Z in Hk. lia. }
  split; [done|].
  apply (kraft_bound l); [intros; eapply Hall; [done|lia]|].
  change (ksum l ((l - 1) :: R)) with (pow2 (l - (l - 1)) + ksum l R)%Z.
  replace (l - (l - 1)) with 1 by lia. change (pow2 1) with 2%Z. lia.
Qed.

End kraft_sums.

Section prefix_codes.

Lemma tails_of_elem b t ws : t ∈ tails_of b ws ↔ (b :: t) ∈ ws.
Proof.
  unfold tails_of. rewrite list_elem_of_omap. split.
  - intros ([|b' t'] & Hin & Heq); [done|].
    case_bool_decide; simplify_eq. done.
  - intros Hin. exists (b :: t). split; [done|].
    by rewrite bool_decide_eq_true_2.
Qed.

Lemma prefix_code_tails b ws : prefix_code ws → prefix_code (tails_of b ws).
Proof.
  induction ws as [|w ws IH]; intros Hpc; [done|].
  destruct Hpc as [Hw Hpc]. specialize (IH Hpc).
  unfold tails_of in *. cbn [omap list_omap].
  destruct w as [|b' t]; [done|].
  case_bool_decide; [|done]. subst b'.
  split; [|done].
  intros v Hv. apply (tails_of_elem b v ws) in Hv.
  destruct (Hw _ Hv) as [H1 H2].
  split; intros Hp; [apply H1|apply H2]; by apply prefix_cons.
Qed.

(** Without the empty word, the scaled Kraft sum splits along the first
    bit. *)
Lemma ksum_split M ws :
  [] ∉ ws →
  ksum (S M) (length <$> ws) =
    (ksum M (length <$> tails_of false ws) +
     ksum M (length <$> tails_of true ws))%Z.
Proof.
  induction ws as [|w ws IH]; intros Hne; [done|].
  apply not_elem_of_cons in Hne as [Hw Hne]. specialize (IH Hne).
  destruct w as [|[] t]; [done| |].
  - change (tails_of false ((true :: t) :: ws)) with (tails_of false ws).
    change (tails_of true ((true :: t) :: ws)) with (t :: tails_of true ws).
    rewrite !fmap_cons, !ksum_cons, IH. simpl. lia.
  - change (tails_of true ((false :: t) :: ws)) with (tails_of true ws).
    change (tails_of false ((false :: t) :: ws))
      with (t :: tails_of false ws).
    rewrite !fmap_cons, !ksum_cons, IH. simpl. lia.
Qed.

Lemma kraft_prefix_code_bound M : ∀ ws,
  prefix_code ws → (∀ w, w ∈ ws → length w ≤ M) →
  (ksum M (length <$> ws) ≤ pow2 M)%Z.
Proof.
  induction M as [|M IH]; intros ws Hpc Hlen.
  - (* every word is empty: at most one word *)
    destruct ws as [|w [|v ws]]; simpl; [done|done|].
    destruct Hpc as [Hw _]. destruct (Hw v) as [Hp _]; [by left|].
    exfalso. apply Hp.
    assert (length w ≤ 0) by (apply Hlen; by left).
    destruct w; [apply prefix_nil|simpl in *; lia].
  - destruct (decide ([] ∈ ws)) as [Hin|Hnin].
    + (* the empty word is the only word *)
      assert (ws = [[]]) as ->.
      { destruct ws as [|w ws]; [by apply elem_of_nil in Hin|].
        destruct Hpc as [Hw Hpc].
        apply elem_of_cons in Hin as [<-|Hin].
        - destruct ws as [|v ws]; [done|].
          destruct (Hw v) as [Hp _]; [by left|].
          exfalso. apply Hp, prefix_nil.
        - destruct (Hw [] Hin) as [_ Hp]. exfalso. apply Hp, prefix_nil. }
      simpl. lia.
    + rewrite ksum_split by done. rewrite pow2_S.
      assert (Hb : ∀ b, (ksum M (length <$> tails_of b ws) ≤ pow2 M)%Z).
      { intros b. apply IH; [by apply prefix_code_tails|].
        intros t Ht%tails_of_elem. apply Hlen in Ht. simpl in Ht. lia. }
      pose proof (Hb false). pose proof (Hb true). lia.
Qed.

(** Kraft's inequality for prefix-free codes. *)
Lemma kraft_prefix_code ws : prefix_code ws → kraft (length <$> ws).
Proof.
  intros Hpc. set (M := max_list (length <$> ws)).
  apply (kraft_bound M).
  { intros l Hl. by apply max_list_elem_of_le. }
  apply kraft_prefix_code_bound; [done|].
  intros w Hw. apply max_list_elem_of_le.
  by apply list_elem_of_fmap_2.
Qed.

End prefix_codes.

(** * Exchange and merge on weighted lengths *)

Section weighted_lengths.

Lemma cost_cons w l P : cost ((w, l) :: P) = (w * Z.of_nat l + cost P)%Z.
Proof. done. Qed.

Lemma cost_perm P P' : P ≡ₚ P' → cost P = cost P'.
Proof. induction 1; simpl; lia. Qed.

(** The lightest weight can take the longest length at no extra cost. *)
Lemma exchange_longest a : ∀ (R : list (Z * nat)) la,
  (∀ wl, wl ∈ R → (a ≤ wl.1)%Z) →
  ∃ la' R',
    R'.*1 = R.*1 ∧ la' :: R'.*2 ≡ₚ la :: R.*2 ∧
    (∀ l, l ∈ R'.*2 → l ≤ la') ∧
    (a * Z.of_nat la' + cost R' ≤ a * Z.of_nat la + cost R)%Z.
Proof.
  induction R as [|[x lx] R IH]; intros la Hmin.
  { exists la, []. split_and!; [done|done| |done].
    intros l Hl. by apply elem_of_nil in Hl. }
  destruct (IH la) as (la1 & R1 & Hw & Hp & Hmax & Hc).
  { intros wl Hwl. apply Hmin. by right. }
  assert (a ≤ x)%Z by (apply (Hmin (x, lx)); by left).
  destruct (decide (lx ≤ la1)) as [Hle|Hgt].
  - exists la1, ((x, lx) :: R1). rewrite !fmap_cons, !cost_cons. simpl.
    split_and!.
    + by rewrite Hw.
    + rewrite Permutation_swap, Hp. apply Permutation_swap.
    + intros l [->|Hl]%elem_of_cons; [done|by apply Hmax].
    + lia.
  - exists lx, ((x, la1) :: R1). rewrite !fmap_cons, !cost_cons. simpl.
    split_and!.
    + by rewrite Hw.
    + rewrite Hp. apply Permutation_swap.
    + intros l [->|Hl]%elem_of_cons; [lia|]. apply Hmax in Hl. lia.
    + nia.
Qed.

(** The two lightest weights [a <= b] can be merged into one weight
    [a + b]: from any lengths satisfying Kraft's inequality one gets
    lengths for the merged list that satisfy it too and cost at least
    [a + b] less. *)
Lemma merge_lightest a b la lb (R : list (Z * nat)) :
  (0 ≤ a ≤ b)%Z → (∀ wl, wl ∈ R → (b ≤ wl.1)%Z) →
  kraft (la :: lb :: R.*2) →
  ∃ m R',
    R'.*1 = R.*1 ∧ kraft (m :: R'.*2) ∧
    ((a + b) * Z.of_nat m + cost R' + a + b
       ≤ a * Z.of_nat la + b * Z.of_nat lb + cost R)%Z.
Proof.
  intros [Ha Hab] Hmin Hk.
  destruct (exchange_longest a ((b, lb) :: R) la)
    as (la1 & R1 & Hw1 & Hp1 & Hmax1 & Hc1).
  { intros wl [->|Hwl]%elem_of_cons; [done|]. apply Hmin in Hwl. lia. }
  destruct R1 as [|[b' lb1] R2]; [done|].
  csimpl in *.
  injection Hw1 as -> Hw1. rewrite ?cost_cons in Hc1.
  destruct (exchange_longest b R2 lb1)
    as (lb2 & R3 & Hw2 & Hp2 & Hmax2 & Hc2).
  { intros wl Hwl.
    assert (wl.1 ∈ R.*1) as Hin.
    { rewrite <-Hw1. by apply list_elem_of_fmap_2. }
    apply list_elem_of_fmap in Hin as (wl' & E & Hin).
    specialize (Hmin _ Hin). by rewrite <-E in Hmin. }
  assert (Hk1 : kraft (la1 :: lb2 :: R3.*2)).
  { eapply kraft_perm; [|exact Hk]. by rewrite Hp2, Hp1. }
  assert (lb2 ≤ la1) as Hle.
  { apply Hmax1. rewrite <-Hp2. by left. }
  apply (kraft_equalize _ _ (la1 - lb2)) in Hk1; [|lia|done].
  apply kraft_merge in Hk1 as [Hpos Hk2]; [|done].
  exists (lb2 - 1), R3. split_and!.
  - by rewrite Hw2.
  - done.
  - nia.
Qed.

End weighted_lengths.

(** * Forest invariants of the merge loop *)

Section sums.
Context {A : Type}.

Lemma lsum_cons (f : A → Z) x l : lsum f (x :: l) = (f x + lsum f l)%Z.
Proof. done. Qed.

Lemma lsum_app (f : A → Z) l k : lsum f (l ++ k) = (lsum f l + lsum f k)%Z.
Proof.
  induction l as [|x l IH]; [unfold lsum; simpl; lia|].
  rewrite <-app_comm_cons, !lsum_cons, IH. lia.
Qed.

Lemma lsum_perm (f : A → Z) l k : l ≡ₚ k → lsum f l = lsum f k.
Proof. induction 1; rewrite ?lsum_cons; lia. Qed.

Lemma lsum_ext (f g : A → Z) l :
  (∀ x, x ∈ l → f x = g x) → lsum f l = lsum g l.
Proof.
  induction l as [|x l IH]; intros Hfg; [done|].
  rewrite !lsum_cons, IH, (Hfg x); [done|by left|].
  intros y Hy. apply Hfg. by right.
Qed.

Lemma lsum_filter (f : A → Z) (P : A → Prop) `{∀ x, Decision (P x)} l :
  (∀ x, x ∈ l → ¬ P x → f x = 0%Z) → lsum f (filter P l) = lsum f l.
Proof.
  induction l as [|x l IH]; intros Hz; [done|].
  rewrite filter_cons, lsum_cons.
  assert (lsum f (filter P l) = lsum f l) as E.
  { apply IH. intros y Hy. apply Hz. by right. }
  destruct (decide (P x)) as [HP|HP].
  - by rewrite lsum_cons, E.
  - rewrite E, (Hz x); [done|by left|done].
Qed.

Lemma lsum_nonneg (f : A → Z) l :
  (∀ x, x ∈ l → (0 ≤ f x)%Z) → (0 ≤ lsum f l)%Z.
Proof.
  induction l as [|x l IH]; intros Hp; [done|]. rewrite lsum_cons.
  assert (0 ≤ f x)%Z by (apply Hp; by left).
  assert (0 ≤ lsum f l)%Z; [|lia]. apply IH. intros y Hy. apply Hp. by right.
Qed.

Lemma lsum_elem_le (f : A → Z) l x :
  (∀ y, y ∈ l → (0 ≤ f y)%Z) → x ∈ l → (f x ≤ lsum f l)%Z.
Proof.
  intros Hp [k Hk]%elem_of_Permutation.
  rewrite (lsum_perm f _ _ Hk), lsum_cons.
  assert (0 ≤ lsum f k)%Z; [|lia].
  apply lsum_nonneg. intros y Hy. apply Hp. rewrite Hk. by right.
Qed.

End sums.

Lemma lsum_fmap {A B} (f : B → Z) (h : A → B) l :
  lsum f (h <$> l) = lsum (f ∘ h) l.
Proof.
  induction l as [|x l IH]; [done|]. by rewrite fmap_cons, !lsum_cons, IH.
Qed.

Section tree_weights.

Lemma tree_ok_weight t : tree_ok t → freq t = weight t ∧ (0 < weight t)%Z.
Proof.
  induction t as [s f|f l IHl r IHr]; simpl; [done|].
  intros (-> & Hl & Hr).
  destruct (IHl Hl) as [-> ?], (IHr Hr) as [-> ?]. lia.
Qed.

Lemma wpl_shift t : ∀ d, wpl d t = (wpl 0 t + Z.of_nat d * weight t)%Z.
Proof.
  induction t as [s f|f l IHl r IHr]; intros d; simpl; [lia|].
  rewrite (IHl (S d)), (IHr (S d)), (IHl 1), (IHr 1). lia.
Qed.

Lemma forest_cost_zip ts : ∀ ls,
  length ts = length ls →
  forest_cost (zip ts ls) =
    (lsum (wpl 0) ts + cost (zip (weight <$> ts) ls))%Z.
Proof.
  unfold forest_cost.
  induction ts as [|t ts IH]; intros [|l ls] Hlen; try done.
  injection Hlen as Hlen.
  change (zip (t :: ts) (l :: ls)) with ((t, l) :: zip ts ls).
  rewrite fmap_cons.
  change (zip (weight t :: (weight <$> ts)) (l :: ls))
    with ((weight t, l) :: zip (weight <$> ts) ls).
  rewrite !lsum_cons, cost_cons, IH by done. simpl.
  rewrite (wpl_shift t l). lia.
Qed.

Lemma forest_cost_split (P : list (Node * nat)) :
  forest_cost P =
    (lsum (wpl 0) P.*1 + cost (zip (weight <$> P.*1) P.*2))%Z.
Proof.
  rewrite <-(zip_fst_snd P) at 1.
  apply forest_cost_zip. by rewrite !length_fmap.
Qed.

Lemma forest_cost_perm P P' : P ≡ₚ P' → forest_cost P = forest_cost P'.
Proof. apply lsum_perm. Qed.

(** Reading the weighted path length off any map of symbols to depths
    that agrees with the leaf paths. *)
Lemma wpl_depths (dep : nat → Z) t : ∀ d,
  (∀ s p, (s, p) ∈ leaf_paths t → dep s = Z.of_nat (d + length p)) →
  wpl d t = lsum (λ sf, sf.2 * dep sf.1)%Z (leaves t).
Proof.
  induction t as [s f|f l IHl r IHr]; intros d Hdep; simpl.
  - rewrite (Hdep s []); [|by left]. simpl. rewrite Nat.add_0_r. lia.
  - rewrite lsum_app, <-(IHl (S d)), <-(IHr (S d)); [done| |].
    + intros s p Hin. rewrite (Hdep s (true :: p)); [simpl; lia|].
      apply elem_of_app. right. apply list_elem_of_fmap. by exists (s, p).
    + intros s p Hin. rewrite (Hdep s (false :: p)); [simpl; lia|].
      apply elem_of_app. left. apply list_elem_of_fmap. by exists (s, p).
Qed.

End tree_weights.

Section steps.
Context (W : Z) (HW : (W < ULONG_MODULUS)%Z).

Lemma forest_ok_perm F F' : F ≡ₚ F' → forest_ok W F → forest_ok W F'.
Proof.
  intros Hp [Hall Hsum]. split; [by rewrite <-Hp|].
  by rewrite <-(lsum_perm weight _ _ Hp).
Qed.

(** What a round of the merge loop knows about the two trees it pops. *)
Lemma huff_step_facts F a b R :
  forest_ok W F → F ≡ₚ a :: b :: R →
  tree_ok a ∧ tree_ok b ∧ Forall tree_ok R ∧
  freq a = weight a ∧ freq b = weight b ∧
  (0 < weight a)%Z ∧ (0 < weight b)%Z ∧
  ((freq a + freq b) mod ULONG_MODULUS = weight a + weight b)%Z.
Proof.
  intros [Hall Hsum] Hp. rewrite Hp in Hall.
  rewrite (lsum_perm weight _ _ Hp), !lsum_cons in Hsum.
  apply Forall_cons in Hall as [Ha Hall].
  apply Forall_cons in Hall as [Hb Hall].
  destruct (tree_ok_weight a Ha) as [Ea ?], (tree_ok_weight b Hb) as [Eb ?].
  assert (0 ≤ lsum weight R)%Z.
  { apply lsum_nonneg. intros t Ht.
    rewrite Forall_forall in Hall.
    destruct (tree_ok_weight t (Hall t Ht)). lia. }
  split_and!; try done.
  rewrite Ea, Eb. apply Z.mod_small. lia.
Qed.

Lemma forest_ok_step F F' :
  forest_ok W F → huff_step F F' → forest_ok W F'.
Proof.
  intros Hok (a & b & R & Hp & _ & _ & Hp').
  destruct (huff_step_facts F a b R Hok Hp)
    as (Ha & Hb & HR & Ea & Eb & _ & _ & Emod).
  destruct Hok as [_ Hsum].
  rewrite (lsum_perm weight _ _ Hp), !lsum_cons in Hsum.
  apply (forest_ok_perm (Internal (weight a + weight b) a b :: R));
    [by rewrite Hp', Emod|].
  split.
  - constructor; [|done]. simpl. by rewrite Ea, Eb.
  - rewrite lsum_cons. simpl. lia.
Qed.

Lemma fib_inv_perm F F' : F ≡ₚ F' → fib_inv F → fib_inv F'.
Proof.
  intros Hp [m Hm]. exists m. intros t Ht. apply Hm. by rewrite Hp.
Qed.

Lemma fib_inv_step F F' :
  forest_ok W F → fib_inv F → huff_step F F' → fib_inv F'.
Proof.
  intros Hok [m Hm] (a & b & R & Hp & Hab & HbR & Hp').
  destruct (huff_step_facts F a b R Hok Hp)
    as (_ & _ & _ & Ea & Eb & Hpa & Hpb & Emod).
  destruct (Hm a) as (Hma & Hka & Hsa); [rewrite Hp; by left|].
  destruct (Hm b) as (Hmb & Hkb & Hsb); [rewrite Hp; right; by left|].
  exists (freq b). intros t Ht. rewrite Hp' in Ht.
  apply elem_of_cons in Ht as [->|Ht].
  - simpl. rewrite Emod. split_and!; try lia; done.
  - destruct (Hm t) as (Hmt & Hkt & Hst); [rewrite Hp; by do 2 right|].
    specialize (HbR t Ht). split_and!; [done|lia|done].
Qed.

Lemma fst_perm_cons {A B} (P : list (A * B)) x L :
  P.*1 ≡ₚ x :: L → ∃ l P', P ≡ₚ (x, l) :: P' ∧ P'.*1 ≡ₚ L.
Proof.
  intros Hp.
  assert (x ∈ P.*1) as Hin by (rewrite Hp; by left).
  apply list_elem_of_fmap in Hin as ([x' l] & -> & Hin).
  apply elem_of_Permutation in Hin as [P' HP'].
  exists l, P'. split; [done|].
  rewrite HP' in Hp. csimpl in Hp. by apply Permutation_cons_inv in Hp.
Qed.

Lemma opt_inv_perm K F F' : F ≡ₚ F' → opt_inv K F → opt_inv K F'.
Proof.
  intros Hp (P & HP & Hk & Hc). exists P. split; [by rewrite HP|done].
Qed.

Lemma opt_inv_step K F F' :
  forest_ok W F → opt_inv K F → huff_step F F' → opt_inv K F'.
Proof.
  intros Hok (P & HP & Hk & Hc) (a & b & R & Hp & Hab & HbR & Hp').
  destruct (huff_step_facts F a b R Hok Hp)
    as (Ha & Hb & HR & Ea & Eb & Hpa & Hpb & Emod).
  rewrite Hp in HP.
  destruct (fst_perm_cons P a (b :: R) HP) as (la & P1 & HP1 & HP1').
  destruct (fst_perm_cons P1 b R HP1') as (lb & PR & HPR & HPR').
  assert (HPab : P ≡ₚ (a, la) :: (b, lb) :: PR) by (by rewrite HP1, HPR).
  set (WR := zip (weight <$> PR.*1) PR.*2).
  assert (HWR1 : WR.*1 = weight <$> PR.*1).
  { apply fst_zip. by rewrite !length_fmap. }
  assert (HWR2 : WR.*2 = PR.*2).
  { apply snd_zip. by rewrite !length_fmap. }
  destruct (merge_lightest (weight a) (weight b) la lb WR)
    as (m & WR' & HW1 & HkW & HcW).
  - rewrite <-Ea, <-Eb. lia.
  - intros wl Hwl.
    assert (wl.1 ∈ weight <$> PR.*1) as Hin.
    { rewrite <-HWR1. by apply list_elem_of_fmap_2. }
    apply list_elem_of_fmap in Hin as (t & -> & Ht).
    rewrite HPR' in Ht. specialize (HbR t Ht).
    rewrite Forall_forall in HR.
    destruct (tree_ok_weight t (HR t Ht)) as [<- _]. lia.
  - rewrite HWR2. eapply kraft_perm; [|exact Hk]. by rewrite HPab.
  - exists ((Internal ((freq a + freq b) mod ULONG_MODULUS) a b, m)
              :: zip PR.*1 WR'.*2).
    assert (Hlen : length PR.*1 = length WR'.*2).
    { rewrite !length_fmap.
      apply (f_equal length) in HW1. rewrite HWR1, !length_fmap in HW1.
      done. }
    split_and!.
    + csimpl. rewrite fst_zip by lia. by rewrite Hp', HPR'.
    + csimpl. rewrite snd_zip by lia. done.
    + etrans; [|exact Hc].
      rewrite (forest_cost_perm _ _ HPab).
      unfold forest_cost at 1 2. rewrite !lsum_cons.
      fold (forest_cost (zip PR.*1 WR'.*2)). fold (forest_cost PR).
      rewrite forest_cost_zip by done.
      rewrite (forest_cost_split PR). fold WR.
      rewrite <-HWR1, <-HW1, zip_fst_snd. simpl.
      rewrite (wpl_shift a (S m)), (wpl_shift b (S m)),
        (wpl_shift a la), (wpl_shift b lb).
      lia.
Qed.

Lemma opt_inv_root K root :
  tree_ok root → opt_inv K [root] → (wpl 0 root ≤ K)%Z.
Proof.
  intros Hok (P & HP & _ & Hc).
  apply Permutation_singleton_r in HP.
  destruct P as [|[t l] [|??]]; try done. injection HP as ->.
  unfold forest_cost in Hc. rewrite lsum_cons in Hc.
  change (lsum _ []) with 0%Z in Hc. cbn [fst snd] in Hc.
  rewrite wpl_shift in Hc. destruct (tree_ok_weight _ Hok). nia.
Qed.

End steps.

Section fibonacci.

Lemma fib_lb_SS h : fib_lb (S (S h)) = (fib_lb (S h) + fib_lb h)%Z.
Proof. unfold fib_lb. simpl. lia. Qed.

Lemma fib_lb_pos h : (0 < fib_lb h)%Z.
Proof.
  induction (lt_wf h) as [h _ IH].
  destruct h as [|[|h]]; [done|done|].
  pose proof (IH (S h) ltac:(lia)). pose proof (IH h ltac:(lia)).
  rewrite fib_lb_SS. lia.
Qed.

Lemma fib_lb_mono_S h : (fib_lb h ≤ fib_lb (S h))%Z.
Proof.
  destruct h as [|h]; [by vm_compute|].
  rewrite fib_lb_SS. pose proof (fib_lb_pos h). lia.
Qed.

Lemma fib_lb_mono h k : h ≤ k → (fib_lb h ≤ fib_lb k)%Z.
Proof.
  induction 1 as [|k _ IH]; [done|].
  pose proof (fib_lb_mono_S k). lia.
Qed.

(** Frequencies grow like Fibonacci numbers with the height. *)
Lemma fib_height t :
  tree_ok t → sibling_ok t →
  (fib_lb (height t) ≤ freq t)%Z ∧
  (∀ h, height t = S h → (fib_lb h ≤ kid_max t)%Z).
Proof.
  induction t as [s f|f l IHl r IHr];
    cbn [tree_ok sibling_ok height freq kid_max].
  { intros ? _. split; [change (fib_lb 0) with 1%Z; lia|done]. }
  intros (-> & Hl & Hr) (Hsl & Hsr & Hkl & Hkr).
  destruct (IHl Hl Hsl) as [Hfl Hgl], (IHr Hr Hsr) as [Hfr Hgr].
  assert (Hkid : (fib_lb (height l `max` height r)
                    ≤ freq l `max` freq r)%Z).
  { destruct (Nat.max_spec (height l) (height r)) as [[_ ->]|[_ ->]]; lia. }
  split; [|by intros h [= <-]].
  destruct (Nat.max_spec (height l) (height r)) as [[Hlt E]|[Hle E]];
    rewrite E.
  - destruct (height r) as [|k] eqn:Ek; [lia|].
    specialize (Hgr k eq_refl). rewrite fib_lb_SS. lia.
  - destruct (height l) as [|k] eqn:Ek.
    + assert (height r = 0) as Er by lia. rewrite Er in Hfr.
      change (fib_lb 1) with 2%Z. change (fib_lb 0) with 1%Z in *. lia.
    + specialize (Hgl k eq_refl). rewrite fib_lb_SS. lia.
Qed.

Lemma fib_height_bound t :
  tree_ok t → sibling_ok t → (freq t < ULONG_MODULUS)%Z → height t < 92.
Proof.
  intros Hok Hs Hlt. destruct (fib_height t Hok Hs) as [Hf _].
  destruct (decide (height t < 92)) as [|Hge]; [done|].
  assert (fib_lb 92 ≤ fib_lb (height t))%Z by (apply fib_lb_mono; lia).
  assert (ULONG_MODULUS < fib_lb 92)%Z by (by vm_compute).
  lia.
Qed.

End fibonacci.

(** * Optimality of the code lengths *)

Section initial_forest.
Context (char_freq : list Z) (Hnw : no_wrap char_freq).

Local Abbreviation used_syms :=
  (filter (λ c, char_freq !!! c ≠ 0%Z) (seq 0 NUM_CHARS)).

Lemma no_wrap_nonneg c : (0 ≤ char_freq !!! c)%Z.
Proof.
  destruct Hnw as (_ & Hall & _).
  destruct (decide (c < length char_freq)) as [Hc|Hc].
  - by apply (Forall_lookup_total_1 _ _ _ Hall).
  - rewrite list_lookup_total_alt, lookup_ge_None_2 by lia. done.
Qed.

Lemma lsum_lookup_seq (l : list Z) :
  lsum (λ c, l !!! c) (seq 0 (length l)) = lsum id l.
Proof.
  induction l as [|x l IH]; [done|].
  cbn [length seq]. rewrite <-fmap_S_seq, !lsum_cons, lsum_fmap.
  rewrite <-IH. done.
Qed.

Lemma used_syms_total :
  lsum (λ c, char_freq !!! c) used_syms = lsum id char_freq.
Proof.
  destruct Hnw as (Hlen & _ & _).
  rewrite <-lsum_lookup_seq, Hlen. unfold used_syms.
  apply lsum_filter. intros c _ Hc.
  by destruct (decide (char_freq !!! c = 0%Z)).
Qed.

Lemma used_leaves_ok : forest_ok (lsum id char_freq) (used_leaves char_freq).
Proof.
  split.
  - unfold used_leaves. apply Forall_fmap, Forall_forall.
    intros c [Hc _]%list_elem_of_filter. simpl.
    pose proof (no_wrap_nonneg c). lia.
  - unfold used_leaves. rewrite lsum_fmap. apply used_syms_total.
Qed.

Lemma used_leaves_fib : fib_inv (used_leaves char_freq).
Proof.
  exists 0%Z. intros t [c [-> _]]%list_elem_of_fmap. simpl.
  pose proof (no_wrap_nonneg c). done.
Qed.

Lemma total_bits_used lens :
  total_bits char_freq lens =
  lsum (λ c, char_freq !!! c * lens c)%Z used_syms.
Proof.
  unfold total_bits, used_syms. symmetry.
  apply lsum_filter. intros c _ Hc.
  destruct (decide (char_freq !!! c = 0%Z)) as [->|]; [lia|done].
Qed.

Lemma assignment_prefix_code g :
  prefix_free_assignment char_freq g → prefix_code (g <$> used_syms).
Proof.
  intros Hg.
  assert (Hnd : NoDup used_syms) by apply NoDup_filter, NoDup_seq.
  assert (Hin : ∀ c, c ∈ used_syms → c < NUM_CHARS ∧ char_freq !!! c ≠ 0%Z).
  { intros c [? ?%elem_of_seq]%list_elem_of_filter. split; [lia|done]. }
  induction used_syms as [|c cs IH]; [done|].
  apply NoDup_cons in Hnd as [Hc Hnd]. csimpl. split.
  - intros v [c' [-> Hc']]%list_elem_of_fmap.
    destruct (Hin c) as [? ?]; [by left|].
    destruct (Hin c') as [? ?]; [by right|].
    assert (c ≠ c') by (by intros ->).
    split; apply Hg; done.
  - apply IH; [done|]. intros c' Hc'. apply Hin. by right.
Qed.

Lemma used_leaves_opt g :
  prefix_free_assignment char_freq g →
  opt_inv (total_bits char_freq (λ c, Z.of_nat (length (g c))))
          (used_leaves char_freq).
Proof.
  intros Hg.
  exists ((λ c, (Leaf c (char_freq !!! c), length (g c))) <$> used_syms).
  split_and!.
  - by rewrite <-list_fmap_compose.
  - rewrite <-list_fmap_compose.
    rewrite (list_fmap_compose g length).
    by apply kraft_prefix_code, assignment_prefix_code.
  - rewrite total_bits_used. unfold forest_cost. rewrite lsum_fmap.
    apply Z.eq_le_incl, lsum_ext. intros c _. done.
Qed.

End initial_forest.

Section optimal_tree.
Context (char_freq : list Z) (Hnw : no_wrap char_freq).

Lemma build_tree_no_wrap root :
  build_tree char_freq = Some root →
  tree_ok root ∧ height root < 92 ∧
  ∀ g, prefix_free_assignment char_freq g →
       (wpl 0 root ≤ total_bits char_freq (λ c, Z.of_nat (length (g c))))%Z.
Proof.
  intros Hb.
  assert (HW : (lsum id char_freq < ULONG_MODULUS)%Z) by apply Hnw.
  assert (Hne : used_leaves char_freq ≠ []).
  { intros E. apply build_tree_None in E. congruence. }
  set (W := lsum id char_freq) in *.
  assert (Hroot : ∀ Inv : list Node → Prop,
            (∀ F F', F ≡ₚ F' → Inv F → Inv F') →
            (∀ F F', forest_ok W F → Inv F → huff_step F F' → Inv F') →
            Inv (used_leaves char_freq) →
            forest_ok W [root] ∧ Inv [root]).
  { intros Inv Hperm Hstep Hinit.
    destruct (build_tree_inv char_freq (λ F, forest_ok W F ∧ Inv F))
      as (root' & Hb' & Hinv).
    - intros F F' Hp [? ?]. split; [by eapply forest_ok_perm|by eapply Hperm].
    - intros F F' [? ?] Hs.
      split; [by eapply (forest_ok_step W HW)|by eapply Hstep].
    - done.
    - split; [by apply used_leaves_ok|done].
    - by assert (root = root') as -> by congruence. }
  destruct (Hroot fib_inv) as [[Hok Hw] [m Hm]].
  { apply fib_inv_perm. }
  { apply (fib_inv_step W HW). }
  { by apply used_leaves_fib. }
  apply Forall_cons in Hok as [Hok _].
  rewrite lsum_cons in Hw. change (lsum weight []) with 0%Z in Hw.
  destruct (Hm root) as (_ & _ & Hsib); [by left|].
  destruct (tree_ok_weight root Hok) as [Hfw _].
  split_and!; [done| |].
  - apply fib_height_bound; [done|done|]. lia.
  - intros g Hg.
    destruct (Hroot (opt_inv (total_bits char_freq
                                (λ c, Z.of_nat (length (g c))))))
      as [_ Hopt].
    { intros F F'. apply opt_inv_perm. }
    { intros F F'. by apply (opt_inv_step W HW). }
    { by apply used_leaves_opt. }
    by eapply opt_inv_root.
Qed.

End optimal_tree.

Section path_assignment.

Lemma NoDup_fst_unique {A B} (l : list (A * B)) x y1 y2 :
  NoDup l.*1 → (x, y1) ∈ l → (x, y2) ∈ l → y1 = y2.
Proof.
  intros Hnd [i Hi]%list_elem_of_lookup [j Hj]%list_elem_of_lookup.
  assert (i = j) as ->.
  { apply (NoDup_lookup l.*1 i j x Hnd); rewrite list_lookup_fmap.
    - by rewrite Hi.
    - by rewrite Hj. }
  congruence.
Qed.

Lemma path_of_leaf t s p :
  NoDup (leaf_paths t).*1 → (s, p) ∈ leaf_paths t → path_of t s = p.
Proof.
  intros Hnd Hin. unfold path_of.
  destruct (list_find_elem_of (λ sp : nat * list bool, sp.1 = s)
              (leaf_paths t) (s, p) Hin eq_refl) as [[i [s' p']] E].
  rewrite E. apply list_find_Some in E as (Hi & Hs & _). simpl in Hs. subst s'.
  eapply NoDup_fst_unique; [done| |done].
  apply list_elem_of_lookup. by exists i.
Qed.

Lemma leaf_paths_nonempty t s p :
  2 ≤ length (leaf_paths t) → (s, p) ∈ leaf_paths t → 1 ≤ length p.
Proof.
  destruct t as [s' f|f l r]; simpl; [lia|]. intros _ Hin.
  apply elem_of_app in Hin as [Hin|Hin];
    apply list_elem_of_fmap in Hin as ([? ?] & [= -> ->] & _); simpl; lia.
Qed.

End path_assignment.

Section optimal_table.
Context (char_freq : list Z).
Context (root : Node) (Hb : build_tree char_freq = Some root).

Lemma used_symbol_path c :
  c < NUM_CHARS → char_freq !!! c ≠ 0%Z →
  (c, path_of root c) ∈ leaf_paths root.
Proof.
  intros Hc Hne.
  assert (c ∈ (leaf_paths root).*1) as Hmem.
  { by apply (build_tree_symbol_iff char_freq). }
  apply list_elem_of_fmap in Hmem as ([c' p] & -> & Hmem). simpl.
  rewrite (path_of_leaf root c' p); [done| |done].
  by apply (build_tree_symbols_NoDup char_freq).
Qed.

Lemma path_of_prefix_free : prefix_free_assignment char_freq (path_of root).
Proof.
  intros c1 c2 Hc1 Hc2 Hne Hf1 Hf2 Hpre. apply Hne.
  eapply (leaf_paths_prefix root); [|by apply used_symbol_path..|done].
  by apply (build_tree_symbols_NoDup char_freq).
Qed.

Lemma two_used_paths : two_used char_freq → 2 ≤ length (leaf_paths root).
Proof.
  intros (c1 & c2 & Hc1 & Hc2 & Hne & Hf1 & Hf2).
  pose proof (used_symbol_path c1 Hc1 Hf1) as H1.
  pose proof (used_symbol_path c2 Hc2 Hf2) as H2.
  destruct (leaf_paths root) as [|x [|y l]]; simpl; [|exfalso|lia].
  - by apply elem_of_nil in H1.
  - apply list_elem_of_singleton in H1, H2. congruence.
Qed.

Context (char_codes : list CodeEntry).
Context (Hin : ∀ s p, (s, p) ∈ leaf_paths root →
                      char_codes !! s = Some (path_entry p)).

Lemma table_len_path s p :
  (s, p) ∈ leaf_paths root →
  len (char_codes !!! s) = Z.of_nat (length p).
Proof.
  intros Hsp. by rewrite (list_lookup_total_correct _ _ _ (Hin s p Hsp)).
Qed.

Lemma total_bits_wpl :
  total_bits char_freq (λ c, len (char_codes !!! c)) = wpl 0 root.
Proof.
  rewrite (wpl_depths (λ c, len (char_codes !!! c)) root 0);
    [|intros s p Hsp; by rewrite (table_len_path s p)].
  rewrite (lsum_perm _ _ _ (build_tree_leaves char_freq root Hb)).
  rewrite lsum_fmap, total_bits_used.
  apply lsum_ext. intros c _. simpl. lia.
Qed.

End optimal_table.

(** C2, as amended.  For every frequency table of non-negative counts whose
    total is below [2^64] and that has at least two symbols of nonzero
    frequency, [build_char_codes] returns a table whose code lengths (all
    positive, and the lengths of a prefix-free code: the root-to-leaf paths)
    minimize the sum of [frequency * code length] over all prefix-free
    assignments of code words to the symbols of nonzero frequency.  In
    particular the frequencies a:5 b:9 c:12 d:13 e:16 f:45 yield the code
    lengths f:1 c:3 d:3 a:4 b:4 e:3. *)
Theorem huffman_lengths_optimal :
  (∀ char_freq : list Z,
     no_wrap char_freq → two_used char_freq →
     ∃ char_codes,
       build_char_codes char_freq = Some char_codes ∧
       (∃ g0, prefix_free_assignment char_freq g0 ∧
              ∀ c, c < NUM_CHARS → char_freq !!! c ≠ 0%Z →
                   (0 < len (char_codes !!! c))%Z ∧
                   len (char_codes !!! c) = Z.of_nat (length (g0 c))) ∧
       ∀ g, prefix_free_assignment char_freq g →
            (total_bits char_freq (λ c, len (char_codes !!! c))
             ≤ total_bits char_freq (λ c, Z.of_nat (length (g c))))%Z) ∧
  (∃ char_codes,
     build_char_codes textbook_freq = Some char_codes ∧
     len (char_codes !!! 102) = 1%Z ∧
     len (char_codes !!! 99) = 3%Z ∧
     len (char_codes !!! 100) = 3%Z ∧
     len (char_codes !!! 97) = 4%Z ∧
     len (char_codes !!! 98) = 4%Z ∧
     len (char_codes !!! 101) = 3%Z).
Proof.
  split; cycle 1.
  { exists (default [] (build_char_codes textbook_freq)).
    split; [vm_compute; reflexivity|].
    do 5 (split; [vm_compute; reflexivity|]). vm_compute. reflexivity. }
  intros char_freq Hnw Htwo.
  destruct (build_tree char_freq) as [root|] eqn:Hb; cycle 1.
  { exfalso. apply build_tree_None in Hb.
    destruct Htwo as (c1 & _ & Hc1 & _ & _ & Hf1 & _).
    assert (Leaf c1 (char_freq !!! c1) ∈ used_leaves char_freq) as Hmem.
    { unfold used_leaves. apply list_elem_of_fmap. exists c1. split; [done|].
      apply list_elem_of_filter. split; [done|]. apply elem_of_seq. lia. }
    rewrite Hb in Hmem. by apply elem_of_nil in Hmem. }
  destruct (build_tree_no_wrap char_freq Hnw root Hb) as (Hok & Hh & Hopt).
  destruct (build_char_codes_table char_freq root Hb)
    as (char_codes & E & _ & Hin & _).
  { apply stack_ok_height. unfold MAX_CODE_LEN. lia. }
  exists char_codes. split; [done|]. split.
  - exists (path_of root).
    split; [by apply (path_of_prefix_free char_freq root Hb)|].
    intros c Hc Hf.
    pose proof (used_symbol_path char_freq root Hb c Hc Hf) as Hsp.
    rewrite (table_len_path root char_codes Hin c _ Hsp).
    split; [|done].
    pose proof (two_used_paths char_freq root Hb Htwo).
    pose proof (leaf_paths_nonempty root c _ ltac:(done) Hsp). lia.
  - intros g Hg.
    rewrite (total_bits_wpl char_freq root Hb char_codes Hin).
    by apply Hopt.
Qed.

Lemma textbook_freq_no_wrap : no_wrap textbook_freq.
Proof.
  split; [reflexivity|]. split.
  - apply (bool_decide_unpack _). vm_compute. exact I.
  - vm_compute. reflexivity.
Qed.

Lemma textbook_freq_two_used : two_used textbook_freq.
Proof.
  exists 97, 98. unfold NUM_CHARS.
  split_and!; [lia|lia|lia|vm_compute; discriminate..].
Qed.

Lemma huffman_lengths_optimal_witness :
  ∃ char_codes,
    build_char_codes textbook_freq = Some char_codes ∧
    (∃ g0, prefix_free_assignment textbook_freq g0 ∧
           ∀ c, c < NUM_CHARS → textbook_freq !!! c ≠ 0%Z →
                (0 < len (char_codes !!! c))%Z ∧
                len (char_codes !!! c) = Z.of_nat (length (g0 c))) ∧
    ∀ g, prefix_free_assignment textbook_freq g →
         (total_bits textbook_freq (λ c, len (char_codes !!! c))
          ≤ total_bits textbook_freq (λ c, Z.of_nat (length (g c))))%Z.
Proof.
  apply (proj1 huffman_lengths_optimal textbook_freq).
  - apply textbook_freq_no_wrap.
  - apply textbook_freq_two_used.
Defined.

Lemma wrap_freq_used c : wrap_freq !!! c ≠ 0%Z → c < 4.
Proof.
  intros Hne. destruct (decide (c < 4)) as [|Hge]; [done|]. exfalso.
  apply Hne. unfold wrap_freq.
  rewrite lookup_total_app_r by (rewrite length_replicate; lia).
  rewrite list_lookup_total_alt.
  destruct (replicate _ _ !! _) as [x|] eqn:E; [|done].
  by apply lookup_replicate in E as [-> _].
Qed.

(** C2, as stated, fails on [wrap_freq]: four symbols seen [2^63] times each.
    The first merge stores frequency [2^64 mod 2^64 = 0], the tree degenerates
    into a chain with code lengths 3, 1, 2, 3, and the balanced two-bit code
    is prefix-free and cheaper. *)
Lemma huffman_not_optimal_on_wrap :
  two_used wrap_freq ∧
  ∃ char_codes,
    build_char_codes wrap_freq = Some char_codes ∧
    (len <$> take 4 char_codes) = [3; 1; 2; 3]%Z ∧
    prefix_free_assignment wrap_freq balanced4 ∧
    (total_bits wrap_freq (λ c, Z.of_nat (length (balanced4 c)))
     < total_bits wrap_freq (λ c, len (char_codes !!! c)))%Z.
Proof.
  split.
  { exists 0, 1. unfold NUM_CHARS.
    split_and!; [lia|lia|lia|vm_compute; discriminate..]. }
  exists (default [] (build_char_codes wrap_freq)).
  split; [vm_compute; reflexivity|].
  split; [vm_compute; reflexivity|].
  split; [|vm_compute; reflexivity].
  intros c1 c2 _ _ Hne H1%wrap_freq_used H2%wrap_freq_used.
  assert (c1 = 0 ∨ c1 = 1 ∨ c1 = 2 ∨ c1 = 3) as Hc1 by lia.
  assert (c2 = 0 ∨ c2 = 1 ∨ c2 = 2 ∨ c2 = 3) as Hc2 by lia.
  destruct Hc1 as [-> | [-> | [-> | ->]]], Hc2 as [-> | [-> | [-> | ->]]];
    try done; by intros [k ?].
Qed.

(** * The program's own command table *)

Lemma COMMANDS_no_wrap : no_wrap (count_char_freq COMMANDS).
Proof.
  split; [reflexivity|]. split.
  - apply (bool_decide_unpack _). vm_compute. exact I.
  - vm_compute. reflexivity.
Qed.

Lemma COMMANDS_width : code_width_ok (count_char_freq COMMANDS).
Proof.
  intros root Hb. vm_compute in Hb. injection Hb as <-. vm_compute. lia.
Qed.

(** Every command of the table encodes, and into at most [TARGET_BITS]
    bits. *)
Lemma COMMANDS_fit :
  ∃ results,
    main_results = Some results ∧ length results = NUM_COMMANDS ∧
    Forall (λ r, (r.1 ≤ TARGET_BITS)%Z) results.
Proof.
  exists (default [] main_results). split; [vm_compute; reflexivity|].
  split; [vm_compute; reflexivity|].
  apply (bool_decide_unpack _). vm_compute. exact I.
Qed.

(** * Further facts about the model *)

Section stack_overrun.

Lemma stack_ok_dec k t : Decision (stack_ok k t).
Proof.
  revert k. induction t as [s f|f l IHl r IHr]; intros k; simpl.
  - left. exact I.
  - destruct (decide (k + 2 ≤ MAX_CODE_LEN * 2)) as [Hk|Hk];
      [|right; tauto].
    destruct (IHl (k + 1)) as [Hl|Hl]; [|right; tauto].
    destruct (IHr k) as [Hr|Hr]; [left; tauto|right; tauto].
Qed.

(** The traversal has no defined result exactly when it would write past
    the end of its stack. *)
Lemma assign_loop_overrun t : ∀ fuel c n stack char_codes,
  ¬ stack_ok (length stack) t → node_count t ≤ fuel →
  assign_loop fuel (mkFrame t c n :: stack) char_codes = None.
Proof.
  induction t as [s f|f l IHl r IHr];
    intros fuel c n stack char_codes Hbad Hfuel; simpl in Hbad, Hfuel.
  { by destruct Hbad. }
  destruct fuel as [|fuel]; [lia|].
  cbn [assign_loop f_n f_code f_len]. unfold stack_push. cbn [length].
  destruct (length stack <? MAX_CODE_LEN * 2) eqn:E1; [|done].
  cbn [mbind option_bind length].
  destruct (S (length stack) <? MAX_CODE_LEN * 2) eqn:E2; [|done].
  cbn [mbind option_bind].
  apply Nat.ltb_lt in E1, E2. unfold MAX_CODE_LEN in E1, E2, Hbad.
  destruct (stack_ok_dec (length stack + 1) l) as [Hl|Hl].
  - rewrite assign_loop_frame;
      [|by rewrite Nat.add_1_r in Hl|lia].
    apply IHr; [|lia]. intros Hr. apply Hbad. split_and!; [lia|done|done].
  - apply IHl; [|lia]. simpl. by rewrite Nat.add_1_r in Hl.
Qed.

Lemma build_char_codes_None char_freq root :
  build_tree char_freq = Some root →
  build_char_codes char_freq = None ↔ ¬ stack_ok 0 root.
Proof.
  intros Hb. rewrite build_char_codes_tree, Hb. split.
  - intros E Hok. by rewrite assign_loop_root in E.
  - intros Hbad. by apply assign_loop_overrun.
Qed.

End stack_overrun.

Section counting.

Lemma count_string_table p : ∀ char_freq,
  length char_freq = NUM_CHARS →
  Forall (λ f, (0 ≤ f < ULONG_MODULUS)%Z) char_freq →
  length (count_string p char_freq) = NUM_CHARS ∧
  Forall (λ f, (0 ≤ f < ULONG_MODULUS)%Z) (count_string p char_freq).
Proof.
  induction p as [|ch p IH]; intros char_freq Hlen Hall; simpl; [done|].
  destruct (Ascii.eqb ch zero); [done|].
  apply IH; [by rewrite length_insert|].
  apply Forall_insert; [done|].
  apply Z.mod_pos_bound. done.
Qed.

(** Counting yields a table of 256 [unsigned long] values. *)
Lemma count_char_freq_table commands :
  length (count_char_freq commands) = NUM_CHARS ∧
  Forall (λ f, (0 ≤ f < ULONG_MODULUS)%Z) (count_char_freq commands).
Proof.
  unfold count_char_freq.
  assert (Hinit : length (replicate NUM_CHARS 0%Z) = NUM_CHARS ∧
            Forall (λ f, (0 ≤ f < ULONG_MODULUS)%Z)
                   (replicate NUM_CHARS 0%Z)).
  { split; [apply length_replicate|]. by apply Forall_replicate. }
  revert Hinit. generalize (replicate NUM_CHARS 0%Z).
  induction commands as [|cmd commands IH]; intros tab [Hlen Hall]; [done|].
  simpl. apply IH. by apply count_string_table.
Qed.

End counting.

Section completeness.

(** With at least two symbols in use and a tree shallower than the
    traversal stack, every symbol in use gets a code of positive length. *)
Lemma build_char_codes_complete char_freq root :
  build_tree char_freq = Some root → height root < MAX_CODE_LEN * 2 →
  two_used char_freq →
  ∃ char_codes,
    build_char_codes char_freq = Some char_codes ∧
    ∀ c, c < NUM_CHARS → char_freq !!! c ≠ 0%Z →
         (0 < len (char_codes !!! c))%Z.
Proof.
  intros Hb Hh Htwo.
  destruct (build_char_codes_table char_freq root Hb)
    as (char_codes & E & _ & Hin & _); [by apply stack_ok_height|].
  exists char_codes. split; [done|]. intros c Hc Hf.
  pose proof (used_symbol_path char_freq root Hb c Hc Hf) as Hsp.
  rewrite (table_len_path root char_codes Hin c _ Hsp).
  pose proof (two_used_paths char_freq root Hb Htwo).
  pose proof (leaf_paths_nonempty root c _ ltac:(done) Hsp). lia.
Qed.

End completeness.

Section capacities.

(** The heap array of [MAX_HEAP] cells is never full: at most one leaf per
    character is pushed, and the merge loop only shrinks the heap. *)
Lemma used_leaves_length char_freq :
  length (used_leaves char_freq) ≤ NUM_CHARS ∧ NUM_CHARS < MAX_HEAP.
Proof.
  split; [|unfold MAX_HEAP, NUM_CHARS; lia].
  unfold used_leaves. rewrite length_fmap.
  etrans; [apply length_filter|]. by rewrite length_seq.
Qed.

(** The bit string printed for a command has as many bits as
    [encode_command] counts. *)
Lemma print_command_bits_length (char_codes : list CodeEntry) cmd :
  (∀ c, c ∈ cmd_chars cmd → (0 ≤ len (char_codes !!! c))%Z) →
  Z.of_nat (length (print_command_bits char_codes cmd))
    = sum_lens char_codes (cmd_chars cmd).
Proof.
  induction cmd as [|ch cmd IH]; intros Hpos; simpl in *; [done|].
  destruct (Ascii.eqb ch zero); [done|]. simpl.
  rewrite length_app, Nat2Z.inj_add, IH
    by (intros c Hc; apply Hpos; by right).
  unfold print_char_code.
  rewrite length_map, length_rev, length_seq.
  rewrite Z2Nat.id; [done|]. apply Hpos. by left.
Qed.

End capacities.

(** * Further properties: the heap *)

Lemma is_heap_nil : is_heap [].
Proof. intros j x y _ Hx. by rewrite lookup_nil in Hx. Qed.

Lemma is_heap_heap3 : is_heap heap3.
Proof. apply heap_push_heap, heap_push_heap, heap_push_heap, is_heap_nil. Qed.

(** X1. On a heap of fewer than [MAX_HEAP] cells that is in heap order,
    [heap_push] stays inside the array and keeps the heap order, and the new
    heap holds exactly the old nodes and the pushed one. *)
Theorem heap_push_keeps_heap (n : Node) (heap : list Node) :
  length heap < MAX_HEAP → is_heap heap →
  length (heap_push n heap) ≤ MAX_HEAP ∧
  is_heap (heap_push n heap) ∧ heap_push n heap ≡ₚ n :: heap.
Proof.
  intros Hcap Hh. split; [rewrite heap_push_length; lia|].
  split; [by apply heap_push_heap|apply heap_push_perm].
Qed.

Lemma heap_push_keeps_heap_witness :
  length (heap_push (Leaf 100 1) heap3) ≤ MAX_HEAP ∧
  is_heap (heap_push (Leaf 100 1) heap3) ∧
  heap_push (Leaf 100 1) heap3 ≡ₚ Leaf 100 1 :: heap3.
Proof.
  apply (heap_push_keeps_heap (Leaf 100 1) heap3).
  - apply Nat.ltb_lt. vm_compute. reflexivity.
  - apply is_heap_heap3.
Defined.

(** X2. [heap_pop] on a non-empty heap in heap order returns a node of least
    frequency; what is left is in heap order and holds exactly the other
    nodes. *)
Theorem heap_pop_least (heap : list Node) :
  is_heap heap → heap ≠ [] →
  ∃ top heap',
    heap_pop heap = Some (top, heap') ∧
    heap ≡ₚ top :: heap' ∧
    is_heap heap' ∧
    ∀ x, x ∈ heap → (freq top ≤ freq x)%Z.
Proof.
  intros Hh Hne.
  destruct (heap_pop_Some heap) as [[top heap'] Hpop].
  { destruct heap; [done|simpl; lia]. }
  destruct (heap_pop_spec _ _ _ Hpop) as [Hperm Hrest].
  destruct (Hrest Hh) as [Hh' Hmin].
  exists top, heap'. split; [done|]. split; [done|]. split; [done|].
  intros x Hx. rewrite Hperm in Hx.
  apply elem_of_cons in Hx as [->|Hx]; [lia|by apply Hmin].
Qed.

Lemma heap_pop_least_witness :
  ∃ top heap',
    heap_pop heap3 = Some (top, heap') ∧
    heap3 ≡ₚ top :: heap' ∧
    is_heap heap' ∧
    ∀ x, x ∈ heap3 → (freq top ≤ freq x)%Z.
Proof.
  apply (heap_pop_least heap3).
  - apply is_heap_heap3.
  - vm_compute. discriminate.
Defined.

(** X3. One round of the merge loop on a heap of at least two trees takes out
    two trees [a] and [b] of least frequency and puts back their parent,
    whose frequency is the sum modulo [2^64]; the heap order is kept. *)
Theorem merge_step_two_least (heap : list Node) :
  is_heap heap → 2 ≤ length heap →
  ∃ a b rest heap',
    merge_step heap = Some heap' ∧
    heap ≡ₚ a :: b :: rest ∧
    (freq a ≤ freq b)%Z ∧
    (∀ x, x ∈ rest → (freq b ≤ freq x)%Z) ∧
    heap' ≡ₚ Internal ((freq a + freq b) mod ULONG_MODULUS) a b :: rest ∧
    is_heap heap'.
Proof.
  intros Hh Hlen.
  destruct (merge_step_spec heap Hh Hlen) as (h' & Hm & Hh' & Hstep & _).
  destruct Hstep as (a & b & R & HF & Hab & HR & HF').
  exists a, b, R, h'. repeat (split; [done|]). done.
Qed.

Lemma merge_step_two_least_witness :
  ∃ a b rest heap',
    merge_step heap3 = Some heap' ∧
    heap3 ≡ₚ a :: b :: rest ∧
    (freq a ≤ freq b)%Z ∧
    (∀ x, x ∈ rest → (freq b ≤ freq x)%Z) ∧
    heap' ≡ₚ Internal ((freq a + freq b) mod ULONG_MODULUS) a b :: rest ∧
    is_heap heap'.
Proof.
  apply (merge_step_two_least heap3).
  - apply is_heap_heap3.
  - vm_compute. lia.
Defined.

(** * Further properties: frequency counting *)

Lemma nat_of_ascii_lt ch : nat_of_ascii ch < NUM_CHARS.
Proof. apply nat_ascii_bounded. Qed.

Lemma nat_of_ascii_nonzero ch : ch ≠ zero → nat_of_ascii ch ≠ 0.
Proof.
  intros Hne E. apply Hne.
  rewrite <- (ascii_nat_embedding ch), E. reflexivity.
Qed.

Lemma cmd_chars_bound p c : c ∈ cmd_chars p → 0 < c < NUM_CHARS.
Proof.
  induction p as [|ch p IH]; simpl; [by intros ?%elem_of_nil|].
  destruct (Ascii.eqb_spec ch zero) as [->|Hne]; [by intros ?%elem_of_nil|].
  intros [->|?]%elem_of_cons; [|by apply IH].
  pose proof (nat_of_ascii_lt ch). pose proof (nat_of_ascii_nonzero ch Hne). lia.
Qed.

Lemma all_chars_bound commands c : c ∈ all_chars commands → 0 < c < NUM_CHARS.
Proof.
  unfold all_chars. intros (cmd & Hc & _)%list_elem_of_bind.
  by apply cmd_chars_bound in Hc.
Qed.

Lemma all_chars_cons cmd commands :
  all_chars (cmd :: commands) = cmd_chars cmd ++ all_chars commands.
Proof. reflexivity. Qed.

Lemma occurrences_cons c x cs :
  occurrences c (x :: cs) = (if decide (x = c) then 1 else 0) + occurrences c cs.
Proof.
  unfold occurrences. rewrite filter_cons. by destruct (decide (x = c)).
Qed.

Lemma occurrences_app c cs1 cs2 :
  occurrences c (cs1 ++ cs2) = occurrences c cs1 + occurrences c cs2.
Proof. unfold occurrences. by rewrite filter_app, length_app. Qed.

Lemma occurrences_perm c cs1 cs2 :
  cs1 ≡ₚ cs2 → occurrences c cs1 = occurrences c cs2.
Proof. unfold occurrences. by intros ->. Qed.

Lemma occurrences_none c cs : c ∉ cs → occurrences c cs = 0.
Proof.
  induction cs as [|x cs IH]; [done|].
  rewrite not_elem_of_cons, occurrences_cons. intros [Hne Hc].
  rewrite decide_False by done. by rewrite IH.
Qed.

Lemma occurrences_le c cs : occurrences c cs ≤ length cs.
Proof. apply length_filter. Qed.

Lemma insert_lookup_total_Z (l : list Z) (k c : nat) (v : Z) :
  k < length l →
  <[k := v]> l !!! c = if decide (k = c) then v else l !!! c.
Proof.
  intros Hk. destruct (decide (k = c)) as [->|Hne].
  - by apply list_lookup_total_insert_eq.
  - by apply list_lookup_total_insert_ne.
Qed.

Lemma count_string_mod p c : ∀ char_freq,
  length char_freq = NUM_CHARS →
  ((count_string p char_freq !!! c) mod ULONG_MODULUS =
   (char_freq !!! c + Z.of_nat (occurrences c (cmd_chars p))) mod ULONG_MODULUS)%Z.
Proof.
  induction p as [|ch p IH]; intros cf Hlen; simpl.
  { f_equal. unfold occurrences. simpl. lia. }
  destruct (Ascii.eqb_spec ch zero) as [->|Hne].
  { f_equal. unfold occurrences. simpl. lia. }
  rewrite IH by (by rewrite length_insert).
  rewrite occurrences_cons.
  pose proof (nat_of_ascii_lt ch) as Hb.
  rewrite insert_lookup_total_Z by lia.
  destruct (decide (nat_of_ascii ch = c)) as [->|Hne'].
  - rewrite Zplus_mod_idemp_l. f_equal. lia.
  - f_equal.
Qed.

Lemma count_fold_mod commands c : ∀ char_freq,
  length char_freq = NUM_CHARS →
  Forall (λ f, (0 ≤ f < ULONG_MODULUS)%Z) char_freq →
  ((foldl (λ cf cmd, count_string cmd cf) char_freq commands !!! c)
     mod ULONG_MODULUS =
   (char_freq !!! c + Z.of_nat (occurrences c (all_chars commands)))
     mod ULONG_MODULUS)%Z.
Proof.
  induction commands as [|cmd commands IH]; intros cf Hlen Hr; cbn [foldl].
  { f_equal. unfold all_chars, occurrences. simpl. lia. }
  destruct (count_string_table cmd cf Hlen Hr) as [Hlen' Hr'].
  rewrite IH by done.
  rewrite all_chars_cons, occurrences_app.
  rewrite <- Zplus_mod_idemp_l, count_string_mod by done.
  rewrite Zplus_mod_idemp_l. f_equal. lia.
Qed.

Lemma table_entry_range (char_freq : list Z) c :
  Forall (λ f, (0 ≤ f < ULONG_MODULUS)%Z) char_freq →
  (0 ≤ char_freq !!! c < ULONG_MODULUS)%Z.
Proof.
  intros Hr. destruct (char_freq !! c) as [f|] eqn:E.
  - rewrite (list_lookup_total_correct _ _ _ E).
    by apply (Forall_lookup_1 _ _ _ _ Hr E).
  - rewrite list_lookup_total_alt, E. simpl. unfold ULONG_MODULUS. lia.
Qed.

Lemma count_char_freq_occurrences commands c :
  count_char_freq commands !!! c =
  (Z.of_nat (occurrences c (all_chars commands)) mod ULONG_MODULUS)%Z.
Proof.
  destruct (count_char_freq_table commands) as [Hlen Hr].
  pose proof (table_entry_range _ c Hr) as Hc.
  rewrite <- (Z.mod_small _ _ Hc). unfold count_char_freq.
  rewrite count_fold_mod.
  - f_equal. destruct (decide (c < NUM_CHARS)).
    + rewrite lookup_total_replicate_2 by done. lia.
    + rewrite list_lookup_total_alt.
      rewrite (proj1 (lookup_replicate_None NUM_CHARS 0%Z c)) by lia.
      simpl. lia.
  - apply length_replicate.
  - apply Forall_replicate. unfold ULONG_MODULUS. lia.
Qed.

(** X4. [count_char_freq] counts: the entry of character [c] is the number of
    times [c] occurs in the commands, each read up to its first NUL, modulo
    [2^64]. *)
Theorem count_char_freq_counts (commands : list string) (c : nat) :
  count_char_freq commands !!! c =
  (Z.of_nat (occurrences c (all_chars commands)) mod ULONG_MODULUS)%Z.
Proof. apply count_char_freq_occurrences. Qed.

(** X5. The table of [count_char_freq] does not depend on the order of the
    commands. *)
Theorem count_char_freq_order (commands1 commands2 : list string) :
  commands1 ≡ₚ commands2 →
  count_char_freq commands1 = count_char_freq commands2.
Proof.
  intros Hp.
  destruct (count_char_freq_table commands1) as [Hlen1 _].
  destruct (count_char_freq_table commands2) as [Hlen2 _].
  apply list_eq_same_length with NUM_CHARS; [done..|].
  intros i x y Hi Hx Hy.
  apply list_lookup_total_correct in Hx, Hy.
  rewrite <- Hx, <- Hy, !count_char_freq_occurrences.
  do 2 f_equal. apply occurrences_perm. unfold all_chars. by rewrite Hp.
Qed.

Lemma count_char_freq_order_witness :
  count_char_freq ["ab"; "c"]%string = count_char_freq ["c"; "ab"]%string.
Proof.
  apply (count_char_freq_order ["ab"; "c"]%string ["c"; "ab"]%string).
  apply Permutation_swap.
Defined.

(** X6. The table of [count_char_freq] has 256 entries, each in
    [0, 2^64); the entry of NUL is 0, and an entry is nonzero only for a
    character that occurs in some command. *)
Theorem count_char_freq_shape (commands : list string) :
  length (count_char_freq commands) = NUM_CHARS ∧
  (∀ c, (0 ≤ count_char_freq commands !!! c < ULONG_MODULUS)%Z) ∧
  count_char_freq commands !!! 0 = 0%Z ∧
  (∀ c, count_char_freq commands !!! c ≠ 0%Z → c ∈ all_chars commands).
Proof.
  destruct (count_char_freq_table commands) as [Hlen Hr].
  split; [done|]. split; [intros c; by apply table_entry_range|].
  assert (∀ c, c ∉ all_chars commands → count_char_freq commands !!! c = 0%Z)
    as Hz.
  { intros c Hc. rewrite count_char_freq_occurrences, occurrences_none by done.
    done. }
  split.
  - apply Hz. intros H0%all_chars_bound. lia.
  - intros c Hc. destruct (decide (c ∈ all_chars commands)) as [|Hn]; [done|].
    by apply Hz in Hn.
Qed.

(** * Further properties: the tree and the code table *)

Lemma height_lt_leaves t : height t < length (leaves t).
Proof.
  induction t as [s f|f l IHl r IHr]; simpl; [lia|].
  rewrite length_app. lia.
Qed.

Lemma node_count_leaves t : node_count t = 2 * length (leaves t) - 1.
Proof.
  induction t as [s f|f l IHl r IHr]; simpl; [done|].
  rewrite length_app.
  pose proof (leaves_length l). pose proof (leaves_length r). lia.
Qed.

Lemma weight_leaves t : weight t = lsum snd (leaves t).
Proof.
  induction t as [s f|f l IHl r IHr]; simpl; [lia|].
  by rewrite lsum_app, IHl, IHr.
Qed.

Lemma build_tree_leaves_count char_freq root :
  build_tree char_freq = Some root → length (leaves root) ≤ NUM_CHARS.
Proof.
  intros Hb. rewrite (build_tree_leaves char_freq root Hb), length_fmap.
  etrans; [apply length_filter|]. by rewrite length_seq.
Qed.

Lemma build_tree_height char_freq root :
  build_tree char_freq = Some root → height root < NUM_CHARS.
Proof.
  intros Hb. pose proof (height_lt_leaves root).
  pose proof (build_tree_leaves_count char_freq root Hb). lia.
Qed.

Lemma used_leaves_nil char_freq :
  used_leaves char_freq = [] ↔ ∀ c, c < NUM_CHARS → char_freq !!! c = 0%Z.
Proof.
  unfold used_leaves. split.
  - intros E c Hc. apply fmap_nil_inv in E.
    destruct (decide (char_freq !!! c = 0%Z)) as [|Hne]; [done|].
    assert (c ∈ filter (λ c, char_freq !!! c ≠ 0%Z) (seq 0 NUM_CHARS)) as Hin.
    { apply list_elem_of_filter. split; [done|]. apply elem_of_seq. lia. }
    rewrite E in Hin. by apply elem_of_nil in Hin.
  - intros Hz. rewrite filter_none; [done|].
    intros c Hc%elem_of_seq Hne. apply Hne, Hz. lia.
Qed.

Lemma build_tree_None_zero char_freq :
  build_tree char_freq = None ↔ ∀ c, c < NUM_CHARS → char_freq !!! c = 0%Z.
Proof. by rewrite build_tree_None, used_leaves_nil. Qed.

(** What a returned table looks like: either no symbol is in use and the
    table is all zero, or it records the root-to-leaf paths of the tree. *)
Lemma build_char_codes_cases char_freq char_codes :
  build_char_codes char_freq = Some char_codes →
  (build_tree char_freq = None ∧ char_codes = zero_codes) ∨
  ∃ root,
    build_tree char_freq = Some root ∧ stack_ok 0 root ∧
    length char_codes = NUM_CHARS ∧
    (∀ s p, (s, p) ∈ leaf_paths root →
            char_codes !! s = Some (path_entry p)) ∧
    (∀ s, s < NUM_CHARS → s ∉ (leaf_paths root).*1 →
          char_codes !! s = Some (mkCodeEntry 0 0)).
Proof.
  intros E. destruct (build_tree char_freq) as [root|] eqn:Hb.
  - right. exists root. split; [done|].
    destruct (stack_ok_dec 0 root) as [Hok|Hbad].
    + destruct (build_char_codes_table char_freq root Hb Hok)
        as (tbl & E' & Hlen & Hin & Hout).
      assert (tbl = char_codes) as -> by congruence. done.
    + apply (build_char_codes_None char_freq root Hb) in Hbad. congruence.
  - left. split; [done|]. rewrite build_char_codes_tree, Hb in E. congruence.
Qed.

(** X7. The tree of [build_char_codes]: there is none exactly when every
    frequency is 0; otherwise its leaves are the characters of nonzero
    frequency, each once and with its frequency, and it has one node less
    than twice as many nodes as leaves. *)
Theorem build_tree_leaves_used (char_freq : list Z) :
  (build_tree char_freq = None ↔
   ∀ c, c < NUM_CHARS → char_freq !!! c = 0%Z) ∧
  ∀ root, build_tree char_freq = Some root →
    leaves root ≡ₚ
      (λ c, (c, char_freq !!! c)) <$>
        filter (λ c, char_freq !!! c ≠ 0%Z) (seq 0 NUM_CHARS) ∧
    NoDup (leaves root).*1 ∧
    node_count root = 2 * length (leaves root) - 1.
Proof.
  split.
  - apply build_tree_None_zero.
  - intros root Hb. split; [by apply build_tree_leaves|]. split.
    + rewrite <- leaf_paths_symbols. by apply (build_tree_symbols_NoDup char_freq).
    + apply node_count_leaves.
Qed.

(** X8. When the counts are non-negative and their total is below [2^64],
    every internal node of the tree holds the exact sum of its children, the
    root holds the total, the tree is less than 92 levels deep, and
    [build_char_codes] returns a table. *)
Theorem no_wrap_tree_exact (char_freq : list Z) (root : Node) :
  no_wrap char_freq → build_tree char_freq = Some root →
  tree_ok root ∧ freq root = lsum id char_freq ∧ height root < 92 ∧
  is_Some (build_char_codes char_freq).
Proof.
  intros Hnw Hb.
  destruct (build_tree_no_wrap char_freq Hnw root Hb) as (Hok & Hh & _).
  split; [done|]. split; [|split; [done|]].
  - destruct (tree_ok_weight root Hok) as [-> _].
    rewrite weight_leaves, (lsum_perm _ _ _ (build_tree_leaves char_freq root Hb)).
    rewrite lsum_fmap, <- (used_syms_total char_freq Hnw). done.
  - destruct (build_char_codes_table char_freq root Hb) as (tbl & -> & _); [|done].
    apply stack_ok_height. unfold MAX_CODE_LEN. lia.
Qed.

Lemma no_wrap_tree_exact_witness :
  tree_ok textbook_tree ∧ freq textbook_tree = lsum id textbook_freq ∧
  height textbook_tree < 92 ∧ is_Some (build_char_codes textbook_freq).
Proof.
  apply (no_wrap_tree_exact textbook_freq textbook_tree).
  - apply textbook_freq_no_wrap.
  - vm_compute. reflexivity.
Defined.

Lemma path_entry_range p :
  (0 ≤ code (path_entry p) < ULONG_MODULUS)%Z ∧
  len (path_entry p) = Z.of_nat (length p).
Proof.
  split; [|done]. simpl. apply Z.mod_pos_bound. unfold ULONG_MODULUS. lia.
Qed.

Lemma build_char_codes_entry char_freq char_codes c :
  build_char_codes char_freq = Some char_codes → c < NUM_CHARS →
  (char_freq !!! c = 0%Z → char_codes !!! c = mkCodeEntry 0 0) ∧
  (0 ≤ len (char_codes !!! c) ≤ 255)%Z ∧
  (0 ≤ code (char_codes !!! c) < ULONG_MODULUS)%Z.
Proof.
  intros E Hc.
  destruct (build_char_codes_cases _ _ E)
    as [[Hb ->]|(root & Hb & Hok & Hlen & Hin & Hout)].
  { unfold zero_codes. rewrite lookup_total_replicate_2 by done. simpl.
    unfold ULONG_MODULUS. split; [done|lia]. }
  pose proof (build_tree_height char_freq root Hb) as Hh.
  destruct (table_entry_cases char_freq root char_codes c Hb Hin Hout Hc)
    as [(p & Hp & Ec)|Ec]; apply list_lookup_total_correct in Ec; rewrite Ec.
  - pose proof (leaf_paths_length root c p Hp) as Hlp.
    destruct (path_entry_range p) as [Hcode ->].
    split; [|split; [unfold NUM_CHARS in Hh; lia|done]].
    intros Hz. exfalso.
    assert (c ∈ (leaf_paths root).*1) as Hmem.
    { apply list_elem_of_fmap. by exists (c, p). }
    apply (build_tree_symbol_iff char_freq root c Hb) in Hmem. tauto.
  - simpl. unfold ULONG_MODULUS. split; [done|lia].
Qed.

Lemma build_char_codes_length char_freq char_codes :
  build_char_codes char_freq = Some char_codes →
  length char_codes = NUM_CHARS.
Proof.
  intros E.
  destruct (build_char_codes_cases _ _ E)
    as [[Hb ->]|(root & Hb & Hok & Hlen & Hin & Hout)]; [|done].
  apply length_replicate.
Qed.

(** X9. Every table [build_char_codes] returns has 256 entries; the entry of a
    character of frequency 0 is code 0, length 0; every length is between 0
    and 255 and every code is below [2^64]. *)
Theorem build_char_codes_shape (char_freq : list Z) (char_codes : list CodeEntry) :
  build_char_codes char_freq = Some char_codes →
  length char_codes = NUM_CHARS ∧
  ∀ c, c < NUM_CHARS →
    (char_freq !!! c = 0%Z → char_codes !!! c = mkCodeEntry 0 0) ∧
    (0 ≤ len (char_codes !!! c) ≤ 255)%Z ∧
    (0 ≤ code (char_codes !!! c) < ULONG_MODULUS)%Z.
Proof.
  intros E. split; [by apply (build_char_codes_length char_freq)|].
  intros c Hc. by apply build_char_codes_entry.
Qed.

Lemma build_char_codes_shape_witness :
  length abc_codes = NUM_CHARS ∧
  ∀ c, c < NUM_CHARS →
    (abc_freq !!! c = 0%Z → abc_codes !!! c = mkCodeEntry 0 0) ∧
    (0 ≤ len (abc_codes !!! c) ≤ 255)%Z ∧
    (0 ≤ code (abc_codes !!! c) < ULONG_MODULUS)%Z.
Proof.
  apply (build_char_codes_shape abc_freq abc_codes). vm_compute. reflexivity.
Defined.

(** * Further properties: completeness and monotonicity of the code *)

Lemma ksum_S M ls : ksum (S M) (S <$> ls) = ksum M ls.
Proof.
  induction ls as [|l ls IH]; [done|].
  rewrite fmap_cons, !ksum_cons, IH. done.
Qed.

Lemma ksum_app M ls1 ls2 : ksum M (ls1 ++ ls2) = (ksum M ls1 + ksum M ls2)%Z.
Proof.
  induction ls1 as [|l ls1 IH]; [done|].
  rewrite <- app_comm_cons, !ksum_cons, IH. lia.
Qed.

(** The leaf depths of a binary tree in which every internal node has two
    children have Kraft sum exactly 1. *)
Lemma kraft_tree t : ∀ M,
  height t ≤ M → ksum M ((λ sp, length sp.2) <$> leaf_paths t) = pow2 M.
Proof.
  induction t as [s f|f l IHl r IHr]; intros M HM.
  { simpl. rewrite Nat.sub_0_r. lia. }
  simpl in HM. destruct M as [|M]; [lia|].
  cbn [leaf_paths]. rewrite fmap_app, <- !list_fmap_compose, ksum_app.
  change ((λ sp : nat * list bool, length sp.2) ∘
          (λ sp : nat * list bool, (sp.1, false :: sp.2)))
    with (S ∘ (λ sp : nat * list bool, length sp.2)).
  change ((λ sp : nat * list bool, length sp.2) ∘
          (λ sp : nat * list bool, (sp.1, true :: sp.2)))
    with (S ∘ (λ sp : nat * list bool, length sp.2)).
  rewrite !list_fmap_compose, !ksum_S, IHl, IHr by lia.
  rewrite pow2_S. lia.
Qed.

Lemma ksum_lsum M ls : ksum M ls = lsum (λ l, pow2 (M - l)) ls.
Proof. done. Qed.

(** X10. The code is complete: when some character is in use, the sum of
    [2^-len] over the characters in use is exactly 1 (stated with both sides
    multiplied by [2^255]). *)
Theorem code_lengths_complete (char_freq : list Z) (char_codes : list CodeEntry) :
  build_char_codes char_freq = Some char_codes →
  (∃ c, c < NUM_CHARS ∧ char_freq !!! c ≠ 0%Z) →
  kraft_total char_freq char_codes = (2 ^ 255)%Z.
Proof.
  intros E (c0 & Hc0 & Hf0).
  destruct (build_char_codes_cases _ _ E)
    as [[Hb _]|(root & Hb & Hok & Hlen & Hin & Hout)].
  { exfalso. by apply Hf0, (proj1 (build_tree_None_zero char_freq) Hb). }
  pose proof (build_tree_height char_freq root Hb) as Hh.
  unfold kraft_total.
  rewrite <- (lsum_perm _ _ _ (build_tree_symbols char_freq root Hb)).
  rewrite lsum_fmap.
  rewrite (lsum_ext _ (λ sp, pow2 (255 - length sp.2))).
  - change (lsum (λ sp : nat * list bool, pow2 (255 - length sp.2)) (leaf_paths root))
      with (lsum ((λ l, pow2 (255 - l)) ∘ (λ sp : nat * list bool, length sp.2))
                 (leaf_paths root)).
    rewrite <- lsum_fmap, <- ksum_lsum, kraft_tree; [done|].
    unfold NUM_CHARS in Hh. lia.
  - intros [s p] Hsp. simpl.
    rewrite (table_len_path root char_codes Hin s p Hsp).
    pose proof (leaf_paths_length root s p Hsp).
    unfold pow2. f_equal. unfold NUM_CHARS in Hh. lia.
Qed.

Lemma code_lengths_complete_witness :
  kraft_total textbook_freq textbook_codes = (2 ^ 255)%Z.
Proof.
  apply (code_lengths_complete textbook_freq textbook_codes).
  - vm_compute. reflexivity.
  - exists 97. split; [unfold NUM_CHARS; lia|]. vm_compute. discriminate.
Defined.

Lemma lsum_swap2 (F G : nat → Z) (l : list nat) c1 c2 :
  NoDup l → c1 ∈ l → c2 ∈ l → c1 ≠ c2 →
  (∀ c, c ∈ l → c ≠ c1 → c ≠ c2 → F c = G c) →
  (lsum F l - F c1 - F c2 = lsum G l - G c1 - G c2)%Z.
Proof.
  intros Hnd H1 H2 Hne Hext.
  apply elem_of_Permutation in H1 as [k Hk].
  assert (c2 ∈ k) as H2'.
  { rewrite Hk in H2. apply elem_of_cons in H2 as [?|?]; [congruence|done]. }
  apply elem_of_Permutation in H2' as [k' Hk'].
  assert (l ≡ₚ c1 :: c2 :: k') as Hl by (by rewrite Hk, Hk').
  rewrite Hl in Hnd. apply NoDup_cons in Hnd as [Hn1 Hnd].
  apply NoDup_cons in Hnd as [Hn2 _].
  rewrite !(lsum_perm _ _ _ Hl), !lsum_cons.
  rewrite (lsum_ext F G k'); [lia|].
  intros c Hc. apply Hext.
  - rewrite Hl. by do 2 right.
  - intros ->. apply Hn1. by right.
  - by intros ->.
Qed.

(** X11. Without wrap-around a character that occurs more often than another
    character in use never gets the longer code. *)
Theorem more_frequent_not_longer (char_freq : list Z)
    (char_codes : list CodeEntry) (c1 c2 : nat) :
  no_wrap char_freq → build_char_codes char_freq = Some char_codes →
  c1 < NUM_CHARS → c2 < NUM_CHARS →
  (0 < char_freq !!! c1 < char_freq !!! c2)%Z →
  (len (char_codes !!! c2) ≤ len (char_codes !!! c1))%Z.
Proof.
  intros Hnw E Hc1 Hc2 Hf.
  destruct (build_char_codes_cases _ _ E)
    as [[Hb _]|(root & Hb & Hok & Hlen & Hin & Hout)].
  { rewrite (proj1 (build_tree_None_zero char_freq) Hb c1 Hc1) in Hf. lia. }
  destruct (build_tree_no_wrap char_freq Hnw root Hb) as (_ & _ & Hopt).
  assert (c1 ≠ c2) as Hne by (intros ->; lia).
  set (g := λ c, if decide (c = c1) then path_of root c2
                 else if decide (c = c2) then path_of root c1
                 else path_of root c).
  set (sw := λ c, if decide (c = c1) then c2
                 else if decide (c = c2) then c1 else c).
  assert (∀ c, g c = path_of root (sw c)) as Hg.
  { intros c. unfold g, sw. by repeat case_decide. }
  assert (∀ c, c < NUM_CHARS → char_freq !!! c ≠ 0%Z →
               sw c < NUM_CHARS ∧ char_freq !!! (sw c) ≠ 0%Z) as Hsw.
  { intros c Hc Hfc. unfold sw. repeat case_decide; (split; [done|lia]). }
  assert (prefix_free_assignment char_freq g) as Hpf.
  { intros a b Ha Hb' Hab Hfa Hfb. rewrite !Hg.
    destruct (Hsw a Ha Hfa), (Hsw b Hb' Hfb).
    apply (path_of_prefix_free char_freq root Hb); [done..| | done | done].
    unfold sw. repeat case_decide; congruence. }
  specialize (Hopt g Hpf).
  rewrite <- (total_bits_wpl char_freq root Hb char_codes Hin) in Hopt.
  unfold total_bits in Hopt.
  assert (∀ c, c < NUM_CHARS → char_freq !!! c ≠ 0%Z →
               len (char_codes !!! c) = Z.of_nat (length (path_of root c)))
    as Hlenp.
  { intros c Hc Hfc.
    apply (table_len_path root char_codes Hin).
    by apply (used_symbol_path char_freq root Hb). }
  destruct Hf as [Hf1 Hf12].
  assert (char_freq !!! c1 ≠ 0%Z) as Hn1 by lia.
  assert (char_freq !!! c2 ≠ 0%Z) as Hn2 by lia.
  pose proof (Hlenp c1 Hc1 Hn1) as L1. pose proof (Hlenp c2 Hc2 Hn2) as L2.
  assert (g c1 = path_of root c2) as G1.
  { unfold g. by rewrite decide_True. }
  assert (g c2 = path_of root c1) as G2.
  { unfold g. rewrite decide_False by done. by rewrite decide_True. }
  pose proof (lsum_swap2
    (λ c, char_freq !!! c * len (char_codes !!! c))%Z
    (λ c, char_freq !!! c * Z.of_nat (length (g c)))%Z
    (seq 0 NUM_CHARS) c1 c2) as Hswap.
  cbv beta in Hswap. rewrite G1, G2, <- L1, <- L2 in Hswap.
  assert (c1 ∈ seq 0 NUM_CHARS) as M1 by (apply elem_of_seq; lia).
  assert (c2 ∈ seq 0 NUM_CHARS) as M2 by (apply elem_of_seq; lia).
  specialize (Hswap (NoDup_seq _ _) M1 M2 Hne).
  assert (∀ c, c ∈ seq 0 NUM_CHARS → c ≠ c1 → c ≠ c2 →
            (char_freq !!! c * len (char_codes !!! c))%Z =
            (char_freq !!! c * Z.of_nat (length (g c)))%Z) as Hext.
  { intros c Hc%elem_of_seq Hx1 Hx2.
    destruct (decide (char_freq !!! c = 0%Z)) as [->|Hfc]; [lia|].
    rewrite (Hlenp c) by (done || lia).
    unfold g. by rewrite !decide_False by done. }
  specialize (Hswap Hext).
  nia.
Qed.

Lemma more_frequent_not_longer_witness :
  (len (textbook_codes !!! 102%nat) ≤ len (textbook_codes !!! 97%nat))%Z.
Proof.
  apply (more_frequent_not_longer textbook_freq textbook_codes 97 102).
  - apply textbook_freq_no_wrap.
  - vm_compute. reflexivity.
  - unfold NUM_CHARS. lia.
  - unfold NUM_CHARS. lia.
  - vm_compute. split; reflexivity.
Defined.

(** * Further properties: freeing the tree, the printed table *)

Lemma free_loop_frame t : ∀ fuel stk freed,
  length stk + length (leaves t) ≤ MAX_HEAP → node_count t ≤ fuel →
  free_loop fuel (t :: stk) freed =
  free_loop (fuel - node_count t) stk (rev (free_order t) ++ freed).
Proof.
  induction t as [s f|f l IHl r IHr]; intros fuel stk freed Hcap Hfuel;
    simpl in Hcap, Hfuel.
  { destruct fuel as [|fuel]; [lia|].
    replace (S fuel - node_count (Leaf s f)) with fuel by (simpl; lia).
    done. }
  destruct fuel as [|fuel]; [lia|].
  rewrite length_app in Hcap.
  pose proof (leaves_length l). pose proof (leaves_length r).
  cbn [free_loop]. unfold stk_push.
  destruct (length stk <? MAX_HEAP) eqn:E1;
    [|apply Nat.ltb_ge in E1; lia].
  cbn [mbind option_bind length].
  destruct (S (length stk) <? MAX_HEAP) eqn:E2;
    [|apply Nat.ltb_ge in E2; lia].
  cbn [mbind option_bind].
  rewrite IHr by (cbn [length]; lia).
  rewrite IHl by lia.
  replace (fuel - node_count r - node_count l)
    with (S fuel - node_count (Internal f l r)) by (simpl; lia).
  f_equal. cbn [free_order rev].
  rewrite rev_app_distr, <- !app_assoc. done.
Qed.

Lemma free_order_nodes t : free_order t ≡ₚ nodes t.
Proof.
  induction t as [s f|f l IHl r IHr]; simpl; [done|].
  by rewrite IHl, IHr, (comm (++)).
Qed.

Lemma free_order_length t : length (free_order t) = node_count t.
Proof.
  induction t as [s f|f l IHl r IHr]; simpl; [done|].
  rewrite length_app. lia.
Qed.

(** X12. The loop that frees the tree ends without running past its stack of
    [MAX_HEAP] cells, and frees every node of the tree exactly once. *)
Theorem free_loop_frees_all (char_freq : list Z) (root : Node) :
  build_tree char_freq = Some root →
  ∃ freed,
    free_loop (node_count root) [root] [] = Some freed ∧
    freed ≡ₚ nodes root ∧
    length freed = node_count root.
Proof.
  intros Hb. exists (rev (free_order root)).
  pose proof (build_tree_leaves_count char_freq root Hb) as Hn.
  rewrite free_loop_frame; [|cbn [length]; unfold MAX_HEAP; lia|done].
  rewrite Nat.sub_diag, app_nil_r. split; [by destruct (node_count root)|].
  split.
  - by rewrite <- free_order_nodes, <- (Permutation_rev (free_order root)).
  - by rewrite length_rev, free_order_length.
Qed.

Lemma free_loop_frees_all_witness :
  ∃ freed,
    free_loop (node_count textbook_tree) [textbook_tree] [] = Some freed ∧
    freed ≡ₚ nodes textbook_tree ∧
    length freed = node_count textbook_tree.
Proof.
  apply (free_loop_frees_all textbook_freq textbook_tree).
  vm_compute. reflexivity.
Defined.

Lemma filter_ext_in {A} (P Q : A → Prop) `{∀ x, Decision (P x)}
    `{∀ x, Decision (Q x)} (l : list A) :
  (∀ x, x ∈ l → P x ↔ Q x) → filter P l = filter Q l.
Proof.
  induction l as [|x l IH]; intros Hext; [done|].
  rewrite !filter_cons.
  rewrite IH by (intros y Hy; apply Hext; by right).
  assert (P x ↔ Q x) as Hx by (apply Hext; by left).
  destruct (decide (P x)), (decide (Q x)); tauto.
Qed.

Lemma print_char_code_length (char_codes : list CodeEntry) c :
  length (print_char_code char_codes c) = Z.to_nat (len (char_codes !!! c)).
Proof.
  unfold print_char_code. by rewrite length_map, length_rev, length_seq.
Qed.

(** With at least two characters in use, exactly the characters in use have a
    code of nonzero length. *)
Lemma used_iff_len char_freq char_codes c :
  build_char_codes char_freq = Some char_codes → two_used char_freq →
  c < NUM_CHARS →
  (char_freq !!! c ≠ 0%Z ∧ (0 < len (char_codes !!! c))%Z) ∨
  (char_freq !!! c = 0%Z ∧ char_codes !!! c = mkCodeEntry 0 0).
Proof.
  intros E Htwo Hc.
  destruct (build_char_codes_cases _ _ E)
    as [[Hb _]|(root & Hb & Hok & Hlen & Hin & Hout)].
  { exfalso. destruct Htwo as (c1 & _ & Hc1 & _ & _ & Hf1 & _).
    by apply Hf1, (proj1 (build_tree_None_zero char_freq) Hb). }
  destruct (decide (c ∈ (leaf_paths root).*1)) as [Hmem|Hmem].
  - left. split; [by apply (build_tree_symbol_iff char_freq root c Hb)|].
    apply list_elem_of_fmap in Hmem as ([c' p] & -> & Hsp). cbn [fst].
    rewrite (table_len_path root char_codes Hin _ p Hsp).
    pose proof (two_used_paths char_freq root Hb Htwo).
    pose proof (leaf_paths_nonempty root _ p ltac:(done) Hsp). lia.
  - right. split.
    + rewrite (build_tree_symbol_iff char_freq root c Hb) in Hmem.
      destruct (decide (char_freq !!! c = 0%Z)); [done|tauto].
    + by apply list_lookup_total_correct, Hout.
Qed.

(** X13. With at least two characters in use, the character table [main]
    prints has one row for each character in use, in increasing order, and
    each row shows as many bits as the length it reports. *)
Theorem code_table_rows_used (char_freq : list Z) (char_codes : list CodeEntry) :
  build_char_codes char_freq = Some char_codes → two_used char_freq →
  (code_table_rows char_codes).*1.*1 =
    filter (λ c, char_freq !!! c ≠ 0%Z) (seq 0 NUM_CHARS) ∧
  ∀ c bits n, (c, bits, n) ∈ code_table_rows char_codes →
    (0 < n)%Z ∧ Z.of_nat (length bits) = n.
Proof.
  intros E Htwo.
  assert (∀ c, c ∈ seq 0 NUM_CHARS →
            len (char_codes !!! c) ≠ 0%Z ↔ char_freq !!! c ≠ 0%Z) as Hiff.
  { intros c Hc%elem_of_seq.
    destruct (used_iff_len char_freq char_codes c E Htwo)
      as [[Hf Hpos]|[Hz Hc0]]; [lia| |].
    - split; [done|lia].
    - rewrite Hc0, Hz. simpl. tauto. }
  unfold code_table_rows. split.
  - rewrite <- !list_fmap_compose.
    etrans; [apply (list_fmap_id (filter _ _))|].
    by apply filter_ext_in.
  - intros c bits n Hrow.
    apply list_elem_of_fmap in Hrow as (c' & [= -> -> ->] & Hc').
    apply list_elem_of_filter in Hc' as [Hne Hc'].
    apply elem_of_seq in Hc'.
    destruct (used_iff_len char_freq char_codes c' E Htwo)
      as [[_ Hpos]|[_ Hc0]]; [lia| |by rewrite Hc0 in Hne].
    split; [done|]. rewrite print_char_code_length. lia.
Qed.

Lemma code_table_rows_used_witness :
  (code_table_rows abc_codes).*1.*1 =
    filter (λ c, abc_freq !!! c ≠ 0%Z) (seq 0 NUM_CHARS) ∧
  ∀ c bits n, (c, bits, n) ∈ code_table_rows abc_codes →
    (0 < n)%Z ∧ Z.of_nat (length bits) = n.
Proof.
  apply (code_table_rows_used abc_freq abc_codes).
  - vm_compute. reflexivity.
  - exists 97, 98. unfold NUM_CHARS.
    do 3 (split; [lia|]). split; vm_compute; discriminate.
Defined.

(** * Further properties: encoding and printing *)

Lemma print_command_bits_chars char_codes p :
  print_command_bits char_codes p = cmd_chars p ≫= print_char_code char_codes.
Proof.
  induction p as [|ch p IH]; [done|]. cbn [print_command_bits cmd_chars].
  destruct (Ascii.eqb ch zero); [done|]. by rewrite bind_cons, IH.
Qed.

(** A code with no empty word and no word a prefix of another decodes in
    one way only. *)
Lemma concat_codes_inj (φ : nat → list bool) (D : nat → Prop) :
  (∀ c, D c → φ c ≠ []) →
  (∀ c1 c2, D c1 → D c2 → φ c1 `prefix_of` φ c2 → c1 = c2) →
  ∀ l1 l2, Forall D l1 → Forall D l2 → l1 ≫= φ = l2 ≫= φ → l1 = l2.
Proof.
  intros Hne Hpre.
  induction l1 as [|a l1 IH]; intros [|b l2] H1 H2 E.
  - done.
  - exfalso. rewrite bind_cons in E. apply Forall_cons in H2 as [Hb _].
    symmetry in E. apply app_eq_nil in E as [E _]. by apply (Hne b).
  - exfalso. rewrite bind_cons in E. apply Forall_cons in H1 as [Ha _].
    apply app_eq_nil in E as [E _]. by apply (Hne a).
  - rewrite !bind_cons in E.
    apply Forall_cons in H1 as [Ha H1]. apply Forall_cons in H2 as [Hb H2].
    assert (a = b) as ->.
    { destruct (prefix_weak_total (φ a) (φ b) (φ a ++ l1 ≫= φ)) as [Hp|Hp].
      - by apply prefix_app_r.
      - rewrite E. by apply prefix_app_r.
      - by apply Hpre.
      - symmetry. by apply Hpre. }
    apply app_inv_head in E. f_equal. by apply IH.
Qed.

(** With codes no longer than the code field and at least two characters in
    use, a character in use prints as its path in the tree. *)
Lemma print_char_code_path char_freq root char_codes c :
  build_tree char_freq = Some root → height root ≤ MAX_CODE_LEN →
  (∀ s p, (s, p) ∈ leaf_paths root →
          char_codes !! s = Some (path_entry p)) →
  in_use char_freq c →
  (c, print_char_code char_codes c) ∈ leaf_paths root.
Proof.
  intros Hb Hh Hin [Hc Hf].
  pose proof (used_symbol_path char_freq root Hb c Hc Hf) as Hsp.
  rewrite (print_path_entry char_codes c (path_of root c)); [done|by apply Hin|].
  pose proof (leaf_paths_length root c _ Hsp). lia.
Qed.

(** X14. Unique decoding.  When the tree is no deeper than the 64-bit code
    field and at least two characters are in use, two strings of characters
    in use that print as the same bit string are the same string. *)
Theorem print_command_bits_injective (char_freq : list Z)
    (char_codes : list CodeEntry) (cmd1 cmd2 : string) :
  build_char_codes char_freq = Some char_codes →
  code_width_ok char_freq → two_used char_freq →
  Forall (in_use char_freq) (cmd_chars cmd1) →
  Forall (in_use char_freq) (cmd_chars cmd2) →
  print_command_bits char_codes cmd1 = print_command_bits char_codes cmd2 →
  cmd_chars cmd1 = cmd_chars cmd2.
Proof.
  intros E Hw Htwo H1 H2 Hbits.
  destruct (build_char_codes_cases _ _ E)
    as [[Hb _]|(root & Hb & Hok & Hlen & Hin & Hout)].
  { exfalso. destruct Htwo as (c1 & _ & Hc1 & _ & _ & Hf1 & _).
    by apply Hf1, (proj1 (build_tree_None_zero char_freq) Hb). }
  pose proof (Hw root Hb) as Hh.
  pose proof (build_tree_symbols_NoDup char_freq root Hb) as Hnd.
  rewrite !print_command_bits_chars in Hbits.
  apply (concat_codes_inj (print_char_code char_codes) (in_use char_freq));
    [| |done..].
  - intros c Hc Hnil.
    pose proof (print_char_code_path char_freq root char_codes c Hb Hh Hin Hc)
      as Hsp.
    pose proof (two_used_paths char_freq root Hb Htwo).
    pose proof (leaf_paths_nonempty root c _ ltac:(done) Hsp) as Hl.
    rewrite Hnil in Hl. simpl in Hl. lia.
  - intros c1 c2 Hc1 Hc2 Hp.
    apply (leaf_paths_prefix root c1 (print_char_code char_codes c1)
             c2 (print_char_code char_codes c2) Hnd); [| |done].
    + by apply (print_char_code_path char_freq).
    + by apply (print_char_code_path char_freq).
Qed.

Lemma print_command_bits_injective_witness :
  cmd_chars "abca" = cmd_chars ("abca" ++ String zero "b").
Proof.
  apply (print_command_bits_injective abc_freq abc_codes
           "abca" ("abca" ++ String zero "b")).
  - vm_compute. reflexivity.
  - apply abc_freq_width.
  - exists 97, 98. unfold NUM_CHARS.
    do 3 (split; [lia|]). split; vm_compute; discriminate.
  - repeat constructor; (unfold NUM_CHARS; simpl; lia) || (vm_compute; discriminate).
  - repeat constructor; (unfold NUM_CHARS; simpl; lia) || (vm_compute; discriminate).
  - vm_compute. reflexivity.
Defined.

Lemma sum_lens_cons char_codes c cs :
  sum_lens char_codes (c :: cs) =
  (len (char_codes !!! c) + sum_lens char_codes cs)%Z.
Proof. done. Qed.

Lemma sum_lens_app char_codes cs1 cs2 :
  sum_lens char_codes (cs1 ++ cs2) =
  (sum_lens char_codes cs1 + sum_lens char_codes cs2)%Z.
Proof.
  induction cs1 as [|c cs1 IH]; [done|].
  rewrite <- app_comm_cons, !sum_lens_cons, IH. lia.
Qed.

Lemma sum_lens_bound char_codes cs (B : Z) :
  (∀ c, c ∈ cs → (0 ≤ len (char_codes !!! c) ≤ B)%Z) →
  (0 ≤ sum_lens char_codes cs ≤ B * Z.of_nat (length cs))%Z.
Proof.
  induction cs as [|c cs IH]; intros Hall.
  { simpl. lia. }
  rewrite sum_lens_cons. cbn [length].
  assert (0 ≤ len (char_codes !!! c) ≤ B)%Z by (apply Hall; by left).
  assert (0 ≤ sum_lens char_codes cs ≤ B * Z.of_nat (length cs))%Z.
  { apply IH. intros; apply Hall; by right. }
  lia.
Qed.

Lemma build_char_codes_cmd_lens char_freq char_codes cmd c :
  build_char_codes char_freq = Some char_codes → c ∈ cmd_chars cmd →
  (0 ≤ len (char_codes !!! c) ≤ 255)%Z.
Proof.
  intros E Hc%cmd_chars_bound.
  destruct (build_char_codes_entry char_freq char_codes c E) as (_ & Hl & _);
    [lia|done].
Qed.

Lemma encode_command_sum char_codes cmd :
  (∀ c, c ∈ cmd_chars cmd → (0 ≤ len (char_codes !!! c))%Z) →
  (sum_lens char_codes (cmd_chars cmd) + 7 ≤ INT_MAX)%Z →
  encode_command char_codes cmd =
  Some (sum_lens char_codes (cmd_chars cmd),
        (sum_lens char_codes (cmd_chars cmd) + 7) / 8)%Z.
Proof.
  intros Hnn Hmax. pose proof (sum_lens_nonneg char_codes _ Hnn) as H0.
  unfold encode_command.
  rewrite encode_loop_sum; [|done|unfold INT_MIN; lia|lia].
  cbn [mbind option_bind]. rewrite Z.add_0_l.
  rewrite (proj2 (in_int_range_spec _)) by (unfold INT_MIN; lia).
  by rewrite Z.quot_div_nonneg by lia.
Qed.

(** X15. For a table returned by [build_char_codes] and a command of at most
    8,421,504 characters, [encode_command] returns without overflow; its bit
    count is the number of bits [print_command_bits] writes, at most 255 per
    character, and its byte count is the least number of bytes holding them. *)
Theorem encode_matches_print (char_freq : list Z)
    (char_codes : list CodeEntry) (cmd : string) :
  build_char_codes char_freq = Some char_codes →
  (Z.of_nat (length (cmd_chars cmd)) ≤ MAX_CMD_CHARS)%Z →
  ∃ bits bytes,
    encode_command char_codes cmd = Some (bits, bytes) ∧
    bits = Z.of_nat (length (print_command_bits char_codes cmd)) ∧
    (bits ≤ 255 * Z.of_nat (length (cmd_chars cmd)))%Z ∧
    (8 * (bytes - 1) < bits ≤ 8 * bytes)%Z.
Proof.
  intros E Hn.
  pose proof (sum_lens_bound char_codes (cmd_chars cmd) 255
    (λ c Hc, build_char_codes_cmd_lens char_freq char_codes cmd c E Hc)) as Hs.
  assert (∀ c, c ∈ cmd_chars cmd → (0 ≤ len (char_codes !!! c))%Z) as Hnn.
  { intros c Hc.
    by apply (build_char_codes_cmd_lens char_freq char_codes cmd c E). }
  eexists _, _. split.
  { apply encode_command_sum; [done|].
    unfold MAX_CMD_CHARS in Hn. unfold INT_MAX. lia. }
  split; [by rewrite print_command_bits_length|]. split; [lia|]. lia.
Qed.

Lemma encode_matches_print_witness :
  ∃ bits bytes,
    encode_command abc_codes "abca" = Some (bits, bytes) ∧
    bits = Z.of_nat (length (print_command_bits abc_codes "abca")) ∧
    (bits ≤ 255 * Z.of_nat (length (cmd_chars "abca")))%Z ∧
    (8 * (bytes - 1) < bits ≤ 8 * bytes)%Z.
Proof.
  apply (encode_matches_print abc_freq abc_codes "abca").
  - vm_compute. reflexivity.
  - vm_compute. discriminate.
Defined.

Lemma cmd_chars_app s1 s2 :
  zero ∉ list_ascii_of_string s1 →
  cmd_chars (s1 ++ s2) = cmd_chars s1 ++ cmd_chars s2.
Proof.
  induction s1 as [|ch s1 IH]; intros Hz; [done|].
  cbn [list_ascii_of_string] in Hz. apply not_elem_of_cons in Hz as [Hne Hz].
  cbn [append cmd_chars].
  destruct (Ascii.eqb_spec ch zero) as [->|_]; [done|].
  by rewrite IH.
Qed.

Lemma cmd_chars_nul s1 s2 :
  cmd_chars (s1 ++ String zero s2) = cmd_chars s1.
Proof.
  induction s1 as [|ch s1 IH]; [done|].
  cbn [append cmd_chars]. destruct (Ascii.eqb ch zero); [done|].
  by rewrite IH.
Qed.

(** X16. Encoding goes character by character: for a table returned by
    [build_char_codes], the bits printed for [cmd1 ++ cmd2], where [cmd1]
    has no NUL, are those of [cmd1] followed by those of [cmd2], and the bit
    counts of [encode_command] add up; bytes after a NUL are not encoded. *)
Theorem encode_concatenates (char_freq : list Z)
    (char_codes : list CodeEntry) (cmd1 cmd2 : string) :
  build_char_codes char_freq = Some char_codes →
  zero ∉ list_ascii_of_string cmd1 →
  (Z.of_nat (length (cmd_chars (cmd1 ++ cmd2))) ≤ MAX_CMD_CHARS)%Z →
  print_command_bits char_codes (cmd1 ++ cmd2) =
    print_command_bits char_codes cmd1 ++ print_command_bits char_codes cmd2 ∧
  (∃ bits1 bytes1 bits2 bytes2 bytes,
     encode_command char_codes cmd1 = Some (bits1, bytes1) ∧
     encode_command char_codes cmd2 = Some (bits2, bytes2) ∧
     encode_command char_codes (cmd1 ++ cmd2) = Some (bits1 + bits2, bytes)%Z) ∧
  print_command_bits char_codes (cmd1 ++ String zero cmd2) =
    print_command_bits char_codes cmd1.
Proof.
  intros E Hz Hn. rewrite cmd_chars_app, length_app in Hn by done.
  assert (∀ cmd c, c ∈ cmd_chars cmd → (0 ≤ len (char_codes !!! c))%Z) as Hnn.
  { intros cmd c Hc.
    by apply (build_char_codes_cmd_lens char_freq char_codes cmd c E). }
  pose proof (λ cmd, sum_lens_bound char_codes (cmd_chars cmd) 255
    (λ c Hc, build_char_codes_cmd_lens char_freq char_codes cmd c E Hc)) as Hs.
  pose proof (Hs cmd1) as Hs1. pose proof (Hs cmd2) as Hs2.
  unfold MAX_CMD_CHARS in Hn.
  split; [|split].
  - rewrite !print_command_bits_chars, cmd_chars_app by done.
    apply bind_app.
  - eexists _, _, _, _, _.
    split; [apply encode_command_sum; [by apply Hnn|unfold INT_MAX; lia]|].
    split; [apply encode_command_sum; [by apply Hnn|unfold INT_MAX; lia]|].
    rewrite encode_command_sum; [|by apply Hnn|].
    + rewrite cmd_chars_app, sum_lens_app by done. reflexivity.
    + rewrite cmd_chars_app, sum_lens_app by done. unfold INT_MAX. lia.
  - by rewrite !print_command_bits_chars, cmd_chars_nul.
Qed.

Lemma encode_concatenates_witness :
  print_command_bits abc_codes ("ab" ++ "ca") =
    print_command_bits abc_codes "ab" ++ print_command_bits abc_codes "ca" ∧
  (∃ bits1 bytes1 bits2 bytes2 bytes,
     encode_command abc_codes "ab" = Some (bits1, bytes1) ∧
     encode_command abc_codes "ca" = Some (bits2, bytes2) ∧
     encode_command abc_codes ("ab" ++ "ca") = Some (bits1 + bits2, bytes)%Z) ∧
  print_command_bits abc_codes ("ab" ++ String zero "ca") =
    print_command_bits abc_codes "ab".
Proof.
  apply (encode_concatenates abc_freq abc_codes "ab" "ca").
  - vm_compute. reflexivity.
  - simpl. intros H.
    repeat (apply elem_of_cons in H as [H|H]; [discriminate|]).
    inversion H.
  - vm_compute. discriminate.
Defined.

(** * Further properties: the reporting loop of [main] *)

Lemma encode_loop_Some char_codes p : ∀ bits r,
  encode_loop char_codes p bits = Some r →
  r = (bits + sum_lens char_codes (cmd_chars p))%Z.
Proof.
  induction p as [|ch p IH]; intros bits r E; cbn [encode_loop cmd_chars] in *.
  { injection E as <-. simpl. lia. }
  destruct (Ascii.eqb ch zero).
  { injection E as <-. simpl. lia. }
  destruct (in_int_range (bits + len (char_codes !!! nat_of_ascii ch)));
    [|done].
  apply IH in E. rewrite sum_lens_cons. lia.
Qed.

Lemma encode_command_Some char_codes cmd bits bytes :
  encode_command char_codes cmd = Some (bits, bytes) →
  bits = sum_lens char_codes (cmd_chars cmd).
Proof.
  unfold encode_command. intros E.
  destruct (encode_loop char_codes cmd 0) as [b|] eqn:El; [|done].
  cbn [mbind option_bind] in E.
  destruct (in_int_range (b + 7)); [|done].
  injection E as <- _. by apply encode_loop_Some in El.
Qed.

Lemma main_step_Some char_codes st cmd st' :
  main_step char_codes st cmd = Some st' →
  ∃ bits bytes,
    encode_command char_codes cmd = Some (bits, bytes) ∧
    st_total st' = (st_total st + bits)%Z ∧
    st_max st' = Z.max (st_max st) bits ∧
    st_min st' = Z.min (st_min st) bits ∧
    st_ok st' = st_ok st ++ [(bits <=? TARGET_BITS)%Z].
Proof.
  unfold main_step. intros E.
  destruct (encode_command char_codes cmd) as [[bits bytes]|]; [|done].
  cbn [mbind option_bind] in E.
  destruct (in_int_range (st_total st + bits)); [|done].
  injection E as <-. exists bits, bytes. cbn [st_total st_max st_min st_ok].
  split; [done|]. split; [done|].
  split; [|split; [|done]].
  - destruct (Z.ltb_spec (st_max st) bits); lia.
  - destruct (Z.ltb_spec bits (st_min st)); lia.
Qed.

(** What the loop has accumulated when it ends. *)
Lemma main_loop_inv char_codes commands : ∀ st0 st,
  main_loop char_codes commands st0 = Some st →
  st_total st =
    (st_total st0 + sum_lens char_codes (all_chars commands))%Z ∧
  (st_max st0 ≤ st_max st)%Z ∧ (st_min st ≤ st_min st0)%Z ∧
  (st_max st = st_max st0 ∨
   ∃ cmd bytes, cmd ∈ commands ∧
                encode_command char_codes cmd = Some (st_max st, bytes)) ∧
  (st_min st = st_min st0 ∨
   ∃ cmd bytes, cmd ∈ commands ∧
                encode_command char_codes cmd = Some (st_min st, bytes)) ∧
  ∃ oks, st_ok st = st_ok st0 ++ oks ∧
    Forall2 (λ cmd ok,
               ∃ bits bytes,
                 encode_command char_codes cmd = Some (bits, bytes) ∧
                 (st_min st ≤ bits ≤ st_max st)%Z ∧
                 ok = (bits <=? TARGET_BITS)%Z)
            commands oks.
Proof.
  induction commands as [|cmd commands IH]; intros st0 st E;
    cbn [main_loop] in E.
  { injection E as <-. split; [simpl; lia|]. do 2 (split; [lia|]).
    split; [by left|]. split; [by left|].
    exists []. by rewrite app_nil_r. }
  destruct (main_step char_codes st0 cmd) as [st1|] eqn:E1; [|done].
  cbn [mbind option_bind] in E.
  apply main_step_Some in E1
    as (bits & bytes & Hen & Ht & Hmax & Hmin & Hok).
  pose proof (encode_command_Some _ _ _ _ Hen) as Hbits.
  destruct (IH st1 st E) as (Ht' & Hmax' & Hmin' & Hm & Hn & oks & Hoks & Hall).
  split; [rewrite all_chars_cons, sum_lens_app; lia|].
  split; [lia|]. split; [lia|]. split; [|split].
  - destruct Hm as [Hm|(cmd' & by' & Hc & Hm)].
    + destruct (Z.max_spec (st_max st0) bits) as [[_ Hx]|[_ Hx]].
      * right. exists cmd, bytes. split; [by left|].
        by replace (st_max st) with bits by lia.
      * left. lia.
    + right. exists cmd', by'. split; [by right|done].
  - destruct Hn as [Hn|(cmd' & by' & Hc & Hn)].
    + destruct (Z.min_spec (st_min st0) bits) as [[_ Hx]|[_ Hx]].
      * left. lia.
      * right. exists cmd, bytes. split; [by left|].
        by replace (st_min st) with bits by lia.
    + right. exists cmd', by'. split; [by right|done].
  - exists ((bits <=? TARGET_BITS)%Z :: oks).
    split; [rewrite Hoks, Hok, <- app_assoc; done|].
    constructor; [|done]. exists bits, bytes. split; [done|]. split; [lia|done].
Qed.

Lemma lsum_zero {A} (l : list A) : lsum (λ _, 0%Z) l = 0%Z.
Proof. induction l as [|x l IH]; [done|]. by rewrite lsum_cons, IH. Qed.

Lemma lsum_indicator (v : nat → Z) (x : nat) (l : list nat) :
  NoDup l → x ∈ l →
  lsum (λ c, if decide (x = c) then v c else 0%Z) l = v x.
Proof.
  induction l as [|y l IH]; intros Hnd Hx; [by apply elem_of_nil in Hx|].
  apply NoDup_cons in Hnd as [Hy Hnd]. rewrite lsum_cons.
  destruct (decide (x = y)) as [->|Hne].
  - rewrite (lsum_ext _ (λ _, 0%Z)).
    + rewrite lsum_zero. lia.
    + intros c Hc. rewrite decide_False; [done|]. by intros ->.
  - apply elem_of_cons in Hx as [?|Hx]; [done|]. rewrite IH by done. lia.
Qed.

Lemma lsum_plus {A} (f g : A → Z) l :
  lsum (λ x, f x + g x)%Z l = (lsum f l + lsum g l)%Z.
Proof.
  induction l as [|x l IH]; [done|]. rewrite !lsum_cons, IH. lia.
Qed.

(** Summing [h] along a text is summing, over the alphabet, the number of
    occurrences times [h]. *)
Lemma lsum_by_occurrences (h : nat → Z) cs :
  (∀ c, c ∈ cs → c < NUM_CHARS) →
  lsum h cs =
  lsum (λ c, Z.of_nat (occurrences c cs) * h c)%Z (seq 0 NUM_CHARS).
Proof.
  induction cs as [|x cs IH]; intros Hb.
  { rewrite (lsum_ext (λ c, Z.of_nat (occurrences c []) * h c)%Z (λ _, 0%Z));
      [by rewrite lsum_zero|].
    intros c _. unfold occurrences. rewrite filter_nil. apply Z.mul_0_l. }
  rewrite lsum_cons, IH by (intros; apply Hb; by right).
  rewrite <- (lsum_indicator h x (seq 0 NUM_CHARS)).
  - rewrite <- lsum_plus. apply lsum_ext. intros c _.
    rewrite occurrences_cons. destruct (decide (x = c)); lia.
  - apply NoDup_seq.
  - apply elem_of_seq. assert (x < NUM_CHARS) by (apply Hb; by left). lia.
Qed.

Lemma sum_lens_lsum char_codes cs :
  sum_lens char_codes cs = lsum (λ c, len (char_codes !!! c)) cs.
Proof. done. Qed.

(** The reporting loop totals the frequency-weighted code length. *)
Lemma main_loop_total commands char_codes st :
  main_loop char_codes commands stats0 = Some st →
  (Z.of_nat (length (all_chars commands)) < ULONG_MODULUS)%Z →
  st_total st =
  total_bits (count_char_freq commands) (λ c, len (char_codes !!! c)).
Proof.
  intros E Hn.
  destruct (main_loop_inv char_codes commands stats0 st E) as [-> _].
  cbn [stats0 st_total]. rewrite Z.add_0_l.
  rewrite sum_lens_lsum, lsum_by_occurrences
    by (intros c Hc%all_chars_bound; lia).
  unfold total_bits. apply lsum_ext. intros c _.
  rewrite count_char_freq_occurrences, Z.mod_small; [done|].
  pose proof (occurrences_le c (all_chars commands)). lia.
Qed.

(** X17. [main]'s [total_bits] is the frequency-weighted code length: when the
    loop ends, the total of the bit counts of all commands equals the sum,
    over the characters, of the count of [count_char_freq] times the code
    length (fewer than [2^64] characters being counted). *)
Theorem main_total_is_weighted_length (commands : list string)
    (char_codes : list CodeEntry) (st : MainStats) :
  main_loop char_codes commands stats0 = Some st →
  (Z.of_nat (length (all_chars commands)) < ULONG_MODULUS)%Z →
  st_total st =
  total_bits (count_char_freq commands) (λ c, len (char_codes !!! c)).
Proof.
  apply main_loop_total.
Qed.

Lemma main_total_is_weighted_length_witness :
  st_total abc_stats =
  total_bits (count_char_freq ["aab"; "abc"]%string)
             (λ c, len (abc_codes !!! c)).
Proof.
  apply (main_total_is_weighted_length ["aab"; "abc"]%string abc_codes abc_stats).
  - vm_compute. reflexivity.
  - vm_compute. reflexivity.
Defined.

(** X18. When the loop of [main] ends, [min_bits] and [max_bits] bracket the
    bit count of every command, each verdict is OK exactly when the
    command's bit count is at most [TARGET_BITS], [max_bits] is 0 or the bit
    count of some command, and [min_bits] is 999999 or the bit count of some
    command. *)
Theorem main_loop_min_max (commands : list string)
    (char_codes : list CodeEntry) (st : MainStats) :
  main_loop char_codes commands stats0 = Some st →
  Forall2 (λ cmd ok,
             ∃ bits bytes,
               encode_command char_codes cmd = Some (bits, bytes) ∧
               (st_min st ≤ bits ≤ st_max st)%Z ∧
               ok = (bits <=? TARGET_BITS)%Z)
          commands (st_ok st) ∧
  (st_max st = 0%Z ∨
   ∃ cmd bytes, cmd ∈ commands ∧
                encode_command char_codes cmd = Some (st_max st, bytes)) ∧
  (st_min st = 999999%Z ∨
   ∃ cmd bytes, cmd ∈ commands ∧
                encode_command char_codes cmd = Some (st_min st, bytes)).
Proof.
  intros E.
  destruct (main_loop_inv char_codes commands stats0 st E)
    as (_ & _ & _ & Hm & Hn & oks & Hoks & Hall).
  cbn [stats0 st_max st_min st_ok app] in Hm, Hn, Hoks. rewrite Hoks. done.
Qed.

Lemma main_loop_min_max_witness :
  Forall2 (λ cmd ok,
             ∃ bits bytes,
               encode_command abc_codes cmd = Some (bits, bytes) ∧
               (st_min abc_stats ≤ bits ≤ st_max abc_stats)%Z ∧
               ok = (bits <=? TARGET_BITS)%Z)
          ["aab"; "abc"]%string (st_ok abc_stats) ∧
  (st_max abc_stats = 0%Z ∨
   ∃ cmd bytes, cmd ∈ ["aab"; "abc"]%string ∧
                encode_command abc_codes cmd = Some (st_max abc_stats, bytes)) ∧
  (st_min abc_stats = 999999%Z ∨
   ∃ cmd bytes, cmd ∈ ["aab"; "abc"]%string ∧
                encode_command abc_codes cmd = Some (st_min abc_stats, bytes)).
Proof.
  apply (main_loop_min_max ["aab"; "abc"]%string abc_codes abc_stats).
  vm_compute. reflexivity.
Defined.

(** * Further properties: [main] as a whole *)

Lemma lsum_one {A} (l : list A) : lsum (λ _, 1%Z) l = Z.of_nat (length l).
Proof.
  induction l as [|x l IH]; [done|]. rewrite lsum_cons, IH. cbn [length]. lia.
Qed.

Lemma count_char_freq_exact commands c :
  (Z.of_nat (length (all_chars commands)) < ULONG_MODULUS)%Z →
  count_char_freq commands !!! c =
  Z.of_nat (occurrences c (all_chars commands)).
Proof.
  intros Hn. rewrite count_char_freq_occurrences, Z.mod_small; [done|].
  pose proof (occurrences_le c (all_chars commands)). lia.
Qed.

(** Weighting by the counted frequencies is summing along the text. *)
Lemma total_bits_text commands (h : nat → Z) :
  (Z.of_nat (length (all_chars commands)) < ULONG_MODULUS)%Z →
  total_bits (count_char_freq commands) h = lsum h (all_chars commands).
Proof.
  intros Hn. rewrite lsum_by_occurrences
    by (intros c Hc%all_chars_bound; lia).
  unfold total_bits. apply lsum_ext. intros c _.
  by rewrite count_char_freq_exact.
Qed.

Lemma count_char_freq_total commands :
  (Z.of_nat (length (all_chars commands)) < ULONG_MODULUS)%Z →
  lsum id (count_char_freq commands) = Z.of_nat (length (all_chars commands)).
Proof.
  intros Hn. destruct (count_char_freq_table commands) as [Hlen _].
  rewrite <- lsum_lookup_seq, Hlen, <- lsum_one.
  rewrite <- (total_bits_text commands (λ _, 1%Z) Hn).
  unfold total_bits. apply lsum_ext. intros c _. lia.
Qed.

Lemma count_char_freq_no_wrap commands :
  (Z.of_nat (length (all_chars commands)) < ULONG_MODULUS)%Z →
  no_wrap (count_char_freq commands).
Proof.
  intros Hn. destruct (count_char_freq_table commands) as [Hlen Hr].
  split; [done|]. split.
  - eapply Forall_impl; [exact Hr|]. intros f Hf. simpl in Hf. lia.
  - by rewrite count_char_freq_total.
Qed.

Lemma no_wrap_build_Some char_freq :
  no_wrap char_freq → is_Some (build_char_codes char_freq).
Proof.
  intros Hnw. destruct (build_tree char_freq) as [root|] eqn:Hb.
  - destruct (build_tree_no_wrap char_freq Hnw root Hb) as (_ & Hh & _).
    destruct (build_char_codes_table char_freq root Hb) as (tbl & -> & _);
      [|done].
    apply stack_ok_height. unfold MAX_CODE_LEN. lia.
  - by rewrite build_char_codes_tree, Hb.
Qed.

Lemma main_loop_Some char_codes commands :
  (∀ c, 0 < c < NUM_CHARS → (0 ≤ len (char_codes !!! c) ≤ 255)%Z) →
  ∀ st0,
    (0 ≤ st_total st0)%Z →
    (st_total st0 + 255 * Z.of_nat (length (all_chars commands)) + 7
       ≤ INT_MAX)%Z →
    ∃ st, main_loop char_codes commands st0 = Some st ∧
          length (st_ok st) = length (st_ok st0) + length commands.
Proof.
  intros Hlens.
  induction commands as [|cmd commands IH]; intros st0 H0 Hmax.
  { exists st0. split; [done|]. simpl. lia. }
  rewrite all_chars_cons, length_app in Hmax.
  pose proof (sum_lens_bound char_codes (cmd_chars cmd) 255
    (λ c Hc, Hlens c (cmd_chars_bound cmd c Hc))) as Hs.
  cbn [main_loop]. unfold main_step.
  rewrite encode_command_sum; cycle 1.
  { intros c Hc. apply Hlens. by apply (cmd_chars_bound cmd). }
  { lia. }
  cbn [mbind option_bind].
  rewrite (proj2 (in_int_range_spec _)) by (unfold INT_MIN; lia).
  cbn [mbind option_bind].
  edestruct IH as (st & -> & Hlen); [| |exists st; split; [done|]].
  - cbn [st_total]. lia.
  - cbn [st_total]. lia.
  - rewrite Hlen. cbn [st_ok]. rewrite length_app. cbn [length]. lia.
Qed.

(** X19. For any command array with at most 8,421,504 characters in all, the
    stages of [main] (counting, building the code table, the reporting
    loop) run through: the traversal stays inside its stack, no [int]
    overflows, and every command gets its verdict. *)
Theorem main_runs (commands : list string) :
  (Z.of_nat (length (all_chars commands)) ≤ MAX_CMD_CHARS)%Z →
  ∃ st, main commands = Some st ∧ length (st_ok st) = length commands.
Proof.
  intros Hn. unfold MAX_CMD_CHARS in Hn.
  assert (Z.of_nat (length (all_chars commands)) < ULONG_MODULUS)%Z as Hlt.
  { unfold ULONG_MODULUS. lia. }
  destruct (no_wrap_build_Some _ (count_char_freq_no_wrap commands Hlt))
    as [tbl E].
  unfold main. rewrite E. cbn [mbind option_bind].
  destruct (main_loop_Some tbl commands) with (st0 := stats0)
    as (st & Hst & Hlen).
  - intros c Hc.
    destruct (build_char_codes_entry _ tbl c E) as (_ & Hl & _); [lia|done].
  - done.
  - cbn [stats0 st_total]. unfold INT_MAX. lia.
  - exists st. split; [done|]. by rewrite Hlen.
Qed.

Lemma main_runs_witness :
  ∃ st, main ["aab"; "abc"]%string = Some st ∧
        length (st_ok st) = length ["aab"; "abc"]%string.
Proof.
  apply (main_runs ["aab"; "abc"]%string). vm_compute. discriminate.
Defined.

Lemma fixed8_inj c1 c2 :
  c1 < NUM_CHARS → c2 < NUM_CHARS → fixed8 c1 = fixed8 c2 → c1 = c2.
Proof.
  intros H1 H2.
  assert (Forall (λ a, Forall (λ b, fixed8 a = fixed8 b → a = b)
                          (seq 0 NUM_CHARS)) (seq 0 NUM_CHARS)) as Hall.
  { apply (bool_decide_unpack _). vm_compute. exact I. }
  rewrite Forall_forall in Hall.
  specialize (Hall c1 ltac:(apply elem_of_seq; lia)).
  rewrite Forall_forall in Hall.
  apply Hall. apply elem_of_seq. lia.
Qed.

Lemma fixed8_prefix_free char_freq : prefix_free_assignment char_freq fixed8.
Proof.
  intros c1 c2 H1 H2 Hne _ _ Hp. apply Hne, fixed8_inj; [done..|].
  apply prefix_length_eq; [done|].
  unfold fixed8. by rewrite !length_fmap.
Qed.

(** X20. No prefix-free code does better on the counted text: when [main]
    ends, its [total_bits] is at most the number of bits any prefix-free
    assignment of code words to the characters in use needs for all the
    commands together (fewer than [2^64] characters being counted). *)
Theorem main_total_minimal (commands : list string) (st : MainStats)
    (g : nat → list bool) :
  main commands = Some st →
  (Z.of_nat (length (all_chars commands)) < ULONG_MODULUS)%Z →
  prefix_free_assignment (count_char_freq commands) g →
  (st_total st ≤ lsum (λ c, Z.of_nat (length (g c))) (all_chars commands))%Z.
Proof.
  unfold main. intros Hmain Hn Hg.
  destruct (build_char_codes (count_char_freq commands)) as [tbl|] eqn:E;
    [|done].
  cbn [mbind option_bind] in Hmain.
  rewrite (main_loop_total commands tbl st Hmain Hn).
  rewrite <- (total_bits_text commands _ Hn).
  destruct (build_char_codes_cases _ _ E)
    as [[Hb ->]|(root & Hb & Hok & Hlen & Hin & Hout)].
  - pose proof (proj1 (build_tree_None_zero _) Hb) as Hz.
    unfold total_bits.
    rewrite (lsum_ext _ (λ _, 0%Z)), (lsum_ext (λ c, _ * Z.of_nat _)%Z (λ _, 0%Z)).
    + done.
    + intros c Hc%elem_of_seq. rewrite Hz by lia. lia.
    + intros c Hc%elem_of_seq. rewrite Hz by lia. lia.
  - rewrite (total_bits_wpl _ root Hb tbl Hin).
    by apply (build_tree_no_wrap _ (count_char_freq_no_wrap commands Hn) root Hb).
Qed.

Lemma main_total_minimal_witness :
  (st_total aab_abc_stats
   ≤ lsum (λ c, Z.of_nat (length (fixed8 c)))
          (all_chars ["aab"; "abc"]%string))%Z.
Proof.
  apply (main_total_minimal ["aab"; "abc"]%string aab_abc_stats fixed8).
  - vm_compute. reflexivity.
  - vm_compute. reflexivity.
  - apply fixed8_prefix_free.
Defined.

(** * Further properties: the first loop, the printed code *)

(** X21. The first loop of [build_char_codes] zeroes the table and leaves a
    heap in heap order that holds one leaf for every character of nonzero
    frequency and nothing else; [n_used] is the heap size, at most 256, so
    the heap array of [MAX_HEAP] cells is never full. *)
Theorem init_loop_heap (char_freq : list Z) :
  ∃ heap,
    init_loop char_freq = (zero_codes, heap, length heap) ∧
    is_heap heap ∧
    heap ≡ₚ (λ c, Leaf c (char_freq !!! c)) <$>
              filter (λ c, char_freq !!! c ≠ 0%Z) (seq 0 NUM_CHARS) ∧
    length heap ≤ NUM_CHARS ∧ NUM_CHARS < MAX_HEAP.
Proof.
  destruct (init_loop_spec char_freq) as (heap & E & Hh & Hp).
  pose proof (used_leaves_length char_freq) as [Hl Hcap].
  assert (length heap = length (used_leaves char_freq)) as Hlen
    by (by rewrite Hp).
  exists heap. rewrite Hlen. split; [done|]. split; [done|].
  split; [done|]. split; [done|]. done.
Qed.

Lemma bits_val_from_shift p : ∀ a,
  bits_val_from a p = (a * 2 ^ Z.of_nat (length p) + bits_val p)%Z.
Proof.
  unfold bits_val, bits_val_from.
  induction p as [|b p IH]; intros a; [simpl; lia|].
  cbn [foldl length]. rewrite IH, (IH (2 * 0 + Z.b2z b)%Z).
  rewrite Nat2Z.inj_succ, Z.pow_succ_r by lia. lia.
Qed.

Lemma bits_val_of_testbits v n :
  (0 ≤ v)%Z →
  bits_val (map (λ i, Z.testbit v (Z.of_nat i)) (rev (seq 0 n)))
  = (v mod 2 ^ Z.of_nat n)%Z.
Proof.
  intros Hv. induction n as [|n IH].
  { simpl. by rewrite Z.mod_1_r. }
  rewrite seq_S, rev_app_distr. cbn [rev app map Nat.add].
  unfold bits_val in *. unfold bits_val_from at 1. cbn [foldl].
  fold (bits_val_from (2 * 0 + Z.b2z (Z.testbit v (Z.of_nat n)))
          (map (λ i, Z.testbit v (Z.of_nat i)) (rev (seq 0 n)))).
  rewrite bits_val_from_shift. unfold bits_val. rewrite IH.
  rewrite length_map, length_rev, length_seq.
  rewrite Nat2Z.inj_succ, Z.pow_succ_r by lia.
  replace (2 * 2 ^ Z.of_nat n)%Z with (2 ^ Z.of_nat n * 2)%Z by lia.
  rewrite Z.rem_mul_r by lia.
  rewrite Z.testbit_spec' by lia. lia.
Qed.

(** X22. For an entry of at most [MAX_CODE_LEN] = 64 bits, where every shift
    [code >> i] is defined, the bits [print_char_code] writes, read as a
    binary number, are the code, whenever the code is below [2^len]. *)
Theorem print_char_code_value (char_codes : list CodeEntry) (c : nat) :
  (len (char_codes !!! c) ≤ Z.of_nat MAX_CODE_LEN)%Z →
  (0 ≤ code (char_codes !!! c) < 2 ^ len (char_codes !!! c))%Z →
  bits_val (print_char_code char_codes c) = code (char_codes !!! c) ∧
  Z.of_nat (length (print_char_code char_codes c)) = len (char_codes !!! c).
Proof.
  intros _ [H0 Hlt].
  assert (0 ≤ len (char_codes !!! c))%Z as Hl.
  { destruct (Z.le_gt_cases 0 (len (char_codes !!! c))) as [|Hneg]; [done|].
    rewrite Z.pow_neg_r in Hlt by lia. lia. }
  split.
  - unfold print_char_code. rewrite bits_val_of_testbits by done.
    rewrite Z2Nat.id by done. by apply Z.mod_small.
  - rewrite print_char_code_length. lia.
Qed.

Lemma print_char_code_value_witness :
  bits_val (print_char_code abc_codes 98) = code (abc_codes !!! 98) ∧
  Z.of_nat (length (print_char_code abc_codes 98)) = len (abc_codes !!! 98).
Proof.
  apply (print_char_code_value abc_codes 98).
  - vm_compute. discriminate.
  - vm_compute. split; [discriminate|reflexivity].
Defined.
